(** * Collab-Mentions: the merge, integrity and lock protocol

    A shallow embedding of the conflict-resolution core of the plugin
    ([src/chatManager.ts], [src/userManager.ts], [src/types.ts]) and the
    properties its specification states about it.

    Conventions of the embedding.
    - A JavaScript string is the list of its UTF-16 code units ([jsstring]);
      [charCodeAt], [===] and [split] act on code units, and so do the
      definitions below.
    - A JavaScript [Map] and an object used as a dictionary are association
      lists in insertion order ([Dict]): iteration order is observable in the
      source (it fixes the order of the arrays that are rebuilt from them).
    - Time stamps are milliseconds since the epoch ([Z]): the source stores
      ISO strings and only ever compares [new Date(s).getTime()].
    - [Date.now()] and freshly generated ids are inputs of the operation that
      reads them; file contents are inputs of the operation that reads the
      file, and what an operation writes is part of its result. *)

From Stdlib Require Import ZArith List Bool Lia.
From Stdlib Require String Ascii.
Import String.StringSyntax.
Import ListNotations.

Local Open Scope Z_scope.

(** ** JavaScript strings *)

Module JS.

Definition jsstring : Type := list Z.

(** Code units of an ASCII literal, to write examples. *)
Definition js (s : String.string) : jsstring :=
  map (fun a => Z.of_nat (Ascii.nat_of_ascii a)) (String.list_ascii_of_string s).
Arguments js s%_string_scope.

Fixpoint str_eqb (a b : jsstring) : bool :=
  match a, b with
  | [], [] => true
  | x :: a', y :: b' => (x =? y) && str_eqb a' b'
  | _, _ => false
  end.

(** [arr.includes(x)] on an array of strings. *)
Definition includes (l : list jsstring) (x : jsstring) : bool :=
  existsb (str_eqb x) l.

(** The names every object inherits from [Object.prototype].  Under such a
    name, an object literal or a parsed object that has no property of its
    own answers [obj[name]] with a function, and with the prototype itself
    for [__proto__]: a value that is truthy, is no date and is no array. *)
Definition inherited_names : list jsstring :=
  [js "constructor"; js "__defineGetter__"; js "__defineSetter__";
   js "hasOwnProperty"; js "__lookupGetter__"; js "__lookupSetter__";
   js "isPrototypeOf"; js "propertyIsEnumerable"; js "toString";
   js "valueOf"; js "__proto__"; js "toLocaleString"].

Definition is_inherited (name : jsstring) : bool :=
  includes inherited_names name.

(** [ToInt32] and [ToUint32] on an integral Number. *)
Definition to_int32 (z : Z) : Z := (z + 2 ^ 31) mod 2 ^ 32 - 2 ^ 31.
Definition to_uint32 (z : Z) : Z := z mod 2 ^ 32.

(** A Number is an IEEE-754 binary64: the exact integer [z] is stored as the
    nearest value with a 53-bit significand, ties to even. *)
Definition round_double (z : Z) : Z :=
  let a := Z.abs z in
  let k := Z.log2 a - 52 in
  if k <=? 0 then z
  else
    let q := Z.shiftr a k in
    let r := a - Z.shiftl q k in
    let half := 2 ^ (k - 1) in
    let q' := if r <? half then q
              else if half <? r then q + 1
              else if Z.even q then q else q + 1 in
    Z.sgn z * Z.shiftl q' k.

(** [n.toString(16)] for a non-negative integer: lower-case digits, no
    leading zero, ["0"] for zero. *)
Definition hex_digit (d : Z) : Z := if d <? 10 then 48 + d else 87 + d.

Fixpoint hex_digits (fuel : nat) (n : Z) (acc : jsstring) : jsstring :=
  match fuel with
  | O => acc
  | S fuel' =>
      if n =? 0 then acc
      else hex_digits fuel' (n / 16) (hex_digit (n mod 16) :: acc)
  end.

Definition toString16 (n : Z) : jsstring :=
  if n <=? 0 then [48] else hex_digits (S (Z.to_nat (Z.log2 n))) n [].

(** A character of a hexadecimal numeral: [0-9a-f]. *)
Definition is_hex (c : Z) : Prop := 48 <= c <= 57 \/ 97 <= c <= 102.

(** The number a hexadecimal numeral denotes, read from the left: the
    value of a digit, and of a string of digits. *)
Definition hex_digit_value (c : Z) : Z := if c <? 58 then c - 48 else c - 87.

Definition hex_numeral_value (s : jsstring) : Z :=
  fold_left (fun value c => 16 * value + hex_digit_value c) s 0.

(** A numeral without leading zeros: ["0"], or a string that does not
    start with the digit [0]. *)
Definition no_leading_zero (s : jsstring) : Prop :=
  s = [48] \/ exists c rest, s = c :: rest /\ c <> 48.

End JS.
Import JS.

(** ** ContentHasher: [computeHash] *)

Module Hash.

Definition FNV_OFFSET : Z := 2166136261.
Definition FNV_PRIME : Z := 16777619.

(** One iteration of the loop body:
    [hash ^= content.charCodeAt(i); hash = (hash * 16777619) >>> 0].
    The xor converts both operands to 32-bit signed integers and the product
    is a Number, rounded before [>>> 0] reduces it. *)
Definition hash_step (hash c : Z) : Z :=
  let x := Z.lxor (to_int32 hash) (to_int32 c) in
  to_uint32 (round_double (x * FNV_PRIME)).

Definition hash_value (content : jsstring) : Z :=
  fold_left hash_step content FNV_OFFSET.

Definition computeHash (content : jsstring) : jsstring :=
  toString16 (hash_value content).

End Hash.

(** ** Host collections *)

(** Insertion-ordered dictionary: a [Map<string, V>], or the properties an
    object indexed by string keys has of its own.  [set] keeps the position
    of a key that is present and appends a new one, as [Map.prototype.set]
    does.  [member] and [assign] are the reading and the writing of
    [obj[k]] for an object, which reach its prototype when the object has
    no property of its own under [k]. *)
Module Dict.
Section Dict.
Context {V : Type}.

Definition t : Type := list (jsstring * V).

Fixpoint get (k : jsstring) (d : t) : option V :=
  match d with
  | [] => None
  | (k', v) :: d' => if str_eqb k k' then Some v else get k d'
  end.

Definition has (k : jsstring) (d : t) : bool :=
  match get k d with Some _ => true | None => false end.

Fixpoint set (k : jsstring) (v : V) (d : t) : t :=
  match d with
  | [] => [(k, v)]
  | (k', v') :: d' =>
      if str_eqb k k' then (k', v) :: d' else (k', v') :: set k v d'
  end.

Definition delete (k : jsstring) (d : t) : t :=
  filter (fun kv => negb (str_eqb k (fst kv))) d.

Definition keys (d : t) : list jsstring := map fst d.

(** The structural invariant of a [Map]: one entry per key. *)
Definition wf (d : t) : Prop := NoDup (keys d).

(** What [obj[k]] evaluates to. *)
Inductive Member : Type :=
| Own (v : V)
| Inherited
| Undefined.

Definition member (k : jsstring) (d : t) : Member :=
  match get k d with
  | Some v => Own v
  | None => if is_inherited k then Inherited else Undefined
  end.

(** [obj[k] = v] for a [v] that is a string or a number.  On an object
    without a property of its own named [__proto__], the assignment calls
    the setter of the prototype, which leaves the object as it is. *)
Definition assign (k : jsstring) (v : V) (d : t) : t :=
  if has k d || negb (str_eqb k (js "__proto__")) then set k v d else d.
End Dict.
Arguments t : clear implicits.
Arguments Member : clear implicits.
Arguments Own {V} v.
Arguments Inherited {V}.
Arguments Undefined {V}.
End Dict.

(** Insertion-ordered [Set<string>]. *)
Definition set_add (x : jsstring) (s : list jsstring) : list jsstring :=
  if includes s x then s else s ++ [x].

(** [Array.from(new Set(l))]. *)
Definition dedup (l : list jsstring) : list jsstring :=
  fold_left (fun acc x => set_add x acc) l [].

(** [arr.sort((a, b) => key(a) - key(b))]: the host sort is stable. *)
Section Sort.
Context {A : Type} (key : A -> Z).

Fixpoint insert_by (x : A) (l : list A) : list A :=
  match l with
  | [] => [x]
  | y :: l' => if key x <=? key y then x :: l else y :: insert_by x l'
  end.

Definition sort_by (l : list A) : list A := fold_right insert_by [] l.
End Sort.

(** [l[i] = f(l[i])]: in-place update of the object at index [i]. *)
Fixpoint update_nth {A : Type} (i : nat) (f : A -> A) (l : list A) : list A :=
  match l, i with
  | [], _ => []
  | x :: l', O => f x :: l'
  | x :: l', S i' => x :: update_nth i' f l'
  end.

(** Index of the last element satisfying [p]: what [new Map(l.map(x => [x.id,
    x]))] holds for a key that occurs more than once. *)
Fixpoint find_last_index {A : Type} (p : A -> bool) (l : list A) : option nat :=
  match l with
  | [] => None
  | x :: l' =>
      match find_last_index p l' with
      | Some i => Some (S i)
      | None => if p x then Some O else None
      end
  end.

(** What reading a JSON file yields: no file, content that does not parse
    (a read caught in the middle of a sync), or the parsed document. *)
Inductive File (A : Type) : Type :=
| Absent
| Garbled
| Content (a : A).
Arguments Absent {A}.
Arguments Garbled {A}.
Arguments Content {A} a.

(** Truthiness of an optional boolean field. *)
Definition truthy (b : option bool) : bool :=
  match b with Some true => true | _ => false end.

(** ** Data model ([types.ts]) *)

Inductive AdminLevel : Type := primary | secondary.

Definition AdminLevel_eqb (a b : AdminLevel) : bool :=
  match a, b with
  | primary, primary | secondary, secondary => true
  | _, _ => false
  end.

Module VaultUser.
Record t : Type := mk {
  vaultName : jsstring;
  localIdentifier : jsstring;
  os : jsstring;
  registered : Z;
  registrationNumber : option Z;
  color : option jsstring;
  isAdmin : option bool;
  adminLevel : option AdminLevel
}.

Definition set_registrationNumber (n : option Z) (u : t) : t :=
  mk (vaultName u) (localIdentifier u) (os u) (registered u) n (color u)
     (isAdmin u) (adminLevel u).

Definition set_isAdmin (b : option bool) (u : t) : t :=
  mk (vaultName u) (localIdentifier u) (os u) (registered u)
     (registrationNumber u) (color u) b (adminLevel u).

Definition set_adminLevel (a : option AdminLevel) (u : t) : t :=
  mk (vaultName u) (localIdentifier u) (os u) (registered u)
     (registrationNumber u) (color u) (isAdmin u) a.
End VaultUser.

Module ChatReaction.
Record t : Type := mk { emoji : jsstring; users : list jsstring }.
End ChatReaction.

Module ChatImage.
Record t : Type := mk { id : jsstring; filename : jsstring; path : jsstring }.
End ChatImage.

Module ChatMessage.
Record t : Type := mk {
  id : jsstring;
  from : jsstring;
  message : jsstring;
  timestamp : Z;
  fileLinks : option (list jsstring);
  mentions : option (list jsstring);
  channelMentions : option (list jsstring);
  images : option (list ChatImage.t);
  reactions : option (list ChatReaction.t);
  edited : option bool;
  editedAt : option Z;
  deleted : option bool;
  replyTo : option jsstring
}.

Definition set_reactions (r : option (list ChatReaction.t)) (m : t) : t :=
  mk (id m) (from m) (message m) (timestamp m) (fileLinks m) (mentions m)
     (channelMentions m) (images m) r (edited m) (editedAt m) (deleted m)
     (replyTo m).

(** The four fields an adopted edit overwrites, with [editedAt]. *)
Definition set_content (ea : option Z) (msg : jsstring)
    (mn fl cm : option (list jsstring)) (m : t) : t :=
  mk (id m) (from m) msg (timestamp m) fl mn cm (images m) (reactions m)
     (edited m) ea (deleted m) (replyTo m).

Definition set_edited (e : option bool) (m : t) : t :=
  mk (id m) (from m) (message m) (timestamp m) (fileLinks m) (mentions m)
     (channelMentions m) (images m) (reactions m) e (editedAt m) (deleted m)
     (replyTo m).

Definition set_images (i : option (list ChatImage.t)) (m : t) : t :=
  mk (id m) (from m) (message m) (timestamp m) (fileLinks m) (mentions m)
     (channelMentions m) i (reactions m) (edited m) (editedAt m) (deleted m)
     (replyTo m).

Definition set_deleted (d : option bool) (m : t) : t :=
  mk (id m) (from m) (message m) (timestamp m) (fileLinks m) (mentions m)
     (channelMentions m) (images m) (reactions m) (edited m) (editedAt m) d
     (replyTo m).
End ChatMessage.

Inductive ChannelType : Type := general | group | dm.

Definition ChannelType_eqb (a b : ChannelType) : bool :=
  match a, b with
  | general, general | group, group | dm, dm => true
  | _, _ => false
  end.

Definition GENERAL_CHANNEL_ID : jsstring := Eval cbv in js "general".

Module Channel.
Record t : Type := mk {
  id : jsstring;
  type : ChannelType;
  name : jsstring;
  members : list jsstring;
  createdBy : jsstring;
  createdAt : Z
}.

Definition set_type (ty : ChannelType) (c : t) : t :=
  mk (id c) ty (name c) (members c) (createdBy c) (createdAt c).
Definition set_name (n : jsstring) (c : t) : t :=
  mk (id c) (type c) n (members c) (createdBy c) (createdAt c).
Definition set_members (ms : list jsstring) (c : t) : t :=
  mk (id c) (type c) (name c) ms (createdBy c) (createdAt c).
End Channel.

Module DeletedChannel.
Record t : Type := mk {
  id : jsstring;
  deletedAt : Z;
  deletedBy : jsstring
}.
End DeletedChannel.

(** Legacy single-channel document. *)
Module ChatDataV1.
Record t : Type := mk {
  messages : option (list ChatMessage.t);
  lastReadTimestamp : option (Dict.t Z)
}.
End ChatDataV1.

(** Multi-channel document ([version: 2]). *)
Module ChatDataV2.
Record t : Type := mk {
  channels : list Channel.t;
  channelMessages : Dict.t (list ChatMessage.t);
  readState : Dict.t (Dict.t Z);
  mutedChannels : option (Dict.t (list jsstring));
  deletedChannels : option (list DeletedChannel.t);
  _checksum : option jsstring
}.

Definition set_channels (x : list Channel.t) (d : t) : t :=
  mk x (channelMessages d) (readState d) (mutedChannels d)
     (deletedChannels d) (_checksum d).
Definition set_channelMessages (x : Dict.t (list ChatMessage.t)) (d : t) : t :=
  mk (channels d) x (readState d) (mutedChannels d) (deletedChannels d)
     (_checksum d).
Definition set_readState (x : Dict.t (Dict.t Z)) (d : t) : t :=
  mk (channels d) (channelMessages d) x (mutedChannels d)
     (deletedChannels d) (_checksum d).
Definition set_mutedChannels (x : option (Dict.t (list jsstring))) (d : t) : t :=
  mk (channels d) (channelMessages d) (readState d) x (deletedChannels d)
     (_checksum d).
Definition set_deletedChannels (x : option (list DeletedChannel.t)) (d : t) : t :=
  mk (channels d) (channelMessages d) (readState d) (mutedChannels d) x
     (_checksum d).
Definition set_checksum (x : option jsstring) (d : t) : t :=
  mk (channels d) (channelMessages d) (readState d) (mutedChannels d)
     (deletedChannels d) x.
End ChatDataV2.

Inductive ChatData : Type :=
| V1 (d : ChatDataV1.t)
| V2 (d : ChatDataV2.t).

(** ** UserManager ([userManager.ts]) *)

Module UserManager.
Import VaultUser.

(** [users.lock]: [{holder, timestamp}].  [holder] is the field when it is
    a string, and [None] when it is missing or of another type, which
    [=== localId] tells from every identifier alike.  [timestamp] is the
    number that the subtraction [now - lockData.timestamp] makes of the
    field, in whole milliseconds as [Date.now()] gives them: the field
    itself when it is a number, 0 when it is [null], the number that a
    numeric string spells, and [None] when the conversion gives no number
    (NaN), as it does for a missing field.  Content whose
    [JSON.parse(content).holder] throws (invalid JSON, or the literal
    [null]) is [Garbled]. *)
Record LockData : Type := mkLock {
  holder : option jsstring;
  timestamp : option Z
}.

(** The manager's fields, and the two files it owns.  [users.json] holds
    [{users: VaultUser[]}]; content without a [users] array makes every
    reader throw where invalid JSON does, and is [Garbled] too. *)
Record t : Type := mk {
  currentUser : option VaultUser.t;
  usersConfig : list VaultUser.t;
  recentlyDeletedUsers : Dict.t Z;
  usersFile : File (list VaultUser.t);
  lockFile : File LockData
}.

Definition set_usersConfig (us : list VaultUser.t) (m : t) : t :=
  mk (currentUser m) us (recentlyDeletedUsers m) (usersFile m) (lockFile m).
Definition set_currentUser (c : option VaultUser.t) (m : t) : t :=
  mk c (usersConfig m) (recentlyDeletedUsers m) (usersFile m) (lockFile m).
Definition set_recentlyDeletedUsers (d : Dict.t Z) (m : t) : t :=
  mk (currentUser m) (usersConfig m) d (usersFile m) (lockFile m).
Definition set_usersFile (f : File (list VaultUser.t)) (m : t) : t :=
  mk (currentUser m) (usersConfig m) (recentlyDeletedUsers m) f (lockFile m).
Definition set_lockFile (f : File LockData) (m : t) : t :=
  mk (currentUser m) (usersConfig m) (recentlyDeletedUsers m) (usersFile m) f.

Definition USER_DELETE_PROTECTION : Z := 300000.

(** [releaseLock]: the file is removed when we are its recorded holder, and
    also when its content cannot be read as a lock (the inner [catch]). *)
Definition releaseLock (localId : jsstring) (m : t) : t :=
  match lockFile m with
  | Absent => m
  | Garbled => set_lockFile Absent m
  | Content lockData =>
      match holder lockData with
      | Some h => if str_eqb h localId then set_lockFile Absent m else m
      | None => m
      end
  end.

(** [isRecentlyDeletedUser]: an expired entry is dropped by the lookup. *)
Definition isRecentlyDeletedUser (now : Z) (localId : jsstring)
    (ledger : Dict.t Z) : bool * Dict.t Z :=
  match Dict.get localId ledger with
  | None => (false, ledger)
  | Some deletedTime =>
      if deletedTime =? 0 then (false, ledger)
      else if USER_DELETE_PROTECTION <? now - deletedTime
           then (false, Dict.delete localId ledger)
           else (true, ledger)
  end.

(** [!u.registrationNumber] *)
Definition no_regnum (u : VaultUser.t) : bool :=
  match registrationNumber u with None => true | Some n => n =? 0 end.

(** [u.registrationNumber === 1] *)
Definition is_first (u : VaultUser.t) : bool :=
  match registrationNumber u with Some n => n =? 1 | None => false end.

(** [u.adminLevel === 'primary'] *)
Definition is_primary (u : VaultUser.t) : bool :=
  match adminLevel u with Some primary => true | _ => false end.

Fixpoint find_index {A : Type} (p : A -> bool) (l : list A) : option nat :=
  match l with
  | [] => None
  | x :: l' =>
      if p x then Some O
      else match find_index p l' with Some i => Some (S i) | None => None end
  end.

Definition by_registered (l : list VaultUser.t) : list VaultUser.t :=
  sort_by registered l.

(** Step 1 of [ensureAdminExists]: users are visited in registration order
    and the one found under that name gets the visit's rank if it has no
    number yet. *)
Definition assign_number (acc : list VaultUser.t * bool)
    (visit : VaultUser.t * nat) : list VaultUser.t * bool :=
  let '(us, needsSave) := acc in
  let '(sortedUser, index) := visit in
  match find_index (fun u => str_eqb (vaultName u) (vaultName sortedUser)) us with
  | Some i =>
      match nth_error us i with
      | Some userInConfig =>
          if no_regnum userInConfig
          then (update_nth i
                  (set_registrationNumber (Some (Z.of_nat index + 1))) us, true)
          else acc
      | None => acc
      end
  | None => acc
  end.

Definition assign_numbers (us : list VaultUser.t) : list VaultUser.t * bool :=
  if existsb no_regnum us
  then fold_left assign_number
         (combine (by_registered us) (seq 0 (length us))) (us, false)
  else (us, false).

(** Step 2, first half: with zero or several primaries, every primary that
    is not number 1 becomes secondary. *)
Definition demote_extra (us : list VaultUser.t) : list VaultUser.t * bool :=
  if Nat.eqb (length (filter is_primary us)) 1 then (us, false)
  else (map (fun u => if is_primary u && negb (is_first u)
                      then set_adminLevel (Some secondary) u else u) us,
        existsb (fun u => is_primary u && negb (is_first u)) us).

(** Step 2, second half: the first user numbered 1 is made primary admin. *)
Definition promote_first (us : list VaultUser.t) : list VaultUser.t * bool :=
  match find_index is_first us with
  | Some i =>
      match nth_error us i with
      | Some firstUser =>
          if negb (truthy (isAdmin firstUser)) || negb (is_primary firstUser)
          then (update_nth i (fun u => set_adminLevel (Some primary)
                                         (set_isAdmin (Some true) u)) us, true)
          else (us, false)
      | None => (us, false)
      end
  | None => (us, false)
  end.

(** Step 3: an admin without a level, other than number 1, is secondary. *)
Definition needs_level (u : VaultUser.t) : bool :=
  truthy (isAdmin u)
  && match adminLevel u with None => true | Some _ => false end
  && negb (is_first u).

Definition level_admins (us : list VaultUser.t) : list VaultUser.t * bool :=
  (map (fun u => if needs_level u then set_adminLevel (Some secondary) u else u) us,
   existsb needs_level us).

(** [ensureAdminExists] up to its final [saveUsers]: the repaired list and
    [needsSave]. *)
Definition ensureAdminExists_pass (us : list VaultUser.t)
    : list VaultUser.t * bool :=
  match us with
  | [] => ([], false)
  | _ =>
      let '(us1, s1) := assign_numbers us in
      let '(us2, s2) := demote_extra us1 in
      let '(us3, s3) := promote_first us2 in
      let '(us4, s4) := level_admins us3 in
      (us4, s1 || s2 || s3 || s4)
  end.

(** The merge pass of [saveUsers].  Disk users whose [localIdentifier] we do
    not hold are appended unless recently deleted here; the list is sorted
    by registration time and renumbered from 1; number 1 is made primary
    admin and every other primary is demoted. *)
Definition merge_disk_user (now : Z) (ourLocalIds : list jsstring)
    (acc : list VaultUser.t * Dict.t Z) (diskUser : VaultUser.t)
    : list VaultUser.t * Dict.t Z :=
  let '(us, ledger) := acc in
  if includes ourLocalIds (localIdentifier diskUser) then acc
  else
    let '(recent, ledger') :=
      isRecentlyDeletedUser now (localIdentifier diskUser) ledger in
    if recent then (us, ledger') else (us ++ [diskUser], ledger').

Fixpoint renumber_from (i : nat) (us : list VaultUser.t) : list VaultUser.t :=
  match us with
  | [] => []
  | u :: us' =>
      set_registrationNumber (Some (Z.of_nat i + 1)) u :: renumber_from (S i) us'
  end.

Definition single_primary (u : VaultUser.t) : VaultUser.t :=
  if is_first u then set_adminLevel (Some primary) (set_isAdmin (Some true) u)
  else if is_primary u then set_adminLevel (Some secondary) u
  else u.

Definition merge_users (now : Z) (ours disk : list VaultUser.t)
    (ledger : Dict.t Z) : list VaultUser.t * Dict.t Z :=
  let '(us, ledger') :=
    fold_left (merge_disk_user now (map localIdentifier ours)) disk
              (ours, ledger) in
  (map single_primary (renumber_from 0 (by_registered us)), ledger').

(** [saveUsers]: merge with the file when it is there and parses, then write
    the in-memory list (the write is verified by reading it back).
    [currentUser] keeps the value it had.  In the code it is the object of
    the list, which the merge renumbers and promotes in place: after a save
    its registration number and admin fields are those of its entry in
    [usersConfig].  Its name and its local identifier do not change. *)
Definition saveUsers (now : Z) (m : t) : t :=
  let m1 :=
    match usersFile m with
    | Content diskUsers =>
        let '(us, ledger) :=
          merge_users now (usersConfig m) diskUsers (recentlyDeletedUsers m) in
        set_recentlyDeletedUsers ledger (set_usersConfig us m)
    | _ => m
    end in
  set_usersFile (Content (usersConfig m1)) m1.

(** [loadUsers]: the file replaces the in-memory list, which then goes
    through [ensureAdminExists]. *)
Definition loadUsers (now : Z) (m : t) : t :=
  match usersFile m with
  | Absent => saveUsers now (set_usersConfig [] m)
  | Garbled => set_usersConfig [] m
  | Content us =>
      let '(us', needsSave) := ensureAdminExists_pass us in
      let m1 := set_usersConfig us' m in
      if needsSave then saveUsers now m1 else m1
  end.

(** [identifyCurrentUser] *)
Definition identifyCurrentUser (localId : jsstring) (m : t) : t :=
  set_currentUser
    (find (fun u => str_eqb (localIdentifier u) localId) (usersConfig m)) m.

Fixpoint remove_nth {A : Type} (i : nat) (l : list A) : list A :=
  match l, i with
  | [], _ => []
  | _ :: l', O => l'
  | x :: l', S i' => x :: remove_nth i' l'
  end.

(** [a.registrationNumber || 999] *)
Definition regnum_or_999 (u : VaultUser.t) : Z :=
  match registrationNumber u with
  | Some n => if n =? 0 then 999 else n
  | None => 999
  end.

(** [unregisterCurrentUser].  [currentUser] is the object found when the
    user was identified: its [adminLevel] is what that object holds. *)
Definition unregisterCurrentUser (now : Z) (m : t) : bool * t :=
  match currentUser m with
  | None => (false, m)
  | Some cu =>
      match find_index
              (fun u => str_eqb (localIdentifier u) (localIdentifier cu))
              (usersConfig m) with
      | None => (false, m)
      | Some index =>
          let wasPrimaryAdmin := is_primary cu in
          let ledger := Dict.set (localIdentifier cu) now (recentlyDeletedUsers m) in
          let us := remove_nth index (usersConfig m) in
          let us' :=
            if wasPrimaryAdmin then
              match sort_by regnum_or_999 us with
              | newPrimaryAdmin :: _ =>
                  match find_index
                          (fun u => str_eqb (vaultName u) (vaultName newPrimaryAdmin))
                          us with
                  | Some i =>
                      update_nth i (fun u => set_adminLevel (Some primary)
                                               (set_isAdmin (Some true) u)) us
                  | None => us
                  end
              | [] => us
              end
            else us in
          let m1 := saveUsers now
                      (set_recentlyDeletedUsers ledger (set_usersConfig us' m)) in
          (true, set_currentUser None m1)
      end
  end.

(** The invariant of the users collection: exactly one user is primary
    admin, and no user has a lower registration number. *)
Definition lowest_number (p : VaultUser.t) (us : list VaultUser.t) : Prop :=
  exists n, registrationNumber p = Some n
            /\ forall u, In u us ->
                 exists k, registrationNumber u = Some k /\ n <= k.

Definition SinglePrimary (us : list VaultUser.t) : Prop :=
  exists p, filter is_primary us = [p] /\ lowest_number p us.

(** The user was deleted here within the protection window. *)
Definition deleted_recently (now : Z) (localId : jsstring) (ledger : Dict.t Z)
    : Prop :=
  exists t, Dict.get localId ledger = Some t
            /\ t <> 0
            /\ now - t <= USER_DELETE_PROTECTION.

(** *** The registration lock *)

Definition LOCK_TIMEOUT : Z := 10000.

(** [lockAge > LOCK_TIMEOUT] where [lockAge = now - lockData.timestamp]: an
    age that is not a number is not greater than the timeout.  A timestamp
    [null] is the time 0, and its lock is stale from 10001 ms on. *)
Definition is_stale_lock (now : Z) (lockData : LockData) : bool :=
  match timestamp lockData with
  | Some ts => LOCK_TIMEOUT <? now - ts
  | None => false
  end.

(** [lockData.holder !== localId] *)
Definition held_by_other (localId : jsstring) (lockData : LockData) : bool :=
  match holder lockData with
  | Some h => negb (str_eqb h localId)
  | None => true
  end.

(** [acquireLock].  A lock that parses, is not stale and is not ours makes
    the call give up; otherwise our lock is written and read again 50 ms
    later.  [others] is what the other processes have made of the file by
    then; a verifying read that throws makes the call answer [false]. *)
Definition acquireLock (now : Z) (localId : jsstring)
    (others : File LockData -> File LockData) (m : t) : bool * t :=
  let blocked :=
    match lockFile m with
    | Content lockData =>
        if is_stale_lock now lockData then false
        else held_by_other localId lockData
    | _ => false
    end in
  if blocked then (false, m)
  else
    let m1 := set_lockFile (others (Content (mkLock (Some localId) (Some now)))) m in
    match lockFile m1 with
    | Content verifyData => (negb (held_by_other localId verifyData), m1)
    | _ => (false, m1)
    end.

(** *** Administration *)

Section WithLocale.
(** [String.prototype.toLowerCase] is the host's. *)
Variable toLowerCase : jsstring -> jsstring.

(** [a.toLowerCase() === b.toLowerCase()] *)
Definition same_name (a b : jsstring) : bool :=
  str_eqb (toLowerCase a) (toLowerCase b).

(** [getUserByName] *)
Definition getUserByName (name : jsstring) (m : t) : option VaultUser.t :=
  find (fun user => same_name (vaultName user) name) (usersConfig m).

(** [isCurrentUserAdmin] *)
Definition isCurrentUserAdmin (m : t) : bool :=
  match currentUser m with
  | Some cu => truthy (isAdmin cu)
  | None => false
  end.

(** [removeUser]: by an admin, of another user than the current one. *)
Definition removeUser (now : Z) (name : jsstring) (m : t) : bool * t :=
  if negb (isCurrentUserAdmin m) then (false, m)
  else if match currentUser m with
          | Some cu => same_name (vaultName cu) name
          | None => false
          end
  then (false, m)
  else
    match find_index (fun u => same_name (vaultName u) name) (usersConfig m) with
    | None => (false, m)
    | Some index =>
        match nth_error (usersConfig m) index with
        | None => (false, m)
        | Some userToRemove =>
            let ledger := Dict.set (localIdentifier userToRemove) now
                                   (recentlyDeletedUsers m) in
            (true,
             saveUsers now
               (set_recentlyDeletedUsers ledger
                  (set_usersConfig (remove_nth index (usersConfig m)) m)))
        end
    end.

End WithLocale.

End UserManager.

(** ** ChatManager ([chatManager.ts]) *)

Module ChatManager.

Definition MAX_MESSAGES_PER_CHANNEL : nat := 200.
Definition MAX_LOAD_RETRIES : nat := 3.
Definition DELETED_CHANNEL_RETENTION_MS : Z := 24 * 60 * 60 * 1000.
Definition MESSAGE_PROTECTION_DURATION : Z := 60000.
Definition DISMISS_PROTECTION_DURATION : Z := 60000.
Definition CHANNEL_DELETE_PROTECTION : Z := 300000.
Definition LEAVE_PROTECTION_DURATION : Z := 300000.
Definition ADD_MEMBER_PROTECTION_DURATION : Z := 300000.
Definition REACTION_TOGGLE_PROTECTION_DURATION : Z := 60000.

(** An entry of [recentlySentMessages].  [message] is the message as it was
    sent.  In the code the entry holds the very object that was pushed onto
    the channel list, so that an edit or a deletion made on that object
    since shows in what [ensureRecentMessagesExist] pushes back.  The id
    of the message does not change. *)
Record SentEntry : Type := mkSent {
  channelId : jsstring;
  message : ChatMessage.t;
  timestamp : Z
}.

(** An entry of the per-message map of [recentlyToggledReactions].  The map
    is keyed by [`${emoji}|${username}`]; every key is built that way by
    [trackReactionToggle], so an entry records the two strings and its key
    is computed from them. *)
Record Toggle : Type := mkToggle {
  emoji : jsstring;
  username : jsstring;
  added : bool;
  toggledAt : Z
}.

Definition BAR : Z := 124.

Definition toggleKey (e u : jsstring) : jsstring := e ++ BAR :: u.

Definition key_of (tg : Toggle) : jsstring := toggleKey (emoji tg) (username tg).

Definition toggles_get (key : jsstring) (l : list Toggle) : option Toggle :=
  find (fun tg => str_eqb key (key_of tg)) l.

Definition toggles_delete (key : jsstring) (l : list Toggle) : list Toggle :=
  filter (fun tg => negb (str_eqb key (key_of tg))) l.

Fixpoint toggles_set (tg : Toggle) (l : list Toggle) : list Toggle :=
  match l with
  | [] => [tg]
  | tg' :: l' =>
      if str_eqb (key_of tg) (key_of tg') then tg :: l'
      else tg' :: toggles_set tg l'
  end.

(** [s.split('|')] *)
Fixpoint split_bar (s : jsstring) : list jsstring :=
  match s with
  | [] => [[]]
  | c :: s' =>
      if c =? BAR then [] :: split_bar s'
      else match split_bar s' with
           | h :: t => (c :: h) :: t
           | [] => [[c]]
           end
  end.

(** [const [emoji, username] = key.split('|')].  A key always holds a bar,
    so the second component exists. *)
Definition decode_key (key : jsstring) : jsstring * jsstring :=
  match split_bar key with
  | e :: u :: _ => (e, u)
  | [e] => (e, [])
  | [] => ([], [])
  end.

(** The manager's fields, the current user its [userManager] reports, and
    [chat.json]. *)
Record t : Type := mk {
  chatData : ChatDataV2.t;
  activeChannelId : jsstring;
  recentlySentMessages : Dict.t SentEntry;
  recentlyDismissedMessages : Dict.t Z;
  recentlyDeletedChannels : Dict.t Z;
  recentlyLeftChannels : Dict.t Z;
  recentlyAddedMembers : Dict.t (Dict.t Z);
  recentlyToggledReactions : Dict.t (list Toggle);
  currentUser : option VaultUser.t;
  chatFile : File ChatData
}.

Definition set_chatData (x : ChatDataV2.t) (m : t) : t :=
  mk x (activeChannelId m) (recentlySentMessages m)
     (recentlyDismissedMessages m) (recentlyDeletedChannels m)
     (recentlyLeftChannels m) (recentlyAddedMembers m)
     (recentlyToggledReactions m) (currentUser m) (chatFile m).
Definition set_activeChannelId (x : jsstring) (m : t) : t :=
  mk (chatData m) x (recentlySentMessages m)
     (recentlyDismissedMessages m) (recentlyDeletedChannels m)
     (recentlyLeftChannels m) (recentlyAddedMembers m)
     (recentlyToggledReactions m) (currentUser m) (chatFile m).
Definition set_recentlySentMessages (x : Dict.t SentEntry) (m : t) : t :=
  mk (chatData m) (activeChannelId m) x
     (recentlyDismissedMessages m) (recentlyDeletedChannels m)
     (recentlyLeftChannels m) (recentlyAddedMembers m)
     (recentlyToggledReactions m) (currentUser m) (chatFile m).
Definition set_recentlyDismissedMessages (x : Dict.t Z) (m : t) : t :=
  mk (chatData m) (activeChannelId m) (recentlySentMessages m)
     x (recentlyDeletedChannels m)
     (recentlyLeftChannels m) (recentlyAddedMembers m)
     (recentlyToggledReactions m) (currentUser m) (chatFile m).
Definition set_recentlyDeletedChannels (x : Dict.t Z) (m : t) : t :=
  mk (chatData m) (activeChannelId m) (recentlySentMessages m)
     (recentlyDismissedMessages m) x
     (recentlyLeftChannels m) (recentlyAddedMembers m)
     (recentlyToggledReactions m) (currentUser m) (chatFile m).
Definition set_recentlyLeftChannels (x : Dict.t Z) (m : t) : t :=
  mk (chatData m) (activeChannelId m) (recentlySentMessages m)
     (recentlyDismissedMessages m) (recentlyDeletedChannels m)
     x (recentlyAddedMembers m)
     (recentlyToggledReactions m) (currentUser m) (chatFile m).
Definition set_recentlyAddedMembers (x : Dict.t (Dict.t Z)) (m : t) : t :=
  mk (chatData m) (activeChannelId m) (recentlySentMessages m)
     (recentlyDismissedMessages m) (recentlyDeletedChannels m)
     (recentlyLeftChannels m) x
     (recentlyToggledReactions m) (currentUser m) (chatFile m).
Definition set_recentlyToggledReactions (x : Dict.t (list Toggle)) (m : t) : t :=
  mk (chatData m) (activeChannelId m) (recentlySentMessages m)
     (recentlyDismissedMessages m) (recentlyDeletedChannels m)
     (recentlyLeftChannels m) (recentlyAddedMembers m)
     x (currentUser m) (chatFile m).
Definition set_chatFile (x : File ChatData) (m : t) : t :=
  mk (chatData m) (activeChannelId m) (recentlySentMessages m)
     (recentlyDismissedMessages m) (recentlyDeletedChannels m)
     (recentlyLeftChannels m) (recentlyAddedMembers m)
     (recentlyToggledReactions m) (currentUser m) x.

(** Updates of one field of the document held by the manager. *)
Definition upd_channels (f : list Channel.t -> list Channel.t) (m : t) : t :=
  set_chatData (ChatDataV2.set_channels (f (ChatDataV2.channels (chatData m)))
                  (chatData m)) m.
Definition upd_channelMessages
    (f : Dict.t (list ChatMessage.t) -> Dict.t (list ChatMessage.t)) (m : t) : t :=
  set_chatData (ChatDataV2.set_channelMessages
                  (f (ChatDataV2.channelMessages (chatData m))) (chatData m)) m.
Definition upd_readState
    (f : Dict.t (Dict.t Z) -> Dict.t (Dict.t Z)) (m : t) : t :=
  set_chatData (ChatDataV2.set_readState
                  (f (ChatDataV2.readState (chatData m))) (chatData m)) m.

Definition channels (m : t) : list Channel.t := ChatDataV2.channels (chatData m).
Definition channelMessages (m : t) : Dict.t (list ChatMessage.t) :=
  ChatDataV2.channelMessages (chatData m).

(** *** Integrity *)

Section WithHost.
(** [JSON.stringify] on a document is the host's; the checksum only needs
    it to be a function of the document. *)
Variable stringify : ChatDataV2.t -> jsstring.

(** [computeDataChecksum]: the [_checksum] key is deleted from a copy
    before the copy is serialized and hashed. *)
Definition computeDataChecksum (data : ChatDataV2.t) : jsstring :=
  Hash.computeHash (stringify (ChatDataV2.set_checksum None data)).

(** [validateDataIntegrity]: a missing (or empty) checksum is accepted. *)
Definition validateDataIntegrity (data : ChatDataV2.t) : bool :=
  match ChatDataV2._checksum data with
  | None => true
  | Some [] => true
  | Some c => str_eqb c (computeDataChecksum data)
  end.

(** The two statements of [saveChat] that stamp the document. *)
Definition stamp (data : ChatDataV2.t) : ChatDataV2.t :=
  let data' := ChatDataV2.set_checksum None data in
  ChatDataV2.set_checksum (Some (computeDataChecksum data')) data'.

(** One pass of the read loop of [loadChat]: the attempt fails when the
    read or the parse throws, and when a version-2 document does not pass
    validation. *)
Definition attempt_ok (a : File ChatData) : option ChatData :=
  match a with
  | Content (V2 d) => if validateDataIntegrity d then Some (V2 d) else None
  | Content (V1 d) => Some (V1 d)
  | _ => None
  end.

(** The loop: [reads n] is what the read of attempt [n] returns; attempts
    are numbered from 1 and at most [MAX_LOAD_RETRIES] are made.  The
    result is [rawData] and the number of failed attempts. *)
Fixpoint read_from (reads : nat -> File ChatData) (attempt fuel : nat)
    : option ChatData * nat :=
  match fuel with
  | O => (None, O)
  | S fuel' =>
      match attempt_ok (reads attempt) with
      | Some d => (Some d, O)
      | None =>
          let '(r, n) := read_from reads (S attempt) fuel' in (r, S n)
      end
  end.

Definition read_with_retry (reads : nat -> File ChatData)
    : option ChatData * nat :=
  read_from reads 1%nat MAX_LOAD_RETRIES.

(** *** Ledger lookups *)

(** [isRecentlyDismissed] *)
Definition isRecentlyDismissed (now : Z) (messageId : jsstring)
    (ledger : Dict.t Z) : bool * Dict.t Z :=
  match Dict.get messageId ledger with
  | None => (false, ledger)
  | Some dismissedTime =>
      if dismissedTime =? 0 then (false, ledger)
      else if DISMISS_PROTECTION_DURATION <? now - dismissedTime
           then (false, Dict.delete messageId ledger)
           else (true, ledger)
  end.

(** [getRecentReactionToggle]: [Some added] for a toggle within the
    protection window; an expired one is dropped by the lookup. *)
Definition getRecentReactionToggle (now : Z) (messageId e u : jsstring)
    (ledger : Dict.t (list Toggle)) : option bool * Dict.t (list Toggle) :=
  match Dict.get messageId ledger with
  | None => (None, ledger)
  | Some msgToggles =>
      let key := toggleKey e u in
      match toggles_get key msgToggles with
      | None => (None, ledger)
      | Some toggle =>
          if REACTION_TOGGLE_PROTECTION_DURATION <? now - toggledAt toggle
          then (None, Dict.set messageId (toggles_delete key msgToggles) ledger)
          else (Some (added toggle), ledger)
      end
  end.

(** *** [mergeMessageUpdates] *)

(** [emojiMap]: emoji to the set of users, both in insertion order. *)
Definition EmojiMap : Type := Dict.t (list jsstring).

Definition ensure_emoji (e : jsstring) (em : EmojiMap) : EmojiMap :=
  if Dict.has e em then em else Dict.set e [] em.

(** [emojiMap.get(e)!.add(u)] *)
Definition add_user (e u : jsstring) (em : EmojiMap) : EmojiMap :=
  match Dict.get e em with
  | Some us => Dict.set e (set_add u us) em
  | None => em
  end.

Definition collect_reaction (em : EmojiMap) (r : ChatReaction.t) : EmojiMap :=
  fold_left (fun em' u => add_user (ChatReaction.emoji r) u em')
            (ChatReaction.users r)
            (ensure_emoji (ChatReaction.emoji r) em).

(** First loop: every reaction of our message. *)
Definition collect_ours (rs : option (list ChatReaction.t)) : EmojiMap :=
  match rs with
  | Some l => fold_left collect_reaction l []
  | None => []
  end.

(** Second loop: the reactions of the disk message, but for the pairs
    toggled off here within the window. *)
Definition collect_disk_user (now : Z) (messageId e : jsstring)
    (acc : EmojiMap * Dict.t (list Toggle)) (u : jsstring)
    : EmojiMap * Dict.t (list Toggle) :=
  let '(em, ledger) := acc in
  let '(recentToggle, ledger') :=
    getRecentReactionToggle now messageId e u ledger in
  match recentToggle with
  | Some false => (em, ledger')
  | _ => (add_user e u em, ledger')
  end.

Definition collect_disk_reaction (now : Z) (messageId : jsstring)
    (acc : EmojiMap * Dict.t (list Toggle)) (r : ChatReaction.t)
    : EmojiMap * Dict.t (list Toggle) :=
  let '(em, ledger) := acc in
  fold_left (collect_disk_user now messageId (ChatReaction.emoji r))
            (ChatReaction.users r)
            (ensure_emoji (ChatReaction.emoji r) em, ledger).

Definition collect_disk (now : Z) (messageId : jsstring)
    (rs : option (list ChatReaction.t))
    (acc : EmojiMap * Dict.t (list Toggle))
    : EmojiMap * Dict.t (list Toggle) :=
  match rs with
  | Some l => fold_left (collect_disk_reaction now messageId) l acc
  | None => acc
  end.

(** Third loop, over the toggles recorded for the message: expired ones
    are deleted, the others re-add their pair when they were additions. *)
Definition collect_toggle (now : Z) (acc : EmojiMap * list Toggle)
    (toggle : Toggle) : EmojiMap * list Toggle :=
  let '(em, msgToggles) := acc in
  if REACTION_TOGGLE_PROTECTION_DURATION <? now - toggledAt toggle
  then (em, toggles_delete (key_of toggle) msgToggles)
  else if added toggle
       then let '(e, u) := decode_key (key_of toggle) in
            (add_user e u (ensure_emoji e em), msgToggles)
       else acc.

Definition collect_toggles (now : Z) (messageId : jsstring)
    (acc : EmojiMap * Dict.t (list Toggle))
    : EmojiMap * Dict.t (list Toggle) :=
  let '(em, ledger) := acc in
  match Dict.get messageId ledger with
  | Some msgToggles =>
      let '(em', msgToggles') :=
        fold_left (collect_toggle now) msgToggles (em, msgToggles) in
      (em', Dict.set messageId msgToggles' ledger)
  | None => acc
  end.

(** Back to the array form; an emoji left without users is dropped. *)
Definition to_reactions (em : EmojiMap) : list ChatReaction.t :=
  flat_map (fun kv => match snd kv with
                      | [] => []
                      | us => [ChatReaction.mk (fst kv) us]
                      end) em.

Definition some_if_nonempty {A : Type} (l : list A) : option (list A) :=
  match l with [] => None | _ => Some l end.

(** [diskMsg.editedAt && ourMsg.editedAt &&
     new Date(diskMsg.editedAt) > new Date(ourMsg.editedAt)] *)
Definition disk_edit_newer (ourMsg diskMsg : ChatMessage.t) : bool :=
  match ChatMessage.editedAt diskMsg, ChatMessage.editedAt ourMsg with
  | Some d, Some o => o <? d
  | _, _ => false
  end.

Definition nonempty_reactions (m : ChatMessage.t) : bool :=
  match ChatMessage.reactions m with
  | Some (_ :: _) => true
  | _ => false
  end.

(** The branch that trusts a disk message without a [reactions] field. *)
Definition trust_disk (ourMsg diskMsg : ChatMessage.t) : bool :=
  match ChatMessage.reactions diskMsg with
  | None =>
      nonempty_reactions ourMsg
      && (truthy (ChatMessage.deleted diskMsg)
          || disk_edit_newer ourMsg diskMsg)
  | Some _ => false
  end.

Definition merge_reactions (now : Z) (ledger : Dict.t (list Toggle))
    (ourMsg diskMsg : ChatMessage.t)
    : ChatMessage.t * Dict.t (list Toggle) :=
  let '(em, ledger') :=
    collect_toggles now (ChatMessage.id ourMsg)
      (collect_disk now (ChatMessage.id ourMsg) (ChatMessage.reactions diskMsg)
         (collect_ours (ChatMessage.reactions ourMsg), ledger)) in
  let mergedReactions := to_reactions em in
  (ChatMessage.set_reactions
     (if trust_disk ourMsg diskMsg then None
      else some_if_nonempty mergedReactions) ourMsg,
   ledger').

Definition adopt_edit (diskMsg : ChatMessage.t) (ourMsg : ChatMessage.t)
    : ChatMessage.t :=
  ChatMessage.set_content (ChatMessage.editedAt diskMsg)
    (ChatMessage.message diskMsg) (ChatMessage.mentions diskMsg)
    (ChatMessage.fileLinks diskMsg) (ChatMessage.channelMentions diskMsg)
    ourMsg.

Definition merge_edited (ourMsg diskMsg : ChatMessage.t) : ChatMessage.t :=
  if truthy (ChatMessage.edited diskMsg) then
    if negb (truthy (ChatMessage.edited ourMsg)) then
      adopt_edit diskMsg
        (ChatMessage.set_edited (ChatMessage.edited diskMsg) ourMsg)
    else if disk_edit_newer ourMsg diskMsg then adopt_edit diskMsg ourMsg
    else ourMsg
  else ourMsg.

Definition clear_content (m : ChatMessage.t) : ChatMessage.t :=
  ChatMessage.set_reactions None
    (ChatMessage.set_images None
       (ChatMessage.set_content (ChatMessage.editedAt m) [] None None None m)).

Definition merge_deleted (ourMsg diskMsg : ChatMessage.t) : ChatMessage.t :=
  if truthy (ChatMessage.deleted diskMsg)
     && negb (truthy (ChatMessage.deleted ourMsg))
  then clear_content
         (ChatMessage.set_deleted (ChatMessage.deleted diskMsg) ourMsg)
  else ourMsg.

(** The message after [mergeMessageUpdates(ourMsg, diskMsg)], and the
    ledger of reaction toggles after its lazy expiry. *)
Definition mergeMessageUpdates (now : Z) (ledger : Dict.t (list Toggle))
    (ourMsg diskMsg : ChatMessage.t)
    : ChatMessage.t * Dict.t (list Toggle) :=
  let '(m1, ledger') := merge_reactions now ledger ourMsg diskMsg in
  (merge_deleted (merge_edited m1 diskMsg) diskMsg, ledger').

(** *** Merging the message lists of a channel *)

Definition by_timestamp (l : list ChatMessage.t) : list ChatMessage.t :=
  sort_by ChatMessage.timestamp l.

Definition has_id (i : jsstring) (m : ChatMessage.t) : bool :=
  str_eqb (ChatMessage.id m) i.

(** [ourMessageMap.get(id)], as the index of the object in our array: the
    map is built once, before the loop, and a later duplicate of an id
    replaces an earlier one. *)
Definition our_index (ours0 : list ChatMessage.t) (i : jsstring) : option nat :=
  find_last_index (has_id i) ours0.

(** One disk message met by the loop of [saveChat]. *)
Definition merge_disk_message (now : Z) (ours0 : list ChatMessage.t)
    (acc : list ChatMessage.t * Dict.t (list Toggle)) (diskMsg : ChatMessage.t)
    : list ChatMessage.t * Dict.t (list Toggle) :=
  let '(ours, ledger) := acc in
  match our_index ours0 (ChatMessage.id diskMsg) with
  | None => (ours ++ [diskMsg], ledger)
  | Some i =>
      match nth_error ours i with
      | Some ourMsg =>
          let '(m', ledger') := mergeMessageUpdates now ledger ourMsg diskMsg in
          (update_nth i (fun _ => m') ours, ledger')
      | None => acc
      end
  end.

(** One disk message met by the loop of [loadChat], which first skips the
    recently dismissed ones. *)
Definition merge_disk_message_load (now : Z) (ours0 : list ChatMessage.t)
    (acc : list ChatMessage.t * Dict.t (list Toggle) * Dict.t Z)
    (diskMsg : ChatMessage.t)
    : list ChatMessage.t * Dict.t (list Toggle) * Dict.t Z :=
  let '(ours, ledger, dismissed) := acc in
  let '(skip, dismissed') :=
    isRecentlyDismissed now (ChatMessage.id diskMsg) dismissed in
  if skip then (ours, ledger, dismissed')
  else
    let '(ours', ledger') :=
      merge_disk_message now ours0 (ours, ledger) diskMsg in
    (ours', ledger', dismissed').

(** [disk.filter(m => !this.isRecentlyDismissed(m.id))] *)
Definition filter_dismissed (now : Z) (diskMsgs : list ChatMessage.t)
    (dismissed : Dict.t Z) : list ChatMessage.t * Dict.t Z :=
  fold_left (fun acc diskMsg =>
               let '(kept, led) := acc in
               let '(skip, led') :=
                 isRecentlyDismissed now (ChatMessage.id diskMsg) led in
               if skip then (kept, led') else (kept ++ [diskMsg], led'))
            diskMsgs ([], dismissed).

(** The body of [for (const channelId of Object.keys(diskData.channelMessages))]
    in [saveChat]. *)
Definition merge_channel_messages_save (now : Z)
    (disk : Dict.t (list ChatMessage.t)) (m : t) (cid : jsstring) : t :=
  match Dict.get cid disk with
  | None => m
  | Some diskMsgs =>
      match Dict.get cid (channelMessages m) with
      | None => upd_channelMessages (Dict.set cid diskMsgs) m
      | Some ours0 =>
          let '(ours, ledger) :=
            fold_left (merge_disk_message now ours0) diskMsgs
                      (ours0, recentlyToggledReactions m) in
          upd_channelMessages (Dict.set cid (by_timestamp ours))
            (set_recentlyToggledReactions ledger m)
      end
  end.

(** The same body in [loadChat]. *)
Definition merge_channel_messages_load (now : Z)
    (disk : Dict.t (list ChatMessage.t)) (m : t) (cid : jsstring) : t :=
  match Dict.get cid disk with
  | None => m
  | Some diskMsgs =>
      match Dict.get cid (channelMessages m) with
      | None =>
          let '(kept, dismissed) :=
            filter_dismissed now diskMsgs (recentlyDismissedMessages m) in
          upd_channelMessages (Dict.set cid kept)
            (set_recentlyDismissedMessages dismissed m)
      | Some ours0 =>
          let '(ours, ledger, dismissed) :=
            fold_left (merge_disk_message_load now ours0) diskMsgs
                      (ours0, recentlyToggledReactions m,
                       recentlyDismissedMessages m) in
          upd_channelMessages (Dict.set cid (by_timestamp ours))
            (set_recentlyDismissedMessages dismissed
               (set_recentlyToggledReactions ledger m))
      end
  end.

(** [ensureRecentMessagesExist]: an expired entry is dropped; a protected
    message missing from its channel is pushed back and the channel
    re-sorted. *)
Definition ensure_recent (now : Z) (m : t) (kv : jsstring * SentEntry) : t :=
  let '(msgId, entry) := kv in
  if MESSAGE_PROTECTION_DURATION <? now - timestamp entry
  then set_recentlySentMessages (Dict.delete msgId (recentlySentMessages m)) m
  else
    let msgs :=
      match Dict.get (channelId entry) (channelMessages m) with
      | Some l => l
      | None => []
      end in
    if existsb (has_id msgId) msgs
    then upd_channelMessages (Dict.set (channelId entry) msgs) m
    else upd_channelMessages
           (Dict.set (channelId entry) (by_timestamp (msgs ++ [message entry]))) m.

Definition ensureRecentMessagesExist (now : Z) (m : t) : t :=
  fold_left (ensure_recent now) (recentlySentMessages m) m.

(** *** Read state, mutes and tombstones *)

(** [!ourTimestamp || new Date(diskTimestamp) > new Date(ourTimestamp)].
    An inherited member is truthy and makes a date that is not a number,
    which no date is later than: nothing is stored. *)
Definition merge_read_user (disk : Dict.t Z) (ours : Dict.t Z) (u : jsstring)
    : Dict.t Z :=
  match Dict.get u disk with
  | None => ours
  | Some diskTimestamp =>
      match Dict.member u ours with
      | Dict.Undefined => Dict.set u diskTimestamp ours
      | Dict.Own ourTimestamp =>
          if ourTimestamp <? diskTimestamp then Dict.set u diskTimestamp ours
          else ours
      | Dict.Inherited => ours
      end
  end.

Definition merge_read_channel (disk : Dict.t (Dict.t Z))
    (ours : Dict.t (Dict.t Z)) (cid : jsstring) : Dict.t (Dict.t Z) :=
  match Dict.get cid disk with
  | None => ours
  | Some diskCh =>
      match Dict.get cid ours with
      | None => Dict.set cid diskCh ours
      | Some ourCh =>
          Dict.set cid (fold_left (merge_read_user diskCh) (Dict.keys diskCh) ourCh)
                   ours
      end
  end.

Definition merge_readState (disk : Dict.t (Dict.t Z)) (m : t) : t :=
  upd_readState (fun ours => fold_left (merge_read_channel disk) (Dict.keys disk) ours) m.

(** One turn of [for (const username of Object.keys(diskData.mutedChannels))].
    [None] is a turn that throws: memory answers for [username] with an
    inherited member, which is truthy, so that the union is taken, and
    which the spread [...this.chatData.mutedChannels[username]] cannot
    iterate. *)
Definition merge_muted_user (disk : Dict.t (list jsstring))
    (ours : Dict.t (list jsstring)) (u : jsstring)
    : option (Dict.t (list jsstring)) :=
  match Dict.get u disk with
  | None => Some ours
  | Some diskList =>
      match Dict.member u ours with
      | Dict.Undefined => Some (Dict.set u diskList ours)
      | Dict.Own ourList => Some (Dict.set u (dedup (ourList ++ diskList)) ours)
      | Dict.Inherited => None
      end
  end.

(** The loop.  A turn that throws ends it; what the turns before it stored
    stays. *)
Fixpoint merge_muted_users (disk : Dict.t (list jsstring))
    (usernames : list jsstring) (ours : Dict.t (list jsstring))
    : Dict.t (list jsstring) :=
  match usernames with
  | [] => ours
  | username :: rest =>
      match merge_muted_user disk ours username with
      | Some ours' => merge_muted_users disk rest ours'
      | None => ours
      end
  end.

(** The merge of the mutes is the last step of the merge, in [saveChat] and
    in [loadChat].  An error thrown by its loop is caught by the [catch] of
    [saveChat], which goes on with the save, and by the [catch] of
    [loadChat], which puts the protected messages back as the end of the
    [try] block does: both go on as after a loop that ended. *)
Definition merge_mutedChannels (disk : option (Dict.t (list jsstring))) (m : t) : t :=
  match disk with
  | None => m
  | Some diskMuted =>
      let ours := match ChatDataV2.mutedChannels (chatData m) with
                  | Some o => o
                  | None => []
                  end in
      set_chatData
        (ChatDataV2.set_mutedChannels
           (Some (merge_muted_users diskMuted (Dict.keys diskMuted) ours))
           (chatData m)) m
  end.

Definition tombstone_ids (l : list DeletedChannel.t) : list jsstring :=
  map DeletedChannel.id l.

(** Tombstones of the disk whose id we did not hold before the loop. *)
Definition new_tombstones (ours disk : list DeletedChannel.t)
    : list DeletedChannel.t :=
  filter (fun d => negb (includes (tombstone_ids ours) (DeletedChannel.id d))) disk.

(** *** [saveChat] *)

Definition default_tombstones (m : t) : list DeletedChannel.t :=
  match ChatDataV2.deletedChannels (chatData m) with
  | Some l => l
  | None => []
  end.

Definition set_tombstones (l : list DeletedChannel.t) (m : t) : t :=
  set_chatData (ChatDataV2.set_deletedChannels (Some l) (chatData m)) m.

(** The merge of [saveChat]: messages, read state, tombstones and mutes
    come from the disk; the channel list does not. *)
Definition merge_on_save (now : Z) (diskData : ChatDataV2.t) (m : t) : t :=
  let m1 := fold_left (merge_channel_messages_save now
                         (ChatDataV2.channelMessages diskData))
              (Dict.keys (ChatDataV2.channelMessages diskData)) m in
  let m2 := merge_readState (ChatDataV2.readState diskData) m1 in
  let m3 := match ChatDataV2.deletedChannels diskData with
            | Some diskDeleted =>
                set_tombstones (default_tombstones m2
                                ++ new_tombstones (default_tombstones m2) diskDeleted) m2
            | None => m2
            end in
  merge_mutedChannels (ChatDataV2.mutedChannels diskData) m3.

(** [saveChat]: merge with a version-2 file when there is one that parses,
    put the protected messages back, stamp the document and write it (the
    write is verified by reading it back). *)
Definition saveChat (now : Z) (m : t) : t :=
  let m1 := match chatFile m with
            | Content (V2 diskData) => merge_on_save now diskData m
            | _ => m
            end in
  let m2 := ensureRecentMessagesExist now m1 in
  let m3 := set_tombstones (default_tombstones m2) m2 in
  let data := stamp (chatData m3) in
  set_chatFile (Content (V2 data)) (set_chatData data m3).

(** *** Channel ledgers *)

(** [hasRecentlyLeftChannel] *)
Definition hasRecentlyLeftChannel (now : Z) (cid : jsstring)
    (ledger : Dict.t Z) : bool * Dict.t Z :=
  match Dict.get cid ledger with
  | None => (false, ledger)
  | Some leftTime =>
      if leftTime =? 0 then (false, ledger)
      else if LEAVE_PROTECTION_DURATION <? now - leftTime
           then (false, Dict.delete cid ledger)
           else (true, ledger)
  end.

(** [trackMemberAdded] *)
Definition trackMemberAdded (now : Z) (cid u : jsstring) (m : t) : t :=
  let inner := match Dict.get cid (recentlyAddedMembers m) with
               | Some d => d
               | None => []
               end in
  set_recentlyAddedMembers
    (Dict.set cid (Dict.set u now inner) (recentlyAddedMembers m)) m.

(** [getRecentlyAddedMembers]: members added within the window, in the
    order they were recorded; older entries are deleted. *)
Definition getRecentlyAddedMembers (now : Z) (cid : jsstring)
    (ledger : Dict.t (Dict.t Z)) : list jsstring * Dict.t (Dict.t Z) :=
  match Dict.get cid ledger with
  | None => ([], ledger)
  | Some channelMembers =>
      let recent := filter (fun kv => now - snd kv <=? ADD_MEMBER_PROTECTION_DURATION)
                           channelMembers in
      (Dict.keys recent, Dict.set cid recent ledger)
  end.

(** [isRecentlyDeletedChannel]: the in-memory cache first, then the
    persisted tombstones, which refill the cache. *)
Definition isRecentlyDeletedChannel (now : Z) (cid : jsstring) (m : t)
    : bool * t :=
  let cached :=
    match Dict.get cid (recentlyDeletedChannels m) with
    | Some deletedTime =>
        if deletedTime =? 0 then (false, m)
        else if now - deletedTime <=? CHANNEL_DELETE_PROTECTION then (true, m)
             else (false, set_recentlyDeletedChannels
                            (Dict.delete cid (recentlyDeletedChannels m)) m)
    | None => (false, m)
    end in
  let '(hit, m1) := cached in
  if hit then (true, m1)
  else
    match ChatDataV2.deletedChannels (chatData m1) with
    | Some l =>
        match find (fun d => str_eqb (DeletedChannel.id d) cid) l with
        | Some persistedDeletion =>
            if now - DeletedChannel.deletedAt persistedDeletion
               <=? DELETED_CHANNEL_RETENTION_MS
            then (true, set_recentlyDeletedChannels
                          (Dict.set cid (DeletedChannel.deletedAt persistedDeletion)
                                    (recentlyDeletedChannels m1)) m1)
            else (false, m1)
        | None => (false, m1)
        end
    | None => (false, m1)
    end.

(** *** The channel merge of [loadChat] *)

Definition has_channel_id (cid : jsstring) (c : Channel.t) : bool :=
  str_eqb (Channel.id c) cid.

(** [members.filter(m => m !== currentUser.vaultName)] when there is a
    current user who recently left the channel. *)
Definition drop_if_left (now : Z) (cid : jsstring) (members : list jsstring)
    (m : t) : list jsstring * t :=
  match currentUser m with
  | Some cu =>
      let '(hasLeft, ledger) :=
        hasRecentlyLeftChannel now cid (recentlyLeftChannels m) in
      let m' := set_recentlyLeftChannels ledger m in
      if hasLeft
      then (filter (fun x => negb (str_eqb x (VaultUser.vaultName cu))) members, m')
      else (members, m')
  | None => (members, m)
  end.

(** Recently added members that the list lacks are pushed onto it. *)
Definition keep_added (recentlyAdded members : list jsstring) : list jsstring :=
  fold_left (fun ms member => if includes ms member then ms else ms ++ [member])
            recentlyAdded members.

Definition merged_members (now : Z) (diskChannel : Channel.t) (m : t)
    : list jsstring * t :=
  let '(members1, m1) :=
    drop_if_left now (Channel.id diskChannel) (Channel.members diskChannel) m in
  let '(recentlyAdded, ledger) :=
    getRecentlyAddedMembers now (Channel.id diskChannel) (recentlyAddedMembers m1) in
  (keep_added recentlyAdded members1, set_recentlyAddedMembers ledger m1).

(** The name of the disk wins for a channel the disk holds as a group. *)
Definition merge_name (diskChannel ourChannel : Channel.t) : Channel.t :=
  if negb (str_eqb (Channel.name diskChannel) (Channel.name ourChannel))
     && ChannelType_eqb (Channel.type diskChannel) group
  then Channel.set_name (Channel.name diskChannel) ourChannel
  else ourChannel.

(** The body of [for (const diskChannel of diskData.channels)];
    [ours0] is the channel list [ourChannelMap] was built from. *)
Definition merge_disk_channel (now : Z) (ours0 : list Channel.t) (m : t)
    (diskChannel : Channel.t) : t :=
  let '(skip, m1) := isRecentlyDeletedChannel now (Channel.id diskChannel) m in
  if skip then m1
  else
    let '(members, m2) := merged_members now diskChannel m1 in
    match find_last_index (has_channel_id (Channel.id diskChannel)) ours0 with
    | None =>
        upd_channels (fun l => l ++ [Channel.set_members members diskChannel]) m2
    | Some i =>
        upd_channels
          (update_nth i (fun ourChannel =>
                           merge_name diskChannel
                             (Channel.set_members members ourChannel))) m2
    end.

Definition merge_channels (now : Z) (diskChannels : list Channel.t) (m : t) : t :=
  fold_left (merge_disk_channel now (channels m)) diskChannels m.

(** *** [loadChat] *)

(** [createEmptyV2Data] *)
Definition createEmptyV2Data (now : Z) : ChatDataV2.t :=
  ChatDataV2.mk
    [Channel.mk GENERAL_CHANNEL_ID general (js "General") [] (js "system") now]
    [(GENERAL_CHANNEL_ID, [])]
    [(GENERAL_CHANNEL_ID, [])]
    None
    (Some [])
    None.

(** [migrateV1ToV2] *)
Definition migrateV1ToV2 (now : Z) (v1Data : ChatDataV1.t) : ChatDataV2.t :=
  let v2Data := createEmptyV2Data now in
  let msgs := match ChatDataV1.messages v1Data with
              | Some l => l
              | None => []
              end in
  let v2Data1 :=
    ChatDataV2.set_channelMessages
      (Dict.set GENERAL_CHANNEL_ID msgs (ChatDataV2.channelMessages v2Data))
      v2Data in
  match ChatDataV1.lastReadTimestamp v1Data with
  | Some lr =>
      ChatDataV2.set_readState
        (Dict.set GENERAL_CHANNEL_ID lr (ChatDataV2.readState v2Data1)) v2Data1
  | None => v2Data1
  end.

(** Tombstones: those of the disk are adopted and cached, then the ones
    older than the retention are dropped. *)
Definition merge_tombstones (now : Z) (diskData : ChatDataV2.t) (m : t) : t :=
  let ours := default_tombstones m in
  let disk := match ChatDataV2.deletedChannels diskData with
              | Some l => l
              | None => []
              end in
  let fresh := new_tombstones ours disk in
  let cache := fold_left (fun c d => Dict.set (DeletedChannel.id d)
                                       (DeletedChannel.deletedAt d) c)
                         fresh (recentlyDeletedChannels m) in
  set_tombstones
    (filter (fun d => now - DeletedChannel.deletedAt d
                      <? DELETED_CHANNEL_RETENTION_MS) (ours ++ fresh))
    (set_recentlyDeletedChannels cache m).

(** A channel is removed only when it is absent from the disk and carries
    a tombstone; General never is. *)
Definition to_remove (diskData : ChatDataV2.t) (m : t) (ch : Channel.t) : bool :=
  negb (str_eqb (Channel.id ch) GENERAL_CHANNEL_ID)
  && negb (includes (map Channel.id (ChatDataV2.channels diskData)) (Channel.id ch))
  && includes (tombstone_ids (default_tombstones m)) (Channel.id ch).

Definition remove_channel_data (m : t) (cid : jsstring) : t :=
  upd_readState (Dict.delete cid)
    (upd_channelMessages (Dict.delete cid)
       (upd_channels (filter (fun c => negb (has_channel_id cid c))) m)).

Definition remove_deleted_channels (diskData : ChatDataV2.t) (m : t) : t :=
  fold_left remove_channel_data
    (map Channel.id (filter (to_remove diskData m) (channels m))) m.

(** The merge of [loadChat], once a document was read and the manager
    already holds channels. *)
Definition merge_on_load (now : Z) (diskData : ChatDataV2.t) (m : t) : t :=
  let m1 := merge_tombstones now diskData m in
  let m2 := remove_deleted_channels diskData m1 in
  let m3 := merge_channels now (ChatDataV2.channels diskData) m2 in
  let m4 := fold_left (merge_channel_messages_load now
                         (ChatDataV2.channelMessages diskData))
              (Dict.keys (ChatDataV2.channelMessages diskData)) m3 in
  let m5 := merge_readState (ChatDataV2.readState diskData) m4 in
  merge_mutedChannels (ChatDataV2.mutedChannels diskData) m5.

(** [loadChat].  The three early [return]s leave before the protected
    messages are put back. *)
Definition loadChat (now : Z) (reads : nat -> File ChatData) (m : t) : t :=
  match chatFile m with
  | Absent =>
      ensureRecentMessagesExist now
        (saveChat now (set_chatData (createEmptyV2Data now) m))
  | _ =>
      match fst (read_with_retry reads) with
      | None =>
          match channels m with
          | [] => set_chatData (createEmptyV2Data now) m
          | _ => m
          end
      | Some rawData =>
          let diskData := match rawData with
                          | V2 d => d
                          | V1 d => migrateV1ToV2 now d
                          end in
          match channels m with
          | [] =>
              let m1 := set_chatData diskData m in
              match rawData with
              | V2 _ => m1
              | V1 _ => saveChat now m1
              end
          | _ => ensureRecentMessagesExist now (merge_on_load now diskData m)
          end
      end
  end.

(** *** Channel operations *)

(** What an [async] operation settles to: the value it returns, or a
    rejection when its body throws. *)
Inductive Outcome (A : Type) : Type :=
| Returns (a : A)
| Throws.
Arguments Returns {A} a.
Arguments Throws {A}.

(** [getChannel]: [channels.find(c => c.id === channelId)] *)
Definition getChannel (cid : jsstring) (m : t) : option Channel.t :=
  find (has_channel_id cid) (channels m).

(** [members.join(', ')] *)
Fixpoint join_comma (l : list jsstring) : jsstring :=
  match l with
  | [] => []
  | [x] => x
  | x :: l' => x ++ 44 :: 32 :: join_comma l'
  end.

(** White space and line terminators, as [trim] sees them. *)
Definition is_space (c : Z) : bool :=
  existsb (Z.eqb c)
    [9; 10; 11; 12; 13; 32; 160; 5760; 8192; 8193; 8194; 8195; 8196; 8197;
     8198; 8199; 8200; 8201; 8202; 8232; 8233; 8239; 8287; 12288; 65279].

Fixpoint trim_start (s : jsstring) : jsstring :=
  match s with
  | c :: s' => if is_space c then trim_start s' else s
  | [] => []
  end.

Definition trim (s : jsstring) : jsstring :=
  rev (trim_start (rev (trim_start s))).

Definition system_message (newId : jsstring) (now : Z) (text : jsstring)
    : ChatMessage.t :=
  ChatMessage.mk newId (js "system") text now None None None None None None
                 None None None.

(** [this.chatData.channelMessages[channelId].push(msg)]: throws when the
    channel has no message list. *)
Definition push_message (cid : jsstring) (msg : ChatMessage.t) (m : t)
    : option t :=
  match Dict.get cid (channelMessages m) with
  | Some l => Some (upd_channelMessages (Dict.set cid (l ++ [msg])) m)
  | None => None
  end.

(** What [addMemberToChannel] does to the channel it found: a direct
    message becomes a group named after its members, and the new member is
    pushed. *)
Definition add_member_to (newMember : jsstring) (c : Channel.t) : Channel.t :=
  let c' := if ChannelType_eqb (Channel.type c) dm
            then Channel.set_name (join_comma (Channel.members c))
                   (Channel.set_type group c)
            else c in
  Channel.set_members (Channel.members c' ++ [newMember]) c'.

(** [addMemberToChannel]: a direct message that gets a further member
    becomes a group.  [newId] is the id generated for the system
    message. *)
Definition addMemberToChannel (now : Z) (newId cid newMember addedBy : jsstring)
    (m : t) : Outcome bool * t :=
  match UserManager.find_index (has_channel_id cid) (channels m) with
  | None => (Returns false, m)
  | Some i =>
      match nth_error (channels m) i with
      | None => (Returns false, m)
      | Some channel =>
          if ChannelType_eqb (Channel.type channel) general then (Returns false, m)
          else if includes (Channel.members channel) newMember then (Returns true, m)
          else
            let m1 :=
              match currentUser m with
              | Some cu =>
                  if str_eqb newMember (VaultUser.vaultName cu)
                  then set_recentlyLeftChannels
                         (Dict.delete cid (recentlyLeftChannels m)) m
                  else m
              | None => m
              end in
            let m2 := upd_channels (update_nth i (add_member_to newMember)) m1 in
            let m3 := trackMemberAdded now cid newMember m2 in
            let text := addedBy ++ js " added " ++ newMember
                        ++ js " to the conversation" in
            match push_message cid (system_message newId now text) m3 with
            | Some m4 => (Returns true, saveChat now m4)
            | None => (Throws, m3)
            end
      end
  end.

(** [deleteChannel] *)
Definition deleteChannel (now : Z) (cid : jsstring) (m : t) : bool * t :=
  if str_eqb cid GENERAL_CHANNEL_ID then (false, m)
  else
    let deletedBy :=
      match currentUser m with
      | Some cu => match VaultUser.vaultName cu with
                   | [] => js "unknown"
                   | n => n
                   end
      | None => js "unknown"
      end in
    let m1 := set_recentlyDeletedChannels
                (Dict.set cid now (recentlyDeletedChannels m)) m in
    let ours := default_tombstones m1 in
    let m2 := set_tombstones
                (if includes (tombstone_ids ours) cid then ours
                 else ours ++ [DeletedChannel.mk cid now deletedBy]) m1 in
    let m3 := remove_channel_data m2 cid in
    let m4 := if str_eqb (activeChannelId m3) cid
              then set_activeChannelId GENERAL_CHANNEL_ID m3 else m3 in
    (true, saveChat now m4).

Inductive LeaveResult : Type := Left | Deleted | NotLeft.

(** [leaveChannel]; the channel that loses its last member is deleted. *)
Definition leaveChannel (now : Z) (newId cid u : jsstring) (m : t)
    : Outcome LeaveResult * t :=
  match UserManager.find_index (has_channel_id cid) (channels m) with
  | None => (Returns NotLeft, m)
  | Some i =>
      match nth_error (channels m) i with
      | None => (Returns NotLeft, m)
      | Some channel =>
          if ChannelType_eqb (Channel.type channel) general
          then (Returns NotLeft, m)
          else
            let remaining :=
              filter (fun x => negb (str_eqb x u)) (Channel.members channel) in
            let m1 := upd_channels
                        (update_nth i (Channel.set_members remaining)) m in
            let m2 := set_recentlyLeftChannels
                        (Dict.set cid now (recentlyLeftChannels m1)) m1 in
            let m3 :=
              match Dict.get cid (recentlyAddedMembers m2) with
              | Some channelAddedMembers =>
                  set_recentlyAddedMembers
                    (Dict.set cid (Dict.delete u channelAddedMembers)
                              (recentlyAddedMembers m2)) m2
              | None => m2
              end in
            let m4 := if str_eqb (activeChannelId m3) cid
                      then set_activeChannelId GENERAL_CHANNEL_ID m3 else m3 in
            match remaining with
            | [] => (Returns Deleted, snd (deleteChannel now cid m4))
            | _ =>
                let text := u ++ js " left the conversation" in
                match push_message cid (system_message newId now text) m4 with
                | Some m5 => (Returns Left, saveChat now m5)
                | None => (Throws, m4)
                end
            end
      end
  end.

(** [renameChannel]: groups only. *)
Definition renameChannel (now : Z) (cid newName : jsstring) (m : t) : bool * t :=
  match UserManager.find_index (has_channel_id cid) (channels m) with
  | None => (false, m)
  | Some i =>
      match nth_error (channels m) i with
      | None => (false, m)
      | Some channel =>
          if negb (ChannelType_eqb (Channel.type channel) group) then (false, m)
          else (true, saveChat now
                        (upd_channels
                           (update_nth i (Channel.set_name (trim newName))) m))
      end
  end.

(** [cleanupStaleChannels]: direct messages left with one member and
    silent for seven days. *)
Definition SEVEN_DAYS_MS : Z := 7 * 24 * 60 * 60 * 1000.

Definition is_stale (now : Z) (m : t) (channel : Channel.t) : bool :=
  negb (str_eqb (Channel.id channel) GENERAL_CHANNEL_ID)
  && ChannelType_eqb (Channel.type channel) dm
  && Nat.eqb (length (Channel.members channel)) 1
  && (let messages := match Dict.get (Channel.id channel) (channelMessages m) with
                      | Some l => l
                      | None => []
                      end in
      let lastActivity := match last (map Some messages) None with
                          | Some lastMessage => ChatMessage.timestamp lastMessage
                          | None => Channel.createdAt channel
                          end in
      SEVEN_DAYS_MS <? now - lastActivity).

Definition cleanupStaleChannels (now : Z) (m : t) : nat * t :=
  let channelsToRemove := map Channel.id (filter (is_stale now m) (channels m)) in
  let m1 := fold_left remove_channel_data channelsToRemove m in
  match channelsToRemove with
  | [] => (O, m1)
  | _ =>
      let m2 := if includes channelsToRemove (activeChannelId m1)
                then set_activeChannelId GENERAL_CHANNEL_ID m1 else m1 in
      (length channelsToRemove, saveChat now m2)
  end.

(** [createGroupChannel] *)
Definition createGroupChannel (now : Z) (newId name : jsstring)
    (members : list jsstring) (createdBy : jsstring) (m : t) : Channel.t * t :=
  let uniqueMembers := dedup members in
  let channel := Channel.mk newId group (trim name) uniqueMembers createdBy now in
  let m1 := upd_readState (Dict.set newId [])
              (upd_channelMessages (Dict.set newId [])
                 (upd_channels (fun l => l ++ [channel]) m)) in
  let m2 := fold_left (fun m' member => trackMemberAdded now newId member m')
                      uniqueMembers m1 in
  (channel, saveChat now m2).

(** [startDM] *)
Definition startDM (now : Z) (newId initiator recipient : jsstring) (m : t)
    : Channel.t * t :=
  match find (fun ch => ChannelType_eqb (Channel.type ch) dm
                        && Nat.eqb (length (Channel.members ch)) 2
                        && includes (Channel.members ch) initiator
                        && includes (Channel.members ch) recipient)
             (channels m) with
  | Some existingDM => (existingDM, m)
  | None =>
      let channel := Channel.mk newId dm [] [initiator; recipient] initiator now in
      let m1 := upd_readState (Dict.set newId [])
                  (upd_channelMessages (Dict.set newId [])
                     (upd_channels (fun l => l ++ [channel]) m)) in
      let m2 := trackMemberAdded now newId recipient
                  (trackMemberAdded now newId initiator m1) in
      (channel, saveChat now m2)
  end.

(** *** Message operations *)

(** [channelId || this.activeChannelId] *)
Definition target_channel (cid : option jsstring) (m : t) : jsstring :=
  match cid with
  | Some (c :: s) => c :: s
  | _ => activeChannelId m
  end.

(** [l.length > 0 ? l : undefined] on an optional array. *)
Definition nonempty_or_none {A : Type} (l : option (list A)) : option (list A) :=
  match l with
  | Some (x :: l') => Some (x :: l')
  | _ => None
  end.

(** [arr.slice(-n)] *)
Definition slice_last {A : Type} (n : nat) (l : list A) : list A :=
  skipn (length l - n) l.

(** [sendMessage].  [newId] is the generated id; [validMentions] and
    [validChannelMentions] are what the mention scanners and the user and
    channel look-ups keep of the text. *)
Definition sendMessage (now : Z) (newId text : jsstring)
    (fileLinks : option (list jsstring)) (images : option (list ChatImage.t))
    (cid replyTo : option jsstring)
    (validMentions validChannelMentions : list jsstring) (m : t)
    : option ChatMessage.t * t :=
  match currentUser m with
  | None => (None, m)
  | Some cu =>
      let targetChannel := target_channel cid m in
      let msgs := match Dict.get targetChannel (channelMessages m) with
                  | Some l => l
                  | None => []
                  end in
      let chatMessage :=
        ChatMessage.mk newId (VaultUser.vaultName cu) (trim text) now
          (nonempty_or_none fileLinks)
          (some_if_nonempty validMentions)
          (some_if_nonempty validChannelMentions)
          (nonempty_or_none images)
          None None None None replyTo in
      let m1 := set_recentlySentMessages
                  (Dict.set newId (mkSent targetChannel chatMessage now)
                            (recentlySentMessages m)) m in
      let pushed := msgs ++ [chatMessage] in
      let kept := if Nat.ltb MAX_MESSAGES_PER_CHANNEL (length pushed)
                  then slice_last MAX_MESSAGES_PER_CHANNEL pushed
                  else pushed in
      let m2 := upd_channelMessages (Dict.set targetChannel kept) m1 in
      (Some chatMessage, saveChat now m2)
  end.

(** [userManager.isCurrentUserAdmin()] *)
Definition isCurrentUserAdmin (m : t) : bool :=
  match currentUser m with
  | Some cu => truthy (VaultUser.isAdmin cu)
  | None => false
  end.

(** The fields [deleteMessage] writes: the reactions are not among them. *)
Definition mark_deleted (msg : ChatMessage.t) : ChatMessage.t :=
  ChatMessage.set_images None
    (ChatMessage.set_content (ChatMessage.editedAt msg) [] None None None
       (ChatMessage.set_deleted (Some true) msg)).

(** [deleteMessage]: soft delete, by the owner or an admin. *)
Definition deleteMessage (now : Z) (messageId : jsstring)
    (cid : option jsstring) (m : t) : bool * t :=
  match currentUser m with
  | None => (false, m)
  | Some cu =>
      let targetChannel := target_channel cid m in
      match Dict.get targetChannel (channelMessages m) with
      | None => (false, m)
      | Some messages =>
          match UserManager.find_index (has_id messageId) messages with
          | None => (false, m)
          | Some i =>
              match nth_error messages i with
              | None => (false, m)
              | Some msg =>
                  let isOwner := str_eqb (ChatMessage.from msg) (VaultUser.vaultName cu) in
                  if negb isOwner && negb (isCurrentUserAdmin m) then (false, m)
                  else
                    (true,
                     saveChat now
                       (upd_channelMessages
                          (Dict.set targetChannel
                             (update_nth i mark_deleted messages)) m))
              end
          end
      end
  end.

(** [trackReactionToggle] *)
Definition trackReactionToggle (now : Z) (messageId e u : jsstring)
    (wasAdded : bool) (m : t) : t :=
  let msgToggles := match Dict.get messageId (recentlyToggledReactions m) with
                    | Some l => l
                    | None => []
                    end in
  set_recentlyToggledReactions
    (Dict.set messageId (toggles_set (mkToggle e u wasAdded now) msgToggles)
              (recentlyToggledReactions m)) m.

(** *** Read state *)

Definition readState (m : t) : Dict.t (Dict.t Z) :=
  ChatDataV2.readState (chatData m).

(** The read state is indexed by channel id, then by user name.  Channel
    ids are [general] or made by [generateId], a time and a random number
    in base 36, and are read with [Dict.get]; user names are chosen at
    registration among [[a-zA-Z0-9_]+] and are read with [Dict.member]. *)

(** The time the read state stores for the user in the channel: the
    property [readState[channelId][username]] when the two objects have
    these properties of their own. *)
Definition read_at (cid u : jsstring) (rs : Dict.t (Dict.t Z)) : option Z :=
  match Dict.get cid rs with
  | Some ch => Dict.get u ch
  | None => None
  end.

(** [markAsRead] *)
Definition markAsRead (now : Z) (cid : option jsstring) (m : t) : t :=
  match currentUser m with
  | None => m
  | Some cu =>
      let targetChannel := target_channel cid m in
      let ours := match Dict.get targetChannel (readState m) with
                  | Some ch => ch
                  | None => []
                  end in
      saveChat now
        (upd_readState
           (Dict.set targetChannel
              (Dict.assign (VaultUser.vaultName cu) now ours))
           m)
  end.

(** [lastRead ? new Date(lastRead).getTime() : 0] for
    [lastRead = readState[channelId]?.[username]]; [None] is the time of an
    inherited member, which is not a number. *)
Definition last_read_time (cid u : jsstring) (m : t) : option Z :=
  match Dict.get cid (readState m) with
  | Some ch =>
      match Dict.member u ch with
      | Dict.Own lastRead => Some lastRead
      | Dict.Inherited => None
      | Dict.Undefined => Some 0
      end
  | None => Some 0
  end.

(** The messages [getUnreadCount] counts: later than the last read, of
    another sender than the user and the system, not deleted.  No time is
    later than one that is not a number. *)
Definition unread_messages (cid u : jsstring) (m : t) : list ChatMessage.t :=
  let messages := match Dict.get cid (channelMessages m) with
                  | Some l => l
                  | None => []
                  end in
  let lastReadTime := last_read_time cid u m in
  filter (fun msg => match lastReadTime with
                     | Some time => time <? ChatMessage.timestamp msg
                     | None => false
                     end
                     && negb (str_eqb (ChatMessage.from msg) u)
                     && negb (str_eqb (ChatMessage.from msg) (js "system"))
                     && negb (truthy (ChatMessage.deleted msg)))
         messages.

(** [getUnreadCount] *)
Definition getUnreadCount (cid u : jsstring) (m : t) : nat :=
  length (unread_messages cid u m).

(** [getChannelsForUser] *)
Definition getChannelsForUser (u : jsstring) (m : t) : list Channel.t :=
  filter (fun channel => ChannelType_eqb (Channel.type channel) general
                         || includes (Channel.members channel) u)
         (channels m).

(** [getTotalUnreadCount] *)
Definition getTotalUnreadCount (u : jsstring) (m : t) : nat :=
  fold_left (fun total channel =>
               (total + getUnreadCount (Channel.id channel) u m)%nat)
            (getChannelsForUser u m) O.

(** *** Muted channels *)

Definition mutedChannels (m : t) : option (Dict.t (list jsstring)) :=
  ChatDataV2.mutedChannels (chatData m).

(** The list the mutes store for the user: the property
    [mutedChannels[username]] when the object has it of its own, no channel
    otherwise. *)
Definition muted_of (u : jsstring) (muted : option (Dict.t (list jsstring)))
    : list jsstring :=
  match muted with
  | Some d => match Dict.get u d with
              | Some l => l
              | None => []
              end
  | None => []
  end.

(** [isChannelMuted].  [mutedChannels?.[username] || []] is an inherited
    member for a user named as one and without a list: it has no
    [includes], and the call throws. *)
Definition isChannelMuted (cid : jsstring) (m : t) : Outcome bool :=
  match currentUser m with
  | None => Returns false
  | Some cu =>
      match ChatDataV2.mutedChannels (chatData m) with
      | None => Returns false
      | Some muted =>
          match Dict.member (VaultUser.vaultName cu) muted with
          | Dict.Own mutedChannels => Returns (includes mutedChannels cid)
          | Dict.Undefined => Returns false
          | Dict.Inherited => Throws
          end
      end
  end.

(** [l.splice(l.indexOf(x), 1)] for an [x] that is in [l]: the first
    occurrence goes. *)
Fixpoint remove_first (x : jsstring) (l : list jsstring) : list jsstring :=
  match l with
  | [] => []
  | y :: l' => if str_eqb y x then l' else y :: remove_first x l'
  end.

(** [toggleChannelMute]: the answer is what [isChannelMuted] says after the
    save.  For a user named as an inherited member and without a list, no
    list is created, [mutedList.indexOf] is no function and the call
    throws, before the save. *)
Definition toggleChannelMute (now : Z) (cid : jsstring) (m : t)
    : Outcome bool * t :=
  match currentUser m with
  | None => (Returns false, m)
  | Some cu =>
      let muted := match ChatDataV2.mutedChannels (chatData m) with
                   | Some d => d
                   | None => []
                   end in
      let toggle (mutedList : list jsstring) :=
        let mutedList' := if includes mutedList cid
                          then remove_first cid mutedList
                          else mutedList ++ [cid] in
        let m1 := set_chatData
                    (ChatDataV2.set_mutedChannels
                       (Some (Dict.set (VaultUser.vaultName cu) mutedList' muted))
                       (chatData m)) m in
        let m2 := saveChat now m1 in
        (isChannelMuted cid m2, m2) in
      match Dict.member (VaultUser.vaultName cu) muted with
      | Dict.Own mutedList => toggle mutedList
      | Dict.Undefined => toggle []
      | Dict.Inherited =>
          (Throws,
           set_chatData
             (ChatDataV2.set_mutedChannels (Some muted) (chatData m)) m)
      end
  end.

(** *** Dismissing a system message *)


(** *** Scanners of the message text *)

(** [\w] of a regular expression without the unicode flag: [A-Za-z0-9_]. *)
Definition is_word (c : Z) : bool :=
  ((48 <=? c) && (c <=? 57)) || ((65 <=? c) && (c <=? 90)) || (c =? 95)
  || ((97 <=? c) && (c <=? 122)).

(** [[\w-]] *)
Definition is_channel_char (c : Z) : bool := is_word c || (c =? 45).

Definition AT : Z := 64.
Definition HASH : Z := 35.
Definition OPEN : Z := 91.
Definition CLOSE : Z := 93.

(** The longest prefix a greedy [c+] takes. *)
Fixpoint take_while (p : Z -> bool) (s : jsstring) : jsstring :=
  match s with
  | c :: s' => if p c then c :: take_while p s' else []
  | [] => []
  end.

(** [while ((match = regex.exec(message)) !== null) out.push(match[1])] for
    a global regular expression that matches no empty string.  [match_at s]
    is the match that starts at the head of [s]: its capture and its length.
    The search goes on at the end of a match ([lastIndex]), and one code
    unit further where nothing matches; [skip] is what is left to pass of
    the last match. *)
Fixpoint exec_all (match_at : jsstring -> option (jsstring * nat))
    (s : jsstring) (skip : nat) : list jsstring :=
  match s with
  | [] => []
  | _ :: s' =>
      match skip with
      | S k => exec_all match_at s' k
      | O =>
          match match_at s with
          | Some (capture, n) => capture :: exec_all match_at s' (n - 1)
          | None => exec_all match_at s' 0
          end
      end
  end.

(** [/@(?!#)(\w+)/]: an at sign that no hash follows, then the longest run
    of word characters, which is not empty. *)
Definition mention_at (s : jsstring) : option (jsstring * nat) :=
  match s with
  | c :: s' =>
      if c =? AT then
        match s' with
        | h :: _ =>
            if h =? HASH then None
            else match take_while is_word s' with
                 | [] => None
                 | w => Some (w, S (length w))
                 end
        | [] => None
        end
      else None
  | [] => None
  end.

(** What follows is no character of the run: the run ends there. *)
Definition stops (p : Z -> bool) (s : jsstring) : bool :=
  match s with
  | c :: _ => negb (p c)
  | [] => true
  end.

(** [extractMentions] *)
Definition extractMentions (text : jsstring) : list jsstring :=
  exec_all mention_at text 0.

(** [/@#([\w-]+)/] *)
Definition channel_mention_at (s : jsstring) : option (jsstring * nat) :=
  match s with
  | c :: h :: s' =>
      if (c =? AT) && (h =? HASH) then
        match take_while is_channel_char s' with
        | [] => None
        | w => Some (w, S (S (length w)))
        end
      else None
  | _ => None
  end.

(** [extractChannelMentions] *)
Definition extractChannelMentions (text : jsstring) : list jsstring :=
  exec_all channel_mention_at text 0.

(** [/\[\[([^\]]+)\]\]/]: two opening brackets, the longest run without a
    closing bracket, which is not empty, and two closing brackets.  A
    shorter run is followed by a character of the run, never by a closing
    bracket: backtracking finds no other match. *)
Definition file_link_at (s : jsstring) : option (jsstring * nat) :=
  match s with
  | c :: h :: s' =>
      if (c =? OPEN) && (h =? OPEN) then
        match take_while (fun x => negb (x =? CLOSE)) s' with
        | [] => None
        | name =>
            match skipn (length name) s' with
            | a :: b :: _ =>
                if (a =? CLOSE) && (b =? CLOSE)
                then Some (name, (4 + length name)%nat)
                else None
            | _ => None
            end
        end
      else None
  | _ => None
  end.

(** [extractFileLinks] *)
Definition extractFileLinks (text : jsstring) : list jsstring :=
  exec_all file_link_at text 0.

End WithHost.

Arguments Returns {A} a.
Arguments Throws {A}.

End ChatManager.

(** ** The operations of the chat manager, as one type *)

Module Ops.
Import ChatManager.

Section WithHost.
Variable stringify : ChatDataV2.t -> jsstring.

(** A call of a public operation with its arguments, the clock value it
    reads and the id it generates. *)
Inductive Op : Type :=
| AddMember (now : Z) (newId cid newMember addedBy : jsstring)
| Leave (now : Z) (newId cid u : jsstring)
| Rename (now : Z) (cid newName : jsstring)
| Cleanup (now : Z)
| DeleteChannel (now : Z) (cid : jsstring)
| CreateGroup (now : Z) (newId name : jsstring) (members : list jsstring)
    (createdBy : jsstring)
| StartDM (now : Z) (newId initiator recipient : jsstring)
| Send (now : Z) (newId text : jsstring) (fileLinks : option (list jsstring))
    (images : option (list ChatImage.t)) (cid replyTo : option jsstring)
    (validMentions validChannelMentions : list jsstring)
| DeleteMessage (now : Z) (messageId : jsstring) (cid : option jsstring)
| Load (now : Z) (reads : nat -> File ChatData)
| Save (now : Z).

(** The manager after the call. *)
Definition run (op : Op) (m : t) : t :=
  match op with
  | AddMember now newId cid newMember addedBy =>
      snd (addMemberToChannel stringify now newId cid newMember addedBy m)
  | Leave now newId cid u => snd (leaveChannel stringify now newId cid u m)
  | Rename now cid newName => snd (renameChannel stringify now cid newName m)
  | Cleanup now => snd (cleanupStaleChannels stringify now m)
  | DeleteChannel now cid => snd (deleteChannel stringify now cid m)
  | CreateGroup now newId name members createdBy =>
      snd (createGroupChannel stringify now newId name members createdBy m)
  | StartDM now newId initiator recipient =>
      snd (startDM stringify now newId initiator recipient m)
  | Send now newId text fileLinks images cid replyTo vm vcm =>
      snd (sendMessage stringify now newId text fileLinks images cid replyTo
             vm vcm m)
  | DeleteMessage now messageId cid =>
      snd (deleteMessage stringify now messageId cid m)
  | Load now reads => loadChat stringify now reads m
  | Save now => saveChat stringify now m
  end.

(** The managers a sequence of calls goes through, the last one last. *)
Fixpoint trace (ops : list Op) (m : t) : list t :=
  match ops with
  | [] => []
  | op :: ops' => run op m :: trace ops' (run op m)
  end.

End WithHost.

(** How a channel list evolves when channels are updated in place and new
    ones are pushed: each old channel keeps its position and its id, does
    not become a direct message unless it was one, and the pushed channels
    have ids in [D]. *)
Definition step_ok (a b : Channel.t) : Prop :=
  Channel.id a = Channel.id b
  /\ (Channel.type a <> dm -> Channel.type b <> dm).

Inductive grows (D : jsstring -> Prop) : list Channel.t -> list Channel.t -> Prop :=
| grows_pushed (extra : list Channel.t) :
    Forall (fun c => D (Channel.id c)) extra -> grows D [] extra
| grows_kept (a b : Channel.t) (l0 l : list Channel.t) :
    step_ok a b -> grows D l0 l -> grows D (a :: l0) (b :: l).

(** No channel found under an id that was not a direct message is found as
    one afterwards. *)
Definition no_demotion (l l' : list Channel.t) : Prop :=
  forall cid ch ch',
    find (has_channel_id cid) l = Some ch ->
    Channel.type ch <> dm ->
    find (has_channel_id cid) l' = Some ch' ->
    Channel.type ch' <> dm.

(** The ledgers say that user [u], the current user, left channel [cid]
    within the protection window before [now], and do not hold [u] as a
    recently added member of it. *)
Definition left_protected (now : Z) (cid u : jsstring) (m : t) : Prop :=
  (exists cu, currentUser m = Some cu /\ VaultUser.vaultName cu = u)
  /\ (exists leftTime,
        Dict.get cid (recentlyLeftChannels m) = Some leftTime
        /\ leftTime <> 0
        /\ now - leftTime <= LEAVE_PROTECTION_DURATION)
  /\ (forall channelMembers,
        Dict.get cid (recentlyAddedMembers m) = Some channelMembers ->
        ~ In u (Dict.keys channelMembers)).

(** The member list the manager holds for [cid], if any, is without [u]. *)
Definition not_member (cid u : jsstring) (m : t) : Prop :=
  forall ch, getChannel cid m = Some ch -> ~ In u (Channel.members ch).

(** The part of the manager the protection of a leave reads. *)
Definition ledgers (m : t)
    : option VaultUser.t * Dict.t Z * Dict.t (Dict.t Z) :=
  (currentUser m, recentlyLeftChannels m, recentlyAddedMembers m).

Definition anything (_ : jsstring) : Prop := True.

(** What the loop of the channel merge maintains. *)
Definition merge_invariant (now : Z) (cid u : jsstring)
    (ours0 : list Channel.t) (m : t) : Prop :=
  left_protected now cid u m
  /\ not_member cid u m
  /\ grows anything ours0 (channels m).

(** *** Reactions as pairs *)

(** The (emoji, user) pairs of a [reactions] field. *)
Definition pairs_of (rs : option (list ChatReaction.t))
    : list (jsstring * jsstring) :=
  match rs with
  | Some l => flat_map (fun r => map (pair (ChatReaction.emoji r))
                                     (ChatReaction.users r)) l
  | None => []
  end.

(** The toggles recorded for a message. *)
Definition toggles_of (messageId : jsstring) (ledger : Dict.t (list Toggle))
    : list Toggle :=
  match Dict.get messageId ledger with
  | Some l => l
  | None => []
  end.

(** A toggle still within the protection window at [now]. *)
Definition fresh (now : Z) (tg : Toggle) : bool :=
  negb (REACTION_TOGGLE_PROTECTION_DURATION <? now - toggledAt tg).

(** The pair (e, u) was toggled off here within the window: the toggle
    recorded under [`${e}|${u}`] is a removal. *)
Definition toggled_off (now : Z) (toggles : list Toggle) (e u : jsstring) : Prop :=
  exists tg, In tg toggles
             /\ key_of tg = toggleKey e u
             /\ fresh now tg = true
             /\ added tg = false.

(** A toggle within the window is an addition, and its key reads back as
    the pair (e, u). *)
Definition toggled_on (now : Z) (toggles : list Toggle) (e u : jsstring) : Prop :=
  exists tg, In tg toggles
             /\ fresh now tg = true
             /\ added tg = true
             /\ decode_key (key_of tg) = (e, u).

(** The two cases in which the merge leaves the message without reactions:
    the disk copy has no [reactions] field while ours has reactions, and is
    deleted or carries the later edit; or the disk copy is deleted and ours
    is not. *)
Definition reactions_discarded (ourMsg diskMsg : ChatMessage.t) : bool :=
  trust_disk ourMsg diskMsg
  || (truthy (ChatMessage.deleted diskMsg)
      && negb (truthy (ChatMessage.deleted ourMsg))).

(** The pair (e, u) is in the emoji map. *)
Definition has_pair (em : EmojiMap) (e u : jsstring) : Prop :=
  exists us, Dict.get e em = Some us /\ In u us.

(** The toggles a ledger holds for a message are those of [toggles0], but
    for expired ones that lookups have dropped. *)
Definition ledger_ok (now : Z) (messageId : jsstring) (toggles0 : list Toggle)
    (ledger : Dict.t (list Toggle)) : Prop :=
  NoDup (map key_of (toggles_of messageId ledger))
  /\ filter (fresh now) (toggles_of messageId ledger)
     = filter (fresh now) toggles0.

(** The ledger says that [u] was added to channel [cid] within the
    protection window before [now]. *)
Definition add_protected (now : Z) (cid u : jsstring) (m : t) : Prop :=
  exists channelMembers addedTime,
    Dict.get cid (recentlyAddedMembers m) = Some channelMembers
    /\ Dict.get u channelMembers = Some addedTime
    /\ now - addedTime <= ADD_MEMBER_PROTECTION_DURATION.

(** The member list the manager holds for [cid], if any, has [u]. *)
Definition is_member (cid u : jsstring) (m : t) : Prop :=
  forall ch, getChannel cid m = Some ch -> In u (Channel.members ch).

(** What the loop of the channel merge maintains for an added member. *)
Definition add_invariant (now : Z) (cid u : jsstring)
    (ours0 : list Channel.t) (m : t) : Prop :=
  add_protected now cid u m
  /\ is_member cid u m
  /\ grows anything ours0 (channels m).



(** Neither the cache nor the tombstones of the manager say that channel
    [cid] was deleted. *)
Definition no_tombstone (cid : jsstring) (m : t) : Prop :=
  Dict.get cid (recentlyDeletedChannels m) = None
  /\ ~ In cid (tombstone_ids (default_tombstones m)).

(** [diskData.deletedChannels || []] *)
Definition disk_tombstones (diskData : ChatDataV2.t) : list DeletedChannel.t :=
  match ChatDataV2.deletedChannels diskData with
  | Some l => l
  | None => []
  end.



(** A channel is found under [cid] in [l'] when one is found in [l]. *)
Definition stays (cid : jsstring) (l l' : list Channel.t) : Prop :=
  find (has_channel_id cid) l <> None -> find (has_channel_id cid) l' <> None.

(** *** Messages held *)

(** The manager holds a message with id [i] in the list of channel [cid]. *)
Definition holds_id (cid i : jsstring) (m : t) : Prop :=
  exists l, Dict.get cid (channelMessages m) = Some l
            /\ existsb (has_id i) l = true.

(** The document [chat.json] holds has a message with id [i] in the list
    of channel [cid]. *)
Definition file_holds_id (cid i : jsstring) (m : t) : Prop :=
  exists d l, chatFile m = Content (V2 d)
              /\ Dict.get cid (ChatDataV2.channelMessages d) = Some l
              /\ existsb (has_id i) l = true.

(** The objects of the list [ours0] are in [ours] where they were, each
    with the id it had. *)
Definition same_ids (ours0 ours : list ChatMessage.t) : Prop :=
  forall j a, nth_error ours0 j = Some a ->
    exists b, nth_error ours j = Some b
              /\ ChatMessage.id b = ChatMessage.id a.

(** The part of the manager that the merge of the channel list leaves
    alone. *)
Definition message_side (m : t)
    : Dict.t (list ChatMessage.t) * Dict.t SentEntry * Dict.t Z :=
  (channelMessages m, recentlySentMessages m, recentlyDismissedMessages m).

(** The message was dismissed here within the protection window. *)
Definition dismissed_recently (now : Z) (msgId : jsstring) (ledger : Dict.t Z)
    : Prop :=
  exists t, Dict.get msgId ledger = Some t
            /\ t <> 0
            /\ now - t <= DISMISS_PROTECTION_DURATION.

(** No channel holds a message with this id. *)
Definition nowhere (msgId : jsstring) (messages : Dict.t (list ChatMessage.t))
    : Prop :=
  forall c l, Dict.get c messages = Some l -> existsb (has_id msgId) l = false.

(** No message recorded as sent has this id. *)
Definition not_sent (msgId : jsstring) (ledger : Dict.t SentEntry) : Prop :=
  forall k entry, In (k, entry) ledger ->
                  ChatMessage.id (message entry) <> msgId.

(** A message recorded as sent under its id, within the protection window
    at [now]. *)
Definition protected_message (now : Z) (msgId : jsstring) (entry : SentEntry)
    (m : t) : Prop :=
  In (msgId, entry) (recentlySentMessages m)
  /\ ChatMessage.id (message entry) = msgId
  /\ now - timestamp entry <= MESSAGE_PROTECTION_DURATION.

End Ops.

(** ** Sample data

    Concrete users, documents and managers on which the statements below are
    run. *)

Module Samples.
Import ChatManager.

(** A serializer to run the checksum on: any function of the document
    does. *)
Definition sample_stringify (d : ChatDataV2.t) : jsstring :=
  flat_map (fun c => Channel.id c ++ Channel.name c) (ChatDataV2.channels d).

Definition sample_doc : ChatDataV2.t :=
  Eval cbv in createEmptyV2Data 1700000000000.

(** Users. *)
Definition user (name : jsstring) (registered : Z) (number : option Z)
    (admin : option bool) (level : option AdminLevel) : VaultUser.t :=
  VaultUser.mk name (name ++ js "@laptop") (js "linux") registered number None
               admin level.

Definition alice : VaultUser.t :=
  Eval cbv in user (js "alice") 1000 (Some 1) (Some true) (Some primary).
Definition bob : VaultUser.t :=
  Eval cbv in user (js "bob") 2000 (Some 2) (Some false) None.
Definition carol : VaultUser.t :=
  Eval cbv in user (js "carol") 3000 (Some 3) (Some false) None.
Definition dave : VaultUser.t :=
  Eval cbv in user (js "dave") 4000 (Some 4) (Some true) (Some secondary).

(** A process that starts on a users file holding bob (number 2) and carol
    (number 3): nobody is numbered 1 and nobody is primary admin. *)
Definition orphaned_users : UserManager.t :=
  UserManager.mk None [] [] (Content [bob; carol]) Absent.


(** Messages. *)
Definition text_message (i from text : jsstring) (time : Z) : ChatMessage.t :=
  ChatMessage.mk i from text time None None None None None None None None None.

Definition thumbs_up : jsstring := [55357; 56397].

Definition hello : ChatMessage.t :=
  Eval cbv in text_message (js "m1") (js "alice") (js "hello") 1000.

(** The same message after its author edited it on another machine, with a
    reaction of carol. *)
Definition hello_edited : ChatMessage.t :=
  Eval cbv in
    ChatMessage.mk (js "m1") (js "alice") (js "hello, edited") 1000 None None
      None None (Some [ChatReaction.mk thumbs_up [js "carol"]]) (Some true)
      (Some 2000) None None.

Definition general_channel : Channel.t :=
  Eval cbv in Channel.mk GENERAL_CHANNEL_ID general (js "General") []
                (js "system") 0.

Definition doc_with (msgs : list ChatMessage.t) : ChatDataV2.t :=
  ChatDataV2.mk [general_channel] [(GENERAL_CHANNEL_ID, msgs)]
    [(GENERAL_CHANNEL_ID, [])] None (Some []) None.

Definition manager (who : VaultUser.t) (memory disk : ChatDataV2.t) : t :=
  mk memory GENERAL_CHANNEL_ID [] [] [] [] [] [] (Some who) (Content (V2 disk)).

(** Dave, an admin, still holds alice's message as she sent it; the file
    already has the copy she edited since. *)
Definition before_delete : t :=
  manager dave (doc_with [hello]) (doc_with [hello_edited]).

(** Two hundred messages, in memory and on disk alike. *)
Definition numbered (n : nat) : ChatMessage.t :=
  text_message (js "m" ++ toString16 (Z.of_nat n)) (js "alice") (js "hi")
               (Z.of_nat n).

Definition full_channel : list ChatMessage.t :=
  Eval vm_compute in map numbered (seq 1 200).

Definition at_the_cap : t :=
  manager alice (doc_with full_channel) (doc_with full_channel).

(** A direct message between alice and bob. *)
Definition dm_alice_bob : Channel.t :=
  Eval cbv in Channel.mk (js "dm1") dm [] [js "alice"; js "bob"] (js "alice") 500.

Definition with_dm : t :=
  Eval cbv in
    let doc := ChatDataV2.mk [general_channel; dm_alice_bob]
                 [(GENERAL_CHANNEL_ID, []); (js "dm1", [])]
                 [(GENERAL_CHANNEL_ID, []); (js "dm1", [])] None (Some []) None in
    manager alice doc doc.

(** A group of alice, bob and carol that alice is about to leave, and the
    file as it was before: it lists her as a member. *)
Definition team : Channel.t :=
  Eval cbv in Channel.mk (js "team") group (js "Team")
                [js "alice"; js "bob"; js "carol"] (js "bob") 600.

Definition team_doc : ChatDataV2.t :=
  Eval cbv in
    ChatDataV2.mk [general_channel; team]
      [(GENERAL_CHANNEL_ID, []); (js "team", [])]
      [(GENERAL_CHANNEL_ID, []); (js "team", [])] None (Some []) None.

Definition in_team : t := Eval cbv in manager alice team_doc team_doc.

(** The team as the merge leaves it when alice left 200 seconds before. *)
Definition team_without_alice : Channel.t :=
  Eval cbv in Channel.set_members [js "bob"; js "carol"] team.

(** Reactions.  Alice removed her thumbs-up from a message 40 seconds ago;
    the file still has it, next to bob's and to a heart of carol. *)
Definition heart : jsstring := [10084; 65039].

Definition reacted (rs : option (list ChatReaction.t)) : ChatMessage.t :=
  ChatMessage.set_reactions rs hello.

Definition ours_after_removal : ChatMessage.t :=
  Eval cbv in reacted (Some [ChatReaction.mk thumbs_up [js "bob"]]).

Definition disk_before_removal : ChatMessage.t :=
  Eval cbv in
    reacted (Some [ChatReaction.mk thumbs_up [js "alice"; js "bob"];
                   ChatReaction.mk heart [js "carol"]]).

Definition removal_ledger : Dict.t (list Toggle) :=
  Eval cbv in
    recentlyToggledReactions
      (trackReactionToggle 960000 (js "m1") thumbs_up (js "alice") false
         (manager alice sample_doc sample_doc)).

(** Alice added a thumbs-up 40 seconds ago to a message edited at 1000;
    the file has the message as its author edited it again at 1500, without
    a [reactions] field. *)
Definition ours_after_addition : ChatMessage.t :=
  Eval cbv in
    ChatMessage.mk (js "m1") (js "bob") (js "hello") 500 None None None None
      (Some [ChatReaction.mk thumbs_up [js "alice"]]) (Some true) (Some 1000)
      None None.

Definition disk_edited_later : ChatMessage.t :=
  Eval cbv in
    ChatMessage.mk (js "m1") (js "bob") (js "hello there") 500 None None None
      None None (Some true) (Some 1500) None None.

Definition addition_ledger : Dict.t (list Toggle) :=
  Eval cbv in
    recentlyToggledReactions
      (trackReactionToggle 960000 (js "m1") thumbs_up (js "alice") true
         (manager alice sample_doc sample_doc)).

(** Alice has just sent a message; the machine of bob wrote the file
    before it got there. *)
Definition sent_message : ChatMessage.t :=
  Eval cbv in
    ChatMessage.mk (js "new") (js "alice") (js "one more") 5000 None None None
      None None None None None None.

Definition sent_entry : SentEntry :=
  Eval cbv in mkSent GENERAL_CHANNEL_ID sent_message 5000.

Definition after_send : t :=
  mk (doc_with [hello; sent_message]) GENERAL_CHANNEL_ID
     [(js "new", sent_entry)] [] [] [] [] [] (Some alice)
     (Content (V2 (doc_with [hello]))).

Definition stale_reads (n : nat) : File ChatData :=
  Content (V2 (doc_with [hello])).




(** A system message that alice dismisses 50 seconds before the next load;
    the file still lists it. *)
Definition system_note : ChatMessage.t :=
  Eval cbv in
    text_message (js "s1") (js "system") (js "bob added carol to the conversation")
                 2000.


Definition after_dismiss : t :=
  mk (doc_with [hello]) GENERAL_CHANNEL_ID [] [(js "s1", 950000)] [] [] [] []
     (Some alice) (Content (V2 (doc_with [hello; system_note]))).

Definition reads_with_note (n : nat) : File ChatData :=
  Content (V2 (doc_with [hello; system_note])).

(** Alice, bob and carol are registered, in memory and in the file; alice
    runs this process. *)
Definition three_users : UserManager.t :=
  UserManager.mk (Some alice) [alice; bob; carol] [] (Content [alice; bob; carol])
                 Absent.

(** Bob's process, with bob's own lock written 3 seconds before. *)
Definition fresh_foreign_lock : UserManager.t :=
  UserManager.mk None [] [] (Content [])
    (Content (UserManager.mkLock (Some (js "bob@laptop")) (Some 5000))).

(** Nobody else touches the lock file. *)
Definition nobody (f : File UserManager.LockData) : File UserManager.LockData := f.

(** Lower case of the letters of ASCII. *)
Definition ascii_lower (s : jsstring) : jsstring :=
  map (fun c => if (65 <=? c) && (c <=? 90) then c + 32 else c) s.

(** Alice has just added dave to the team; the file another machine wrote
    does not list him yet. *)
Definition with_dave : t :=
  Eval vm_compute in
    snd (addMemberToChannel sample_stringify 7000000 (js "sys3") (js "team")
           (js "dave") (js "alice") in_team).

(** A message arrives in the team, which dave is not a member of. *)
Definition team_has_news : t :=
  Eval cbv in upd_channelMessages (Dict.set (js "team") [sent_message]) in_team.

(** Alice left the team 200 seconds ago; her manager holds General only,
    and the file another machine wrote lists the team with her in it. *)
Definition left_elsewhere : t :=
  mk (doc_with []) GENERAL_CHANNEL_ID [] [] [] [(js "team", 7000000)] [] []
     (Some alice) (Content (V2 team_doc)).

Definition reads_team (n : nat) : File ChatData := Content (V2 team_doc).

End Samples.

(** * Properties *)

(** ** Facts about the host model *)

Module JSFacts.

Lemma str_eqb_spec (a b : jsstring) : reflect (a = b) (str_eqb a b).
Proof.
  revert b; induction a as [|x a IH]; intros [|y b]; simpl;
    try (constructor; congruence).
  destruct (Z.eqb_spec x y) as [->|Hxy]; simpl.
  - destruct (IH b) as [->|Hab]; constructor; congruence.
  - constructor; congruence.
Qed.

Lemma str_eqb_refl (a : jsstring) : str_eqb a a = true.
Proof. destruct (str_eqb_spec a a); congruence. Qed.

Lemma str_eqb_eq (a b : jsstring) : str_eqb a b = true <-> a = b.
Proof. destruct (str_eqb_spec a b); split; congruence. Qed.

Lemma str_eqb_neq (a b : jsstring) : str_eqb a b = false <-> a <> b.
Proof. destruct (str_eqb_spec a b); split; congruence. Qed.

Lemma str_eqb_sym (a b : jsstring) : str_eqb a b = str_eqb b a.
Proof.
  destruct (str_eqb_spec a b) as [->|H].
  - symmetry; apply str_eqb_refl.
  - symmetry; apply str_eqb_neq; congruence.
Qed.

Lemma includes_In (l : list jsstring) (x : jsstring) :
  includes l x = true <-> In x l.
Proof.
  unfold includes. rewrite existsb_exists. split.
  - intros [y [Hy He]]. apply str_eqb_eq in He. now subst.
  - intros H. exists x. split; [assumption | apply str_eqb_refl].
Qed.

Lemma includes_not_In (l : list jsstring) (x : jsstring) :
  includes l x = false <-> ~ In x l.
Proof.
  rewrite <- includes_In. destruct (includes l x); split; congruence.
Qed.

Lemma to_uint32_range (z : Z) : 0 <= to_uint32 z < 2 ^ 32.
Proof. unfold to_uint32. apply Z.mod_pos_bound. lia. Qed.

Lemma hex_digit_range (d : Z) :
  0 <= d < 16 ->
  48 <= hex_digit d <= 57 \/ 97 <= hex_digit d <= 102.
Proof.
  intros Hd. unfold hex_digit. destruct (Z.ltb_spec d 10); lia.
Qed.

Lemma hex_digits_grow (fuel : nat) : forall n acc,
  (length acc <= length (hex_digits fuel n acc))%nat.
Proof.
  induction fuel as [|fuel IH]; intros n acc; simpl; [lia|].
  destruct (n =? 0); [lia|].
  specialize (IH (n / 16) (hex_digit (n mod 16) :: acc)). simpl in IH. lia.
Qed.

Lemma hex_digits_length (fuel : nat) : forall n acc (k : nat),
  0 <= n < 16 ^ Z.of_nat k ->
  (length (hex_digits fuel n acc) <= k + length acc)%nat.
Proof.
  induction fuel as [|fuel IH]; intros n acc k Hn; simpl; [lia|].
  destruct (Z.eqb_spec n 0) as [|Hn0]; [lia|].
  destruct k as [|k].
  - simpl in Hn. lia.
  - assert (Hk : 0 <= n / 16 < 16 ^ Z.of_nat k).
    { split; [apply Z.div_pos; lia|].
      apply Z.div_lt_upper_bound; [lia|].
      replace (Z.of_nat (S k)) with (Z.of_nat k + 1) in Hn by lia.
      rewrite Z.pow_add_r in Hn by lia. lia. }
    specialize (IH (n / 16) (hex_digit (n mod 16) :: acc) k Hk).
    simpl in IH. lia.
Qed.

Lemma hex_digits_hex (fuel : nat) : forall n acc,
  0 <= n -> Forall is_hex acc -> Forall is_hex (hex_digits fuel n acc).
Proof.
  induction fuel as [|fuel IH]; intros n acc Hn Hacc; simpl; [assumption|].
  destruct (n =? 0); [assumption|].
  apply IH.
  - apply Z.div_pos; lia.
  - constructor; [|assumption].
    apply hex_digit_range. apply Z.mod_pos_bound. lia.
Qed.

Lemma toString16_length (n : Z) :
  0 <= n < 2 ^ 32 -> (1 <= length (toString16 n) <= 8)%nat.
Proof.
  intros Hn. unfold toString16.
  destruct (Z.leb_spec n 0) as [|Hpos]; [simpl; lia|].
  split.
  - simpl. destruct (Z.eqb_spec n 0); [lia|].
    pose proof (hex_digits_grow (Z.to_nat (Z.log2 n)) (n / 16)
                  [hex_digit (n mod 16)]) as H.
    simpl in H. lia.
  - pose proof (hex_digits_length (S (Z.to_nat (Z.log2 n))) n [] 8) as H.
    simpl length in H. rewrite Nat.add_0_r in H. apply H.
    change (16 ^ Z.of_nat 8) with (2 ^ 32). lia.
Qed.

Lemma toString16_hex (n : Z) : 0 <= n -> Forall is_hex (toString16 n).
Proof.
  intros Hn. unfold toString16.
  destruct (n <=? 0).
  - constructor; [left; lia | constructor].
  - apply hex_digits_hex; [assumption | constructor].
Qed.

Lemma hex_digit_value_digit (d : Z) :
  0 <= d < 16 -> hex_digit_value (hex_digit d) = d.
Proof.
  intros Hd. unfold hex_digit_value, hex_digit.
  destruct (Z.ltb_spec d 10).
  - destruct (Z.ltb_spec (48 + d) 58); lia.
  - destruct (Z.ltb_spec (87 + d) 58); lia.
Qed.

Lemma hex_digit_nonzero (d : Z) : 1 <= d < 16 -> hex_digit d <> 48.
Proof. intros Hd. unfold hex_digit. destruct (d <? 10); lia. Qed.

(** The digits written in front of [acc] denote [n]. *)
Lemma hex_digits_value (fuel : nat) : forall n acc,
  0 <= n < 16 ^ Z.of_nat fuel ->
  fold_left (fun value c => 16 * value + hex_digit_value c)
    (hex_digits fuel n acc) 0
  = fold_left (fun value c => 16 * value + hex_digit_value c) acc n.
Proof.
  induction fuel as [|fuel IH]; intros n acc Hn.
  - simpl in *. replace n with 0 by lia. reflexivity.
  - cbn [hex_digits]. destruct (Z.eqb_spec n 0) as [->|Hn0]; [reflexivity|].
    assert (Hk : 0 <= n / 16 < 16 ^ Z.of_nat fuel).
    { split; [apply Z.div_pos; lia|].
      apply Z.div_lt_upper_bound; [lia|].
      replace (Z.of_nat (S fuel)) with (Z.of_nat fuel + 1) in Hn by lia.
      rewrite Z.pow_add_r in Hn by lia. lia. }
    rewrite (IH _ _ Hk). cbn [fold_left].
    rewrite hex_digit_value_digit by (apply Z.mod_pos_bound; lia).
    f_equal. pose proof (Z.div_mod n 16). lia.
Qed.

(** The first digit written is not [0]. *)
Lemma hex_digits_leading (fuel : nat) : forall n acc,
  0 < n < 16 ^ Z.of_nat fuel ->
  exists c rest, hex_digits fuel n acc = c :: rest /\ c <> 48.
Proof.
  induction fuel as [|fuel IH]; intros n acc Hn.
  - simpl in Hn. lia.
  - cbn [hex_digits]. destruct (Z.eqb_spec n 0) as [|Hn0]; [lia|].
    destruct (Z.eq_dec (n / 16) 0) as [Hq|Hq].
    + rewrite Hq.
      assert (Hnil : forall a, hex_digits fuel 0 a = a)
        by (intros a; destruct fuel; reflexivity).
      rewrite Hnil. eexists. eexists. split; [reflexivity|].
      apply hex_digit_nonzero.
      pose proof (Z.div_mod n 16). pose proof (Z.mod_pos_bound n 16). lia.
    + apply IH. split.
      * pose proof (Z.div_pos n 16). lia.
      * apply Z.div_lt_upper_bound; [lia|].
        replace (Z.of_nat (S fuel)) with (Z.of_nat fuel + 1) in Hn by lia.
        rewrite Z.pow_add_r in Hn by lia. lia.
Qed.

(** The digits of [toString16] are enough for its argument. *)
Lemma toString16_fuel (n : Z) :
  0 < n -> n < 16 ^ Z.of_nat (S (Z.to_nat (Z.log2 n))).
Proof.
  intros Hn. pose proof (Z.log2_nonneg n) as Hl.
  destruct (Z.log2_spec n Hn) as [_ Hup].
  rewrite Nat2Z.inj_succ, Z2Nat.id by assumption.
  apply Z.lt_le_trans with (2 ^ Z.succ (Z.log2 n)); [assumption|].
  apply Z.pow_le_mono_l. lia.
Qed.

Lemma toString16_value (n : Z) : 0 <= n -> hex_numeral_value (toString16 n) = n.
Proof.
  intros Hn. unfold toString16, hex_numeral_value.
  destruct (Z.leb_spec n 0) as [Hz|Hpos].
  - replace n with 0 by lia. reflexivity.
  - rewrite hex_digits_value; [reflexivity|].
    split; [lia | now apply toString16_fuel].
Qed.

Lemma toString16_no_leading_zero (n : Z) : no_leading_zero (toString16 n).
Proof.
  unfold toString16, no_leading_zero.
  destruct (Z.leb_spec n 0) as [Hz|Hpos]; [now left|].
  right. apply hex_digits_leading. split; [lia | now apply toString16_fuel].
Qed.

End JSFacts.
Import JSFacts.

(** ** ContentHasher *)

Module HashFacts.
Import Hash.

Lemma hash_step_range (h c : Z) : 0 <= hash_step h c < 2 ^ 32.
Proof. unfold hash_step. apply to_uint32_range. Qed.

Lemma fold_hash_range (content : jsstring) : forall init,
  0 <= init < 2 ^ 32 -> 0 <= fold_left hash_step content init < 2 ^ 32.
Proof.
  induction content as [|c content IH]; intros init Hinit; simpl.
  - assumption.
  - apply IH, hash_step_range.
Qed.

Lemma hash_value_range (content : jsstring) :
  0 <= hash_value content < 2 ^ 32.
Proof.
  unfold hash_value. apply fold_hash_range. unfold FNV_OFFSET. lia.
Qed.

(** C9, as the code has it.  [computeHash] is a total function of its
    argument alone: for every string it returns the hexadecimal numeral,
    without leading zeros, of a 32-bit value.  The value is in range, the
    string has one to eight characters among [0-9a-f], it denotes the
    value, and it is ["0"] or does not start with the digit [0].  The width
    is not fixed. *)
Theorem computeHash_token (content : jsstring) :
  0 <= hash_value content < 2 ^ 32
  /\ (1 <= length (computeHash content) <= 8)%nat
  /\ Forall is_hex (computeHash content)
  /\ hex_numeral_value (computeHash content) = hash_value content
  /\ no_leading_zero (computeHash content).
Proof.
  pose proof (hash_value_range content) as Hr.
  split; [exact Hr|].
  split; [apply toString16_length; assumption|].
  split; [apply toString16_hex; lia|].
  split; [apply toString16_value; lia|].
  apply toString16_no_leading_zero.
Qed.

(** C9 as stated fails: the outputs do not all have one width.  The empty
    string hashes to ["811c9dc5"], the string ["akd"] to ["d368b74"]. *)
Lemma computeHash_width_not_fixed :
  ~ (exists w : nat, forall content, length (computeHash content) = w).
Proof.
  intros [w Hw].
  pose proof (Hw (js "")) as H1.
  pose proof (Hw (js "akd")) as H2.
  vm_compute in H1, H2. congruence.
Qed.

End HashFacts.

(** ** Integrity of [chat.json] *)

Module IntegrityFacts.
Import ChatManager Samples.

Section WithHost.
Variable stringify : ChatDataV2.t -> jsstring.

(** The checksum does not depend on the stored checksum. *)
Lemma computeDataChecksum_ignores_checksum (c : option jsstring)
    (d : ChatDataV2.t) :
  computeDataChecksum stringify (ChatDataV2.set_checksum c d)
  = computeDataChecksum stringify d.
Proof. reflexivity. Qed.

Lemma validate_stored_checksum (d : ChatDataV2.t) :
  ChatDataV2._checksum d = Some (computeDataChecksum stringify d) ->
  validateDataIntegrity stringify d = true.
Proof.
  intros H. unfold validateDataIntegrity. rewrite H.
  destruct (computeDataChecksum stringify d) eqn:E; [reflexivity|].
  rewrite <- E. apply str_eqb_refl.
Qed.

Lemma stamp_checksum (d : ChatDataV2.t) :
  ChatDataV2._checksum (stamp stringify d)
  = Some (computeDataChecksum stringify (stamp stringify d)).
Proof. reflexivity. Qed.

Lemma saveChat_writes_memory (now : Z) (m : t) :
  chatFile (saveChat stringify now m)
  = Content (V2 (chatData (saveChat stringify now m))).
Proof. reflexivity. Qed.

Lemma saveChat_stamped (now : Z) (m : t) :
  exists d0, chatData (saveChat stringify now m) = stamp stringify d0.
Proof. unfold saveChat. eexists. reflexivity. Qed.

(** C4.  A document whose [_checksum] is [computeDataChecksum] of that
    document passes [validateDataIntegrity]; the checksum is computed over
    the serialization without the [_checksum] field; and the document
    [saveChat] writes is such a document, so the first read of a load that
    gets the written file back is accepted, without an integrity failure. *)
Theorem checksum_round_trip :
  (forall d,
      ChatDataV2._checksum d = Some (computeDataChecksum stringify d) ->
      validateDataIntegrity stringify d = true)
  /\ (forall d c,
         computeDataChecksum stringify (ChatDataV2.set_checksum c d)
         = computeDataChecksum stringify d)
  /\ (forall now m,
         let m' := saveChat stringify now m in
         chatFile m' = Content (V2 (chatData m'))
         /\ ChatDataV2._checksum (chatData m')
            = Some (computeDataChecksum stringify (chatData m'))
         /\ validateDataIntegrity stringify (chatData m') = true
         /\ read_with_retry stringify (fun _ => chatFile m')
            = (Some (V2 (chatData m')), O)).
Proof.
  split; [exact validate_stored_checksum|].
  split; [intros; apply computeDataChecksum_ignores_checksum|].
  intros now m m'.
  assert (Hc : ChatDataV2._checksum (chatData m')
               = Some (computeDataChecksum stringify (chatData m'))).
  { destruct (saveChat_stamped now m) as [d0 Hd0].
    subst m'. rewrite Hd0. apply stamp_checksum. }
  pose proof (validate_stored_checksum _ Hc) as Hv.
  repeat split; try assumption.
  subst m'. unfold read_with_retry, MAX_LOAD_RETRIES, read_from.
  rewrite saveChat_writes_memory. unfold attempt_ok.
  rewrite Hv. reflexivity.
Qed.

(** C10.  A version-2 document without a [_checksum] field passes
    validation, and a read that returns it ends the read loop of
    [loadChat] at that attempt: the document is never rejected, and no
    retry is made, on integrity grounds. *)
Theorem no_checksum_is_accepted (d : ChatDataV2.t) :
  ChatDataV2._checksum d = None ->
  validateDataIntegrity stringify d = true
  /\ attempt_ok stringify (Content (V2 d)) = Some (V2 d)
  /\ read_with_retry stringify (fun _ => Content (V2 d)) = (Some (V2 d), O)
  /\ (forall first, attempt_ok stringify first = None ->
        read_with_retry stringify
          (fun n => if Nat.eqb n 1 then first else Content (V2 d))
        = (Some (V2 d), 1%nat)).
Proof.
  intros H.
  assert (Hv : validateDataIntegrity stringify d = true).
  { unfold validateDataIntegrity. now rewrite H. }
  assert (Ha : attempt_ok stringify (Content (V2 d)) = Some (V2 d)).
  { simpl. now rewrite Hv. }
  repeat split; try assumption.
  - unfold read_with_retry, MAX_LOAD_RETRIES, read_from. now rewrite Ha.
  - intros first Hf.
    unfold read_with_retry, MAX_LOAD_RETRIES, read_from.
    change (Nat.eqb 1 1) with true. cbv iota. rewrite Hf.
    change (Nat.eqb 2 1) with false. cbv iota. now rewrite Ha.
Qed.
End WithHost.

Lemma checksum_round_trip_witness :
  validateDataIntegrity sample_stringify (stamp sample_stringify sample_doc)
  = true.
Proof.
  apply (proj1 (checksum_round_trip sample_stringify)).
  reflexivity.
Defined.

Lemma no_checksum_is_accepted_witness :
  validateDataIntegrity sample_stringify sample_doc = true.
Proof.
  apply (no_checksum_is_accepted sample_stringify sample_doc).
  reflexivity.
Defined.

End IntegrityFacts.

(** ** The registration lock *)

Module LockFacts.
Import UserManager Samples.




End LockFacts.

(** ** The primary admin *)

Module UserFacts.
Import VaultUser UserManager Samples.

Lemma single_primary_number (u : VaultUser.t) :
  registrationNumber (single_primary u) = registrationNumber u.
Proof.
  unfold single_primary.
  destruct (is_first u); [reflexivity|].
  destruct (is_primary u); reflexivity.
Qed.

Lemma renumber_from_numbers (us : list VaultUser.t) : forall i u,
  In u (map single_primary (renumber_from i us)) ->
  exists k, registrationNumber u = Some k /\ Z.of_nat i + 1 <= k.
Proof.
  induction us as [|v us IH]; intros i u Hin; simpl in Hin; [contradiction|].
  destruct Hin as [<-|Hin].
  - rewrite single_primary_number. simpl. eexists. split; [reflexivity | lia].
  - destruct (IH (S i) u Hin) as [k [Hk Hle]].
    exists k. split; [assumption | lia].
Qed.

Lemma single_primary_not_first (u : VaultUser.t) :
  is_first u = false -> is_primary (single_primary u) = false.
Proof.
  intros H. unfold single_primary. rewrite H.
  destruct (is_primary u) eqn:E; [reflexivity | assumption].
Qed.

Lemma single_primary_first (u : VaultUser.t) :
  is_first u = true -> is_primary (single_primary u) = true.
Proof. intros H. unfold single_primary. now rewrite H. Qed.

Lemma is_first_renumbered (i : nat) (v : VaultUser.t) :
  is_first (set_registrationNumber (Some (Z.of_nat i + 1)) v) = Nat.eqb i 0.
Proof.
  unfold is_first. simpl.
  destruct i; simpl Nat.eqb.
  - reflexivity.
  - apply Z.eqb_neq. lia.
Qed.

Lemma renumber_from_no_primary (us : list VaultUser.t) : forall i,
  (1 <= i)%nat ->
  filter is_primary (map single_primary (renumber_from i us)) = [].
Proof.
  induction us as [|v us IH]; intros i Hi; simpl; [reflexivity|].
  rewrite (IH (S i)) by lia.
  rewrite single_primary_not_first; [reflexivity|].
  rewrite is_first_renumbered. destruct i; [lia | reflexivity].
Qed.

(** The merge of [saveUsers] establishes the invariant, whatever the two
    lists it merges. *)
Lemma merge_users_single_primary (now : Z) (ours disk : list VaultUser.t)
    (ledger : Dict.t Z) :
  fst (merge_users now ours disk ledger) <> [] ->
  SinglePrimary (fst (merge_users now ours disk ledger)).
Proof.
  unfold merge_users.
  destruct (fold_left _ disk (ours, ledger)) as [us ledger'].
  cbn [fst].
  destruct (by_registered us) as [|v vs]; [intros H; now elim H|].
  intros _. cbn [renumber_from map].
  set (first := single_primary (set_registrationNumber (Some (Z.of_nat 0 + 1)) v)).
  assert (Hfirst : is_primary first = true).
  { apply single_primary_first. now rewrite is_first_renumbered. }
  exists first. split.
  - cbn [filter]. rewrite Hfirst.
    now rewrite renumber_from_no_primary by lia.
  - exists 1. split.
    + unfold first. rewrite single_primary_number. reflexivity.
    + intros u [<-|Hin].
      * exists 1. unfold first. rewrite single_primary_number.
        split; [reflexivity | lia].
      * destruct (renumber_from_numbers vs 1 u Hin) as [k [Hk Hle]].
        exists k. split; [assumption | lia].
Qed.

(** Every [saveUsers] that can read the users file leaves the collection
    it holds, and the file, with exactly one primary admin, the user
    numbered 1. *)
Lemma saveUsers_single_primary (now : Z) (m : t) (diskUsers : list VaultUser.t) :
  usersFile m = Content diskUsers ->
  usersConfig (saveUsers now m) <> [] ->
  SinglePrimary (usersConfig (saveUsers now m))
  /\ usersFile (saveUsers now m) = Content (usersConfig (saveUsers now m)).
Proof.
  intros Hfile. unfold saveUsers. rewrite Hfile.
  pose proof (merge_users_single_primary now (usersConfig m) diskUsers
                (recentlyDeletedUsers m)) as H.
  destruct (merge_users now (usersConfig m) diskUsers (recentlyDeletedUsers m))
    as [us ledger].
  cbn [fst] in H. cbn. intros Hne. split; [now apply H | reflexivity].
Qed.

(** X22: so does [unregisterCurrentUser], which ends with such a save: when
    the users file can be read and a user is left, the collection has
    exactly one primary admin after the call, the user numbered 1, whatever
    the [currentUser] object says of the admin level of the user who
    leaves. *)
Lemma unregister_single_primary (now : Z) (m : t) (diskUsers : list VaultUser.t) :
  usersFile m = Content diskUsers ->
  fst (unregisterCurrentUser now m) = true ->
  usersConfig (snd (unregisterCurrentUser now m)) <> [] ->
  SinglePrimary (usersConfig (snd (unregisterCurrentUser now m))).
Proof.
  intros Hfile. unfold unregisterCurrentUser.
  destruct (currentUser m) as [cu|]; [|discriminate].
  destruct (find_index _ _) as [index|]; [|discriminate].
  intros _. cbn [snd].
  match goal with
  | |- usersConfig (set_currentUser None (saveUsers now ?m1)) <> [] -> _ =>
      change (usersConfig (set_currentUser None (saveUsers now m1)))
        with (usersConfig (saveUsers now m1));
      apply (saveUsers_single_primary now m1 diskUsers)
  end.
  exact Hfile.
Qed.

Lemma unregister_single_primary_witness :
  SinglePrimary (usersConfig (snd (unregisterCurrentUser 7000 three_users))).
Proof.
  apply (unregister_single_primary 7000 three_users [alice; bob; carol]).
  - reflexivity.
  - reflexivity.
  - vm_compute. discriminate.
Defined.

(** C3 fails on [loadUsers].  The users file holds bob, number 2, and carol,
    number 3, neither of them primary.  [ensureAdminExists] looks for the
    user numbered 1, finds none, changes nothing and does not save: the
    collection is not empty and has no primary admin. *)
Theorem loadUsers_leaves_no_primary :
  let m' := loadUsers 10000 orphaned_users in
  usersConfig m' = [bob; carol]
  /\ filter is_primary (usersConfig m') = []
  /\ usersFile m' = Content [bob; carol]
  /\ ~ SinglePrimary (usersConfig m').
Proof.
  repeat split.
  intros [p [Hp _]]. vm_compute in Hp. discriminate.
Qed.

End UserFacts.

(** ** Deletion and the message cap *)

Module MessageFacts.
Import ChatManager Samples.

(** X23: the [deleted] flag itself is never taken back by a merge: the
    message [mergeMessageUpdates] leaves has the flag of our message when
    ours is deleted, whatever the disk message is. *)
Lemma mergeMessageUpdates_keeps_deleted (now : Z)
    (ledger : Dict.t (list Toggle)) (ourMsg diskMsg : ChatMessage.t) :
  truthy (ChatMessage.deleted ourMsg) = true ->
  ChatMessage.deleted (fst (mergeMessageUpdates now ledger ourMsg diskMsg))
  = ChatMessage.deleted ourMsg.
Proof.
  intros Hdel. unfold mergeMessageUpdates, merge_reactions.
  destruct (collect_toggles _ _ _) as [em ledger']. cbn [fst].
  set (m1 := ChatMessage.set_reactions _ ourMsg).
  assert (H1 : ChatMessage.deleted (merge_edited m1 diskMsg)
               = ChatMessage.deleted ourMsg).
  { unfold merge_edited.
    destruct (truthy (ChatMessage.edited diskMsg)); [|reflexivity].
    destruct (negb (truthy (ChatMessage.edited m1))); [reflexivity|].
    destruct (disk_edit_newer m1 diskMsg); reflexivity. }
  unfold merge_deleted. rewrite H1, Hdel.
  rewrite andb_false_r. exact H1.
Qed.

Lemma mergeMessageUpdates_keeps_deleted_witness :
  ChatMessage.deleted
    (fst (mergeMessageUpdates 3000 [] (mark_deleted hello) hello_edited))
  = ChatMessage.deleted (mark_deleted hello).
Proof. apply mergeMessageUpdates_keeps_deleted. reflexivity. Defined.

(** C2 fails on the code.  Dave, an admin, deletes alice's message while the
    file holds the copy she has edited in the meantime: the save that ends
    [deleteMessage] merges that copy into the deleted message, which stays
    deleted but gets the edited text and the reactions of the disk copy, in
    memory and in the file that is written. *)
Theorem deleted_message_regains_content :
  let r := deleteMessage sample_stringify 3000 (js "m1") None before_delete in
  let merged :=
    ChatMessage.mk (js "m1") (js "alice") (js "hello, edited") 1000 None None
      None None (Some [ChatReaction.mk thumbs_up [js "carol"]]) (Some true)
      (Some 2000) (Some true) None in
  fst r = true
  /\ Dict.get GENERAL_CHANNEL_ID (channelMessages (snd r)) = Some [merged]
  /\ chatFile (snd r) = Content (V2 (chatData (snd r))).
Proof. vm_compute. repeat split. Qed.

(** The merge alone, on a message that [deleteMessage] marked: a later merge
    of the edited, undeleted disk copy gives a deleted message with text and
    reactions. *)
Lemma merge_into_deleted_message :
  let ours := mark_deleted hello in
  let merged := fst (mergeMessageUpdates 3000 [] ours hello_edited) in
  ChatMessage.deleted merged = Some true
  /\ ChatMessage.message merged = js "hello, edited"
  /\ ChatMessage.reactions merged
     = Some [ChatReaction.mk thumbs_up [js "carol"]].
Proof. vm_compute. repeat split. Qed.

(** C7 fails on the code.  A channel holds 200 messages, in memory and in
    the file.  [sendMessage] pushes the new message and keeps the last 200,
    which evicts the oldest; the save that ends [sendMessage] then finds the
    evicted message in the file, takes it for a new one and pushes it back:
    the channel ends with 201 messages, the evicted one first. *)
Theorem sendMessage_exceeds_cap :
  let r := sendMessage sample_stringify 5000 (js "new") (js "one more") None None
             None None [] [] at_the_cap in
  option_map (@length _) (Dict.get GENERAL_CHANNEL_ID (channelMessages at_the_cap))
  = Some 200%nat
  /\ option_map (@length _) (Dict.get GENERAL_CHANNEL_ID (channelMessages (snd r)))
     = Some 201%nat
  /\ option_map (fun l => map ChatMessage.id (firstn 1 l))
       (Dict.get GENERAL_CHANNEL_ID (channelMessages (snd r)))
     = Some [js "m1"].
Proof. vm_compute. repeat split. Qed.

End MessageFacts.

(** ** Channels: promotion of direct messages *)

Module ChannelFacts.
Import ChatManager Ops Samples.

(** *** Lists *)

Lemma find_index_Some {A : Type} (p : A -> bool) (l : list A) : forall i,
  UserManager.find_index p l = Some i ->
  exists x, nth_error l i = Some x /\ find p l = Some x /\ p x = true.
Proof.
  induction l as [|y l IH]; intros i H; simpl in H; [discriminate|].
  simpl. destruct (p y) eqn:Hp.
  - injection H as <-. exists y. repeat split; assumption.
  - destruct (UserManager.find_index p l) as [j|] eqn:Hj; [|discriminate].
    injection H as <-. destruct (IH j eq_refl) as [x [Hn [Hf Hx]]].
    exists x. repeat split; assumption.
Qed.

Lemma find_index_None {A : Type} (p : A -> bool) (l : list A) :
  UserManager.find_index p l = None -> find p l = None.
Proof.
  induction l as [|y l IH]; intros H; simpl in *; [reflexivity|].
  destruct (p y); [discriminate|].
  destruct (UserManager.find_index p l); [discriminate | now apply IH].
Qed.

Lemma find_update_nth {A : Type} (p : A -> bool) (f : A -> A) (l : list A) :
  forall i x,
  UserManager.find_index p l = Some i ->
  nth_error l i = Some x ->
  p (f x) = true ->
  find p (update_nth i f l) = Some (f x).
Proof.
  induction l as [|y l IH]; intros i x Hi Hn Hp; simpl in Hi; [discriminate|].
  destruct (p y) eqn:Hy.
  - injection Hi as <-. simpl in Hn. injection Hn as <-.
    simpl. now rewrite Hp.
  - destruct (UserManager.find_index p l) as [j|] eqn:Hj; [|discriminate].
    injection Hi as <-. simpl in Hn. simpl. rewrite Hy.
    now apply IH.
Qed.

Lemma fold_left_invariant {A B : Type} (P : A -> Prop) (f : A -> B -> A)
    (l : list B) :
  (forall a b, In b l -> P a -> P (f a b)) ->
  forall a, P a -> P (fold_left f l a).
Proof.
  induction l as [|b l IH]; intros Hf a Ha; simpl; [assumption|].
  apply IH.
  - intros a' b' Hin. apply Hf. now right.
  - apply Hf; [now left | assumption].
Qed.

(** *** Finding a channel by id *)

Lemma has_channel_id_eq (cid : jsstring) (a b : Channel.t) :
  Channel.id a = Channel.id b -> has_channel_id cid a = has_channel_id cid b.
Proof. unfold has_channel_id. now intros ->. Qed.

Lemma find_channel_id (cid : jsstring) (l : list Channel.t) (c : Channel.t) :
  find (has_channel_id cid) l = Some c -> In c l /\ Channel.id c = cid.
Proof.
  intros H. apply find_some in H. destruct H as [Hin Hid].
  split; [assumption | now apply str_eqb_eq].
Qed.

(** Removing the channels of one id hides that id and no other. *)
Lemma find_after_removal (x cid : jsstring) (l : list Channel.t) :
  find (has_channel_id cid) (filter (fun c => negb (has_channel_id x c)) l)
  = if str_eqb cid x then None else find (has_channel_id cid) l.
Proof.
  induction l as [|c l IH]; cbn [filter find].
  - now destruct (str_eqb cid x).
  - destruct (has_channel_id x c) eqn:Hx; cbn [negb].
    + rewrite IH. destruct (str_eqb_spec cid x) as [->|Hc]; [reflexivity|].
      unfold has_channel_id in Hx. apply str_eqb_eq in Hx.
      assert (Hn : has_channel_id cid c = false).
      { unfold has_channel_id. apply str_eqb_neq. congruence. }
      now rewrite Hn.
    + cbn [find]. destruct (has_channel_id cid c) eqn:Hc.
      * destruct (str_eqb_spec cid x) as [->|]; [congruence | reflexivity].
      * apply IH.
Qed.

(** *** The evolution relation *)

Lemma step_ok_refl (a : Channel.t) : step_ok a a.
Proof. split; auto. Qed.

Lemma step_ok_trans (a b c : Channel.t) :
  step_ok a b -> step_ok b c -> step_ok a c.
Proof. intros [H1 H2] [H3 H4]. split; [congruence | auto]. Qed.

Lemma grows_refl (D : jsstring -> Prop) (l : list Channel.t) : grows D l l.
Proof.
  induction l as [|a l IH]; constructor; auto using step_ok_refl.
Qed.

Lemma grows_push (D : jsstring -> Prop) (l0 l : list Channel.t) (c : Channel.t) :
  grows D l0 l -> D (Channel.id c) -> grows D l0 (l ++ [c]).
Proof.
  intros H Hc. induction H as [extra Hex | a b l0 l Hab H IH]; simpl.
  - constructor. apply Forall_app. split; [assumption | now constructor].
  - constructor; assumption.
Qed.

Lemma Forall_update_nth (D : jsstring -> Prop) (f : Channel.t -> Channel.t)
    (l : list Channel.t) :
  (forall c, Channel.id (f c) = Channel.id c) ->
  Forall (fun c => D (Channel.id c)) l ->
  forall i, Forall (fun c => D (Channel.id c)) (update_nth i f l).
Proof.
  intros Hf H. induction H as [|c l Hc H IH]; intros i; simpl.
  - destruct i; constructor.
  - destruct i; constructor; try assumption.
    + now rewrite Hf.
    + apply IH.
Qed.

Lemma grows_update (D : jsstring -> Prop) (f : Channel.t -> Channel.t)
    (l0 l : list Channel.t) :
  (forall c, step_ok c (f c)) ->
  grows D l0 l -> forall i, grows D l0 (update_nth i f l).
Proof.
  intros Hf H. induction H as [extra Hex | a b l0 l Hab H IH]; intros i.
  - constructor. apply Forall_update_nth; [|assumption].
    intros c. symmetry. apply Hf.
  - destruct i; simpl; constructor; auto.
    eapply step_ok_trans; [exact Hab | apply Hf].
Qed.

Lemma grows_find (D : jsstring -> Prop) (cid : jsstring)
    (l0 l : list Channel.t) (ch : Channel.t) :
  grows D l0 l ->
  find (has_channel_id cid) l0 = Some ch ->
  exists ch', find (has_channel_id cid) l = Some ch' /\ step_ok ch ch'.
Proof.
  intros H. induction H as [extra Hex | a b l0 l Hab H IH]; simpl;
    [discriminate|].
  rewrite <- (has_channel_id_eq cid a b (proj1 Hab)).
  destruct (has_channel_id cid a).
  - intros [= <-]. exists b. split; [reflexivity | assumption].
  - assumption.
Qed.

Lemma grows_find_new (D : jsstring -> Prop) (cid : jsstring)
    (l0 l : list Channel.t) (ch' : Channel.t) :
  grows D l0 l ->
  find (has_channel_id cid) l0 = None ->
  find (has_channel_id cid) l = Some ch' ->
  D cid.
Proof.
  intros H. induction H as [extra Hex | a b l0 l Hab H IH]; simpl.
  - intros _ Hf. apply find_channel_id in Hf. destruct Hf as [Hin <-].
    rewrite Forall_forall in Hex. now apply Hex.
  - rewrite <- (has_channel_id_eq cid a b (proj1 Hab)).
    destruct (has_channel_id cid a); [discriminate | assumption].
Qed.

Lemma grows_no_demotion (D : jsstring -> Prop) (l0 l : list Channel.t) :
  grows D l0 l -> no_demotion l0 l.
Proof.
  intros H cid ch ch' Hf Hty Hf'.
  destruct (grows_find D cid l0 l ch H Hf) as [ch1 [Hf1 [_ Hs]]].
  rewrite Hf1 in Hf'. injection Hf' as <-. auto.
Qed.

Lemma no_demotion_refl (l : list Channel.t) : no_demotion l l.
Proof. intros cid ch ch' H Hty H'. congruence. Qed.

Lemma removal_no_demotion (x : jsstring) (l : list Channel.t) :
  no_demotion l (filter (fun c => negb (has_channel_id x c)) l).
Proof.
  intros cid ch ch' H Hty H'. rewrite find_after_removal in H'.
  destruct (str_eqb cid x); [discriminate | congruence].
Qed.

(** *** What leaves the channel list alone *)

Section WithHost.
Variable stringify : ChatDataV2.t -> jsstring.

Lemma fold_left_channels {B : Type} (f : t -> B -> t) (l : list B) :
  (forall m b, channels (f m b) = channels m) ->
  forall m, channels (fold_left f l m) = channels m.
Proof.
  intros Hf. induction l as [|b l IH]; intros m; simpl; [reflexivity|].
  now rewrite IH, Hf.
Qed.

Lemma merge_channel_messages_save_channels (now : Z)
    (disk : Dict.t (list ChatMessage.t)) (m : t) (cid : jsstring) :
  channels (merge_channel_messages_save now disk m cid) = channels m.
Proof.
  unfold merge_channel_messages_save.
  destruct (Dict.get cid disk); [|reflexivity].
  destruct (Dict.get cid (channelMessages m)); [|reflexivity].
  destruct (fold_left _ _ _). reflexivity.
Qed.

Lemma merge_channel_messages_load_channels (now : Z)
    (disk : Dict.t (list ChatMessage.t)) (m : t) (cid : jsstring) :
  channels (merge_channel_messages_load now disk m cid) = channels m.
Proof.
  unfold merge_channel_messages_load.
  destruct (Dict.get cid disk); [|reflexivity].
  destruct (Dict.get cid (channelMessages m)).
  - destruct (fold_left _ _ _) as [[ours ledger] dismissed]. reflexivity.
  - destruct (filter_dismissed _ _ _). reflexivity.
Qed.

Lemma merge_mutedChannels_channels (disk : option (Dict.t (list jsstring)))
    (m : t) :
  channels (merge_mutedChannels disk m) = channels m.
Proof. destruct disk; reflexivity. Qed.

Lemma ensureRecentMessagesExist_channels (now : Z) (m : t) :
  channels (ensureRecentMessagesExist now m) = channels m.
Proof.
  unfold ensureRecentMessagesExist. apply fold_left_channels.
  intros m' [msgId entry]. unfold ensure_recent.
  destruct (_ <? _); [reflexivity|].
  destruct (existsb _ _); reflexivity.
Qed.

Lemma merge_on_save_channels (now : Z) (diskData : ChatDataV2.t) (m : t) :
  channels (merge_on_save now diskData m) = channels m.
Proof.
  unfold merge_on_save.
  rewrite merge_mutedChannels_channels.
  destruct (ChatDataV2.deletedChannels diskData);
    cbn [channels set_tombstones set_chatData chatData ChatDataV2.channels
         ChatDataV2.set_deletedChannels];
    change (ChatDataV2.channels (chatData ?x)) with (channels x);
    unfold merge_readState;
    cbn [channels upd_readState set_chatData chatData ChatDataV2.channels
         ChatDataV2.set_readState];
    change (ChatDataV2.channels (chatData ?x)) with (channels x);
    apply fold_left_channels; intros; apply merge_channel_messages_save_channels.
Qed.

Lemma saveChat_channels (now : Z) (m : t) :
  channels (saveChat stringify now m) = channels m.
Proof.
  unfold saveChat.
  cbn [channels set_chatFile set_chatData chatData stamp ChatDataV2.channels
       ChatDataV2.set_checksum set_tombstones ChatDataV2.set_deletedChannels].
  change (ChatDataV2.channels (chatData ?x)) with (channels x).
  rewrite ensureRecentMessagesExist_channels.
  destruct (chatFile m) as [| |[d|d]]; try reflexivity.
  apply merge_on_save_channels.
Qed.

Lemma isRecentlyDeletedChannel_channels (now : Z) (cid : jsstring) (m : t) :
  channels (snd (isRecentlyDeletedChannel now cid m)) = channels m.
Proof.
  unfold isRecentlyDeletedChannel.
  destruct (Dict.get cid (recentlyDeletedChannels m)) as [deletedTime|].
  - destruct (deletedTime =? 0).
    + destruct (ChatDataV2.deletedChannels (chatData m)) as [l|]; [|reflexivity].
      destruct (find _ l); [|reflexivity].
      destruct (_ <=? _); reflexivity.
    + destruct (_ <=? _); [reflexivity|].
      cbn [chatData set_recentlyDeletedChannels].
      destruct (ChatDataV2.deletedChannels (chatData m)) as [l|]; [|reflexivity].
      destruct (find _ l); [|reflexivity].
      destruct (_ <=? _); reflexivity.
  - destruct (ChatDataV2.deletedChannels (chatData m)) as [l|]; [|reflexivity].
    destruct (find _ l); [|reflexivity].
    destruct (_ <=? _); reflexivity.
Qed.

Lemma merged_members_channels (now : Z) (diskChannel : Channel.t) (m : t) :
  channels (snd (merged_members now diskChannel m)) = channels m.
Proof.
  unfold merged_members, drop_if_left.
  destruct (currentUser m).
  - destruct (hasRecentlyLeftChannel _ _ _) as [[|] ledger];
      destruct (getRecentlyAddedMembers _ _ _); reflexivity.
  - destruct (getRecentlyAddedMembers _ _ _); reflexivity.
Qed.

(** *** Each operation, on the channel list *)

Lemma no_demotion_then_removal (x : jsstring) (l l1 : list Channel.t) :
  no_demotion l l1 ->
  no_demotion l (filter (fun c => negb (has_channel_id x c)) l1).
Proof.
  intros H cid ch ch' Hf Hty Hf'. rewrite find_after_removal in Hf'.
  destruct (str_eqb cid x); [discriminate|]. eapply H; eassumption.
Qed.

Lemma remove_channel_data_channels (m : t) (x : jsstring) :
  channels (remove_channel_data m x)
  = filter (fun c => negb (has_channel_id x c)) (channels m).
Proof. reflexivity. Qed.

Lemma removals_no_demotion (l : list Channel.t) (xs : list jsstring) :
  forall m, no_demotion l (channels m) ->
            no_demotion l (channels (fold_left remove_channel_data xs m)).
Proof.
  apply (fold_left_invariant (fun m => no_demotion l (channels m))).
  intros m x _ H. rewrite remove_channel_data_channels.
  now apply no_demotion_then_removal.
Qed.

Lemma find_after_removals (cid : jsstring) (xs : list jsstring) : forall m,
  find (has_channel_id cid) (channels (fold_left remove_channel_data xs m))
  = if includes xs cid then None else find (has_channel_id cid) (channels m).
Proof.
  induction xs as [|x xs IH]; intros m; simpl; [reflexivity|].
  rewrite IH, remove_channel_data_channels, find_after_removal.
  destruct (str_eqb cid x); simpl; [|reflexivity].
  now destruct (includes xs cid).
Qed.

Lemma set_members_step (ms : list jsstring) (c : Channel.t) :
  step_ok c (Channel.set_members ms c).
Proof. split; auto. Qed.

Lemma set_name_step (n : jsstring) (c : Channel.t) :
  step_ok c (Channel.set_name n c).
Proof. split; auto. Qed.

Lemma merge_name_step (diskChannel c : Channel.t) :
  step_ok c (merge_name diskChannel c).
Proof.
  unfold merge_name. destruct (_ && _); [apply set_name_step | apply step_ok_refl].
Qed.

Lemma push_message_channels (cid : jsstring) (msg : ChatMessage.t) (m m' : t) :
  push_message cid msg m = Some m' -> channels m' = channels m.
Proof.
  unfold push_message. destruct (Dict.get cid (channelMessages m)); [|discriminate].
  now intros [= <-].
Qed.

Lemma deleteChannel_channels (now : Z) (cid : jsstring) (m : t) :
  channels (snd (deleteChannel stringify now cid m))
  = if str_eqb cid GENERAL_CHANNEL_ID then channels m
    else filter (fun c => negb (has_channel_id cid c)) (channels m).
Proof.
  unfold deleteChannel.
  destruct (str_eqb cid GENERAL_CHANNEL_ID); [reflexivity|].
  cbn [snd]. rewrite saveChat_channels.
  match goal with
  | |- channels (if ?b then _ else _) = _ => destruct b
  end; reflexivity.
Qed.

Lemma deleteChannel_no_demotion (now : Z) (cid : jsstring) (l : list Channel.t)
    (m : t) :
  no_demotion l (channels m) ->
  no_demotion l (channels (snd (deleteChannel stringify now cid m))).
Proof.
  intros H. rewrite deleteChannel_channels.
  destruct (str_eqb cid GENERAL_CHANNEL_ID); [assumption|].
  now apply no_demotion_then_removal.
Qed.

Lemma add_member_to_step (newMember : jsstring) (c : Channel.t) :
  step_ok c (add_member_to newMember c).
Proof.
  unfold add_member_to.
  destruct (ChannelType_eqb (Channel.type c) dm); split; cbn; auto; discriminate.
Qed.

Lemma addMemberToChannel_channels (now : Z)
    (newId cid newMember addedBy : jsstring) (m : t) :
  channels (snd (addMemberToChannel stringify now newId cid newMember addedBy m))
  = match UserManager.find_index (has_channel_id cid) (channels m) with
    | Some i =>
        match nth_error (channels m) i with
        | Some channel =>
            if ChannelType_eqb (Channel.type channel) general then channels m
            else if includes (Channel.members channel) newMember then channels m
            else update_nth i (add_member_to newMember) (channels m)
        | None => channels m
        end
    | None => channels m
    end.
Proof.
  unfold addMemberToChannel.
  destruct (UserManager.find_index _ _) as [i|]; [|reflexivity].
  destruct (nth_error _ i) as [channel|]; [|reflexivity].
  destruct (ChannelType_eqb _ general); [reflexivity|].
  destruct (includes _ newMember); [reflexivity|].
  match goal with
  | |- context [push_message ?c ?msg ?m3] =>
      assert (H3 : channels m3
                   = update_nth i (add_member_to newMember) (channels m));
      [| destruct (push_message c msg m3) as [m4|] eqn:Hpush ]
  end.
  - destruct (currentUser m) as [cu|]; [|reflexivity].
    destruct (str_eqb newMember _); reflexivity.
  - cbn [snd]. rewrite saveChat_channels.
    now rewrite (push_message_channels _ _ _ _ Hpush).
  - exact H3.
Qed.

Lemma addMemberToChannel_grows (now : Z) (newId cid newMember addedBy : jsstring)
    (m : t) :
  grows anything (channels m)
    (channels (snd (addMemberToChannel stringify now newId cid newMember addedBy m))).
Proof.
  rewrite addMemberToChannel_channels.
  destruct (UserManager.find_index _ _) as [i|]; [|apply grows_refl].
  destruct (nth_error _ i) as [channel|]; [|apply grows_refl].
  destruct (ChannelType_eqb _ general); [apply grows_refl|].
  destruct (includes _ newMember); [apply grows_refl|].
  apply grows_update; [apply add_member_to_step | apply grows_refl].
Qed.

Lemma leaveChannel_no_demotion (now : Z) (newId cid u : jsstring) (m : t) :
  no_demotion (channels m)
    (channels (snd (leaveChannel stringify now newId cid u m))).
Proof.
  unfold leaveChannel.
  destruct (UserManager.find_index _ _) as [i|]; [|apply no_demotion_refl].
  destruct (nth_error _ i) as [channel|]; [|apply no_demotion_refl].
  destruct (ChannelType_eqb _ general); [apply no_demotion_refl|].
  set (remaining := filter _ (Channel.members channel)).
  match goal with
  | |- context [deleteChannel stringify now cid ?m4] =>
      assert (H4 : no_demotion (channels m) (channels m4))
  end.
  { apply (grows_no_demotion anything).
    assert (Hch : forall m4 : t,
               channels m4
               = update_nth i (Channel.set_members remaining) (channels m) ->
               grows anything (channels m) (channels m4)).
    { intros m4 ->. apply grows_update; [|apply grows_refl].
      intros c. apply set_members_step. }
    apply Hch.
    destruct (Dict.get cid (recentlyAddedMembers _));
      match goal with
      | |- channels (if ?b then _ else _) = _ => destruct b
      end; reflexivity. }
  destruct remaining as [|r rs].
  - cbn [snd]. now apply deleteChannel_no_demotion.
  - match goal with
    | |- context [push_message ?c ?msg ?m4] =>
        destruct (push_message c msg m4) as [m5|] eqn:Hpush
    end; cbn [snd]; [|exact H4].
    rewrite saveChat_channels.
    now rewrite (push_message_channels _ _ _ _ Hpush).
Qed.

Lemma renameChannel_grows (now : Z) (cid newName : jsstring) (m : t) :
  grows anything (channels m)
    (channels (snd (renameChannel stringify now cid newName m))).
Proof.
  unfold renameChannel.
  destruct (UserManager.find_index _ _) as [i|]; [|apply grows_refl].
  destruct (nth_error _ i) as [channel|]; [|apply grows_refl].
  destruct (negb _); [apply grows_refl|].
  cbn [snd]. rewrite saveChat_channels.
  change (channels (upd_channels ?f m)) with (f (channels m)).
  apply grows_update; [|apply grows_refl].
  intros c. apply set_name_step.
Qed.

Lemma cleanupStaleChannels_no_demotion (now : Z) (m : t) :
  no_demotion (channels m)
    (channels (snd (cleanupStaleChannels stringify now m))).
Proof.
  unfold cleanupStaleChannels.
  set (xs := map Channel.id _).
  pose proof (removals_no_demotion (channels m) xs m (no_demotion_refl _)) as H.
  destruct xs as [|x xs']; [exact H|].
  cbn [snd]. rewrite saveChat_channels.
  match goal with
  | |- no_demotion _ (channels (if ?b then _ else _)) => destruct b
  end; exact H.
Qed.

Lemma createGroupChannel_grows (now : Z) (newId name : jsstring)
    (members : list jsstring) (createdBy : jsstring) (m : t) :
  grows anything (channels m)
    (channels (snd (createGroupChannel stringify now newId name members
                      createdBy m))).
Proof.
  unfold createGroupChannel. cbn [snd]. rewrite saveChat_channels.
  rewrite fold_left_channels by reflexivity.
  change (channels (upd_readState ?g (upd_channelMessages ?h (upd_channels ?f m))))
    with (f (channels m)).
  cbv beta. apply grows_push; [apply grows_refl | exact I].
Qed.

Lemma startDM_grows (now : Z) (newId initiator recipient : jsstring) (m : t) :
  grows anything (channels m)
    (channels (snd (startDM stringify now newId initiator recipient m))).
Proof.
  unfold startDM. destruct (find _ _); [apply grows_refl|].
  cbn [snd]. rewrite saveChat_channels.
  change (channels (trackMemberAdded ?a ?b ?c (trackMemberAdded ?d ?e ?g
            (upd_readState ?r (upd_channelMessages ?h (upd_channels ?f m))))))
    with (f (channels m)).
  cbv beta. apply grows_push; [apply grows_refl | exact I].
Qed.

Lemma sendMessage_channels (now : Z) (newId text : jsstring)
    (fileLinks : option (list jsstring)) (images : option (list ChatImage.t))
    (cid replyTo : option jsstring) (vm vcm : list jsstring) (m : t) :
  channels (snd (sendMessage stringify now newId text fileLinks images cid
                   replyTo vm vcm m))
  = channels m.
Proof.
  unfold sendMessage. destruct (currentUser m); [|reflexivity].
  cbn [snd]. now rewrite saveChat_channels.
Qed.

Lemma deleteMessage_channels (now : Z) (messageId : jsstring)
    (cid : option jsstring) (m : t) :
  channels (snd (deleteMessage stringify now messageId cid m)) = channels m.
Proof.
  unfold deleteMessage. destruct (currentUser m); [|reflexivity].
  destruct (Dict.get _ _) as [messages|]; [|reflexivity].
  destruct (UserManager.find_index _ _) as [i|]; [|reflexivity].
  destruct (nth_error _ i); [|reflexivity].
  destruct (_ && _); [reflexivity|].
  cbn [snd]. now rewrite saveChat_channels.
Qed.

(** *** The merge of [loadChat], on the channel list *)

Lemma merge_disk_channel_grows (D : jsstring -> Prop) (now : Z)
    (ours0 l0 : list Channel.t) (m : t) (diskChannel : Channel.t) :
  D (Channel.id diskChannel) ->
  grows D l0 (channels m) ->
  grows D l0 (channels (merge_disk_channel now ours0 m diskChannel)).
Proof.
  intros HD H. unfold merge_disk_channel.
  pose proof (isRecentlyDeletedChannel_channels now (Channel.id diskChannel) m) as H1.
  destruct (isRecentlyDeletedChannel now (Channel.id diskChannel) m) as [skip m1].
  cbn [snd] in H1. rewrite <- H1 in H.
  destruct skip; [assumption|].
  pose proof (merged_members_channels now diskChannel m1) as H2.
  destruct (merged_members now diskChannel m1) as [members m2].
  cbn [snd] in H2. rewrite <- H2 in H.
  destruct (find_last_index _ ours0) as [i|].
  - change (channels (upd_channels ?f m2)) with (f (channels m2)).
    apply grows_update; [|assumption].
    intros c. eapply step_ok_trans;
      [apply set_members_step | apply merge_name_step].
  - change (channels (upd_channels ?f m2)) with (f (channels m2)).
    cbv beta. apply grows_push; assumption.
Qed.

Lemma merge_channels_grows (now : Z) (diskChannels : list Channel.t) (m : t) :
  grows (fun cid => In cid (map Channel.id diskChannels)) (channels m)
        (channels (merge_channels now diskChannels m)).
Proof.
  unfold merge_channels.
  apply (fold_left_invariant
           (fun m' => grows (fun cid => In cid (map Channel.id diskChannels))
                            (channels m) (channels m'))).
  - intros m' diskChannel Hin H. apply merge_disk_channel_grows; [|assumption].
    now apply in_map.
  - apply grows_refl.
Qed.

Lemma merge_on_load_channels (now : Z) (diskData : ChatDataV2.t) (m : t) :
  channels (merge_on_load now diskData m)
  = channels (merge_channels now (ChatDataV2.channels diskData)
                (remove_deleted_channels diskData
                   (merge_tombstones now diskData m))).
Proof.
  unfold merge_on_load. rewrite merge_mutedChannels_channels.
  change (channels (merge_readState ?d ?x)) with (channels x).
  apply fold_left_channels. intros. apply merge_channel_messages_load_channels.
Qed.

Lemma merge_on_load_no_demotion (now : Z) (diskData : ChatDataV2.t) (m : t) :
  no_demotion (channels m) (channels (merge_on_load now diskData m)).
Proof.
  rewrite merge_on_load_channels.
  set (m1 := merge_tombstones now diskData m).
  assert (Hm1 : channels m1 = channels m) by reflexivity.
  set (m2 := remove_deleted_channels diskData m1).
  pose proof (merge_channels_grows now (ChatDataV2.channels diskData) m2) as Hg.
  intros cid ch ch' Hf Hty Hf'.
  unfold remove_deleted_channels in m2.
  set (xs := map Channel.id (filter (to_remove diskData m1) (channels m1))) in m2.
  pose proof (find_after_removals cid xs m1) as Hrem. fold m2 in Hrem.
  destruct (includes xs cid) eqn:Hx.
  - (* the channels of this id were removed: the disk does not hold the id *)
    exfalso.
    pose proof (grows_find_new _ cid _ _ ch' Hg Hrem Hf') as Hdisk.
    apply includes_In in Hx. unfold xs in Hx.
    apply in_map_iff in Hx. destruct Hx as [c [Hc Hin]].
    apply filter_In in Hin. destruct Hin as [_ Hrm].
    unfold to_remove in Hrm.
    apply andb_prop in Hrm. destruct Hrm as [Hrm _].
    apply andb_prop in Hrm. destruct Hrm as [_ Hrm].
    apply negb_true_iff, includes_not_In in Hrm.
    apply Hrm. now rewrite Hc.
  - rewrite Hm1, Hf in Hrem.
    destruct (grows_find _ cid _ _ ch Hg Hrem) as [ch1 [Hf1 [_ Hs]]].
    rewrite Hf1 in Hf'. injection Hf' as <-. auto.
Qed.

Lemma loadChat_no_demotion (now : Z) (reads : nat -> File ChatData) (m : t) :
  no_demotion (channels m) (channels (loadChat stringify now reads m)).
Proof.
  assert (Hempty : forall l, no_demotion l (ChatDataV2.channels (createEmptyV2Data now))).
  { intros l cid ch ch' _ _ Hf'. apply find_some in Hf'.
    destruct Hf' as [[<-|[]] _]. discriminate. }
  assert (Hmerge : forall diskData,
             no_demotion (channels m)
               (channels (ensureRecentMessagesExist now
                            (merge_on_load now diskData m)))).
  { intros diskData. rewrite ensureRecentMessagesExist_channels.
    apply merge_on_load_no_demotion. }
  assert (Hnil : forall l, channels m = [] -> no_demotion (channels m) l).
  { intros l E cid ch ch' Hf. rewrite E in Hf. discriminate. }
  unfold loadChat.
  destruct (chatFile m) as [| |c].
  - rewrite ensureRecentMessagesExist_channels, saveChat_channels. apply Hempty.
  - destruct (fst (read_with_retry stringify reads)) as [rawData|].
    + destruct (channels m) eqn:E; [now apply Hnil | apply Hmerge].
    + destruct (channels m) eqn:E; [now apply Hnil|].
      rewrite E. apply no_demotion_refl.
  - destruct (fst (read_with_retry stringify reads)) as [rawData|].
    + destruct (channels m) eqn:E; [now apply Hnil | apply Hmerge].
    + destruct (channels m) eqn:E; [now apply Hnil|].
      rewrite E. apply no_demotion_refl.
Qed.

(** *** Promotion is one-way *)

Lemma find_Some_index {A : Type} (p : A -> bool) (l : list A) (x : A) :
  find p l = Some x ->
  exists i, UserManager.find_index p l = Some i /\ nth_error l i = Some x.
Proof.
  induction l as [|y l IH]; simpl; [discriminate|].
  destruct (p y).
  - intros [= <-]. exists O. split; reflexivity.
  - intros H. destruct (IH H) as [i [Hi Hn]].
    exists (S i). rewrite Hi. split; [reflexivity | assumption].
Qed.

Lemma run_no_demotion (op : Op) (m : t) :
  no_demotion (channels m) (channels (run stringify op m)).
Proof.
  destruct op; cbn [run].
  - apply (grows_no_demotion anything), addMemberToChannel_grows.
  - apply leaveChannel_no_demotion.
  - apply (grows_no_demotion anything), renameChannel_grows.
  - apply cleanupStaleChannels_no_demotion.
  - apply deleteChannel_no_demotion, no_demotion_refl.
  - apply (grows_no_demotion anything), createGroupChannel_grows.
  - apply (grows_no_demotion anything), startDM_grows.
  - rewrite sendMessage_channels. apply no_demotion_refl.
  - rewrite deleteMessage_channels. apply no_demotion_refl.
  - apply loadChat_no_demotion.
  - rewrite saveChat_channels. apply no_demotion_refl.
Qed.

Lemma addMemberToChannel_promotes (now : Z)
    (newId cid newMember addedBy : jsstring) (m : t) (ch : Channel.t) :
  getChannel cid m = Some ch ->
  Channel.type ch = dm ->
  includes (Channel.members ch) newMember = false ->
  getChannel cid (run stringify (AddMember now newId cid newMember addedBy) m)
  = Some (Channel.mk (Channel.id ch) group (join_comma (Channel.members ch))
            (Channel.members ch ++ [newMember]) (Channel.createdBy ch)
            (Channel.createdAt ch)).
Proof.
  intros Hget Hty Hnew. unfold getChannel in *. cbn [run].
  rewrite addMemberToChannel_channels.
  destruct (find_Some_index _ _ _ Hget) as [i [Hi Hn]].
  rewrite Hi, Hn, Hty, Hnew. cbn [ChannelType_eqb].
  rewrite (find_update_nth _ (add_member_to newMember) _ i ch Hi Hn).
  - unfold add_member_to. rewrite Hty. reflexivity.
  - apply find_some in Hget. destruct Hget as [_ Hid].
    unfold add_member_to. rewrite Hty. exact Hid.
Qed.

(** C6.  [addMemberToChannel] on a direct message, with a member it does not
    have yet, turns the channel into a group in place.  No operation of the
    manager turns a channel that is not a direct message, a group in
    particular, into one: whatever the call, a channel found under an id
    before it and after it is not a direct message after it unless it was
    one before; and so along every sequence of calls through which the
    channel stays in the list. *)
Theorem dm_promotion_is_one_way :
  (forall now newId cid newMember addedBy m ch,
      getChannel cid m = Some ch ->
      Channel.type ch = dm ->
      includes (Channel.members ch) newMember = false ->
      exists ch',
        getChannel cid
          (run stringify (AddMember now newId cid newMember addedBy) m)
        = Some ch'
        /\ Channel.type ch' = group
        /\ Channel.members ch' = Channel.members ch ++ [newMember])
  /\ (forall op m cid ch ch',
         getChannel cid m = Some ch ->
         Channel.type ch = group ->
         getChannel cid (run stringify op m) = Some ch' ->
         Channel.type ch' <> dm)
  /\ (forall ops m cid ch,
         getChannel cid m = Some ch ->
         Channel.type ch <> dm ->
         Forall (fun m' => getChannel cid m' <> None) (trace stringify ops m) ->
         Forall (fun m' => exists ch',
                     getChannel cid m' = Some ch' /\ Channel.type ch' <> dm)
                (trace stringify ops m)).
Proof.
  split; [|split].
  - intros now newId cid newMember addedBy m ch Hget Hty Hnew.
    rewrite (addMemberToChannel_promotes now newId cid newMember addedBy m ch
               Hget Hty Hnew).
    eexists. split; [reflexivity|]. split; reflexivity.
  - intros op m cid ch ch' Hget Hty Hget'.
    apply (run_no_demotion op m cid ch ch' Hget); [|exact Hget'].
    rewrite Hty. discriminate.
  - intros ops. induction ops as [|op ops IH]; intros m cid ch Hget Hty Hall;
      cbn [trace] in *; [constructor|].
    inversion Hall as [|m1 ms Hm1 Hrest]; subst.
    destruct (getChannel cid (run stringify op m)) as [ch1|] eqn:H1;
      [|now elim Hm1].
    clear Hm1.
    assert (Hty1 : Channel.type ch1 <> dm).
    { exact (run_no_demotion op m cid ch ch1 Hget Hty H1). }
    constructor.
    + exists ch1. split; [assumption | assumption].
    + exact (IH _ cid ch1 H1 Hty1 Hrest).
Qed.

End WithHost.

Lemma dm_promotion_is_one_way_witness :
  exists ch',
    getChannel (js "dm1")
      (run sample_stringify
         (AddMember 9000 (js "sys1") (js "dm1") (js "carol") (js "alice")) with_dm)
    = Some ch'
    /\ Channel.type ch' = group
    /\ Channel.members ch' = [js "alice"; js "bob"] ++ [js "carol"].
Proof.
  apply (proj1 (dm_promotion_is_one_way sample_stringify)
           9000 (js "sys1") (js "dm1") (js "carol") (js "alice") with_dm
           dm_alice_bob); reflexivity.
Defined.

End ChannelFacts.

(** ** Channels: leaving *)

Module LeaveFacts.
Import ChatManager Ops Samples ChannelFacts.

(** *** Dictionaries *)

Section DictFacts.
Context {V : Type}.

Lemma get_delete_other (k k' : jsstring) (d : Dict.t V) :
  k <> k' -> Dict.get k (Dict.delete k' d) = Dict.get k d.
Proof.
  intros Hk. induction d as [|[k0 v] d IH]; simpl; [reflexivity|].
  destruct (str_eqb_spec k' k0) as [<-|Hk0]; simpl.
  - destruct (str_eqb_spec k k'); [congruence | assumption].
  - now rewrite IH.
Qed.

Lemma get_set_same (k : jsstring) (v : V) (d : Dict.t V) :
  Dict.get k (Dict.set k v d) = Some v.
Proof.
  induction d as [|[k0 v0] d IH]; simpl.
  - now rewrite str_eqb_refl.
  - destruct (str_eqb_spec k k0) as [<-|Hk0]; simpl.
    + now rewrite str_eqb_refl.
    + destruct (str_eqb_spec k k0); [congruence | assumption].
Qed.

Lemma get_set_other (k k' : jsstring) (v : V) (d : Dict.t V) :
  k <> k' -> Dict.get k (Dict.set k' v d) = Dict.get k d.
Proof.
  intros Hk. induction d as [|[k0 v0] d IH]; simpl.
  - destruct (str_eqb_spec k k'); [congruence | reflexivity].
  - destruct (str_eqb_spec k' k0) as [<-|Hk0]; simpl.
    + destruct (str_eqb_spec k k'); [congruence | reflexivity].
    + now rewrite IH.
Qed.

Lemma keys_delete (k : jsstring) (d : Dict.t V) :
  ~ In k (Dict.keys (Dict.delete k d)).
Proof.
  unfold Dict.keys, Dict.delete. intros H. apply in_map_iff in H.
  destruct H as [[k0 v] [Hk Hin]]. simpl in Hk. subst k0.
  apply filter_In in Hin. destruct Hin as [_ Hf]. simpl in Hf.
  now rewrite str_eqb_refl in Hf.
Qed.

Lemma keys_filter (p : jsstring * V -> bool) (d : Dict.t V) (k : jsstring) :
  In k (Dict.keys (filter p d)) -> In k (Dict.keys d).
Proof.
  unfold Dict.keys. intros H. apply in_map_iff in H.
  destruct H as [kv [Hk Hin]]. apply filter_In in Hin.
  apply in_map_iff. exists kv. tauto.
Qed.
End DictFacts.

(** *** The ledgers of leaves and of additions *)

Lemma hasRecentlyLeftChannel_protected (now : Z) (cid : jsstring)
    (ledger : Dict.t Z) (leftTime : Z) :
  Dict.get cid ledger = Some leftTime ->
  leftTime <> 0 ->
  now - leftTime <= LEAVE_PROTECTION_DURATION ->
  hasRecentlyLeftChannel now cid ledger = (true, ledger).
Proof.
  intros Hget H0 Hage. unfold hasRecentlyLeftChannel. rewrite Hget.
  destruct (Z.eqb_spec leftTime 0); [contradiction|].
  destruct (Z.ltb_spec LEAVE_PROTECTION_DURATION (now - leftTime)); [lia|].
  reflexivity.
Qed.

Lemma hasRecentlyLeftChannel_keeps (now : Z) (cid cid' : jsstring)
    (ledger : Dict.t Z) (leftTime : Z) :
  Dict.get cid ledger = Some leftTime ->
  leftTime <> 0 ->
  now - leftTime <= LEAVE_PROTECTION_DURATION ->
  Dict.get cid (snd (hasRecentlyLeftChannel now cid' ledger)) = Some leftTime.
Proof.
  intros Hget H0 Hage.
  destruct (str_eqb_spec cid' cid) as [->|Hne].
  - now rewrite (hasRecentlyLeftChannel_protected now cid ledger leftTime).
  - unfold hasRecentlyLeftChannel.
    destruct (Dict.get cid' ledger) as [t'|]; [|assumption].
    destruct (t' =? 0); [assumption|].
    destruct (_ <? _); [|assumption].
    cbn [snd]. rewrite get_delete_other by congruence. assumption.
Qed.

Lemma getRecentlyAddedMembers_members (now : Z) (cid u : jsstring)
    (ledger : Dict.t (Dict.t Z)) :
  (forall channelMembers,
      Dict.get cid ledger = Some channelMembers ->
      ~ In u (Dict.keys channelMembers)) ->
  ~ In u (fst (getRecentlyAddedMembers now cid ledger)).
Proof.
  intros H. unfold getRecentlyAddedMembers.
  destruct (Dict.get cid ledger) as [channelMembers|]; [|now intros []].
  cbn [fst]. intros Hin. apply keys_filter in Hin. now apply (H channelMembers).
Qed.

Lemma getRecentlyAddedMembers_keeps (now : Z) (cid cid' u : jsstring)
    (ledger : Dict.t (Dict.t Z)) :
  (forall channelMembers,
      Dict.get cid ledger = Some channelMembers ->
      ~ In u (Dict.keys channelMembers)) ->
  forall channelMembers,
    Dict.get cid (snd (getRecentlyAddedMembers now cid' ledger))
    = Some channelMembers ->
    ~ In u (Dict.keys channelMembers).
Proof.
  intros H inner'. unfold getRecentlyAddedMembers.
  destruct (Dict.get cid' ledger) as [inner|] eqn:Hget'; [|apply H].
  cbn [snd]. destruct (str_eqb_spec cid cid') as [->|Hne].
  - rewrite get_set_same. intros [= <-] Hin.
    apply keys_filter in Hin. now apply (H inner).
  - rewrite get_set_other by assumption. apply H.
Qed.

Lemma keep_added_In (u : jsstring) (recentlyAdded : list jsstring) :
  forall members,
    In u (keep_added recentlyAdded members) ->
    In u recentlyAdded \/ In u members.
Proof.
  unfold keep_added.
  induction recentlyAdded as [|a l IH]; intros members H; simpl in H.
  - now right.
  - destruct (IH _ H) as [Hl|Hm]; [left; now right|].
    destruct (includes members a); [now right|].
    apply in_app_or in Hm. destruct Hm as [Hm|[<-|[]]].
    + now right.
    + left. now left.
Qed.

(** *** What leaves the ledgers alone *)

Section WithHost.
Variable stringify : ChatDataV2.t -> jsstring.

Lemma left_protected_ext (now : Z) (cid u : jsstring) (m m' : t) :
  ledgers m' = ledgers m ->
  left_protected now cid u m -> left_protected now cid u m'.
Proof.
  unfold ledgers, left_protected. intros [= -> -> ->]. auto.
Qed.

Lemma fold_left_ledgers {B : Type} (f : t -> B -> t) (l : list B) :
  (forall m b, ledgers (f m b) = ledgers m) ->
  forall m, ledgers (fold_left f l m) = ledgers m.
Proof.
  intros Hf. induction l as [|b l IH]; intros m; simpl; [reflexivity|].
  now rewrite IH, Hf.
Qed.

Lemma merge_channel_messages_save_ledgers (now : Z)
    (disk : Dict.t (list ChatMessage.t)) (m : t) (cid : jsstring) :
  ledgers (merge_channel_messages_save now disk m cid) = ledgers m.
Proof.
  unfold merge_channel_messages_save.
  destruct (Dict.get cid disk); [|reflexivity].
  destruct (Dict.get cid (channelMessages m)); [|reflexivity].
  destruct (fold_left _ _ _). reflexivity.
Qed.

Lemma merge_channel_messages_load_ledgers (now : Z)
    (disk : Dict.t (list ChatMessage.t)) (m : t) (cid : jsstring) :
  ledgers (merge_channel_messages_load now disk m cid) = ledgers m.
Proof.
  unfold merge_channel_messages_load.
  destruct (Dict.get cid disk); [|reflexivity].
  destruct (Dict.get cid (channelMessages m)).
  - destruct (fold_left _ _ _) as [[ours ledger] dismissed]. reflexivity.
  - destruct (filter_dismissed _ _ _). reflexivity.
Qed.

Lemma merge_mutedChannels_ledgers (disk : option (Dict.t (list jsstring)))
    (m : t) :
  ledgers (merge_mutedChannels disk m) = ledgers m.
Proof. destruct disk; reflexivity. Qed.

Lemma ensureRecentMessagesExist_ledgers (now : Z) (m : t) :
  ledgers (ensureRecentMessagesExist now m) = ledgers m.
Proof.
  unfold ensureRecentMessagesExist. apply fold_left_ledgers.
  intros m' [msgId entry]. unfold ensure_recent.
  destruct (_ <? _); [reflexivity|].
  destruct (existsb _ _); reflexivity.
Qed.

Lemma merge_on_save_ledgers (now : Z) (diskData : ChatDataV2.t) (m : t) :
  ledgers (merge_on_save now diskData m) = ledgers m.
Proof.
  unfold merge_on_save. rewrite merge_mutedChannels_ledgers.
  assert (H : forall m1 : t,
             ledgers (merge_readState (ChatDataV2.readState diskData) m1)
             = ledgers m1) by reflexivity.
  destruct (ChatDataV2.deletedChannels diskData).
  - change (ledgers (set_tombstones ?l ?x)) with (ledgers x).
    rewrite H. apply fold_left_ledgers.
    intros. apply merge_channel_messages_save_ledgers.
  - rewrite H. apply fold_left_ledgers.
    intros. apply merge_channel_messages_save_ledgers.
Qed.

Lemma saveChat_ledgers (now : Z) (m : t) :
  ledgers (saveChat stringify now m) = ledgers m.
Proof.
  unfold saveChat.
  change (ledgers (set_chatFile ?f (set_chatData ?d (set_tombstones ?l ?x))))
    with (ledgers x).
  rewrite ensureRecentMessagesExist_ledgers.
  destruct (chatFile m) as [| |[d|d]]; try reflexivity.
  apply merge_on_save_ledgers.
Qed.

Lemma isRecentlyDeletedChannel_ledgers (now : Z) (cid : jsstring) (m : t) :
  ledgers (snd (isRecentlyDeletedChannel now cid m)) = ledgers m.
Proof.
  unfold isRecentlyDeletedChannel.
  destruct (Dict.get cid (recentlyDeletedChannels m)) as [deletedTime|].
  - destruct (deletedTime =? 0).
    + destruct (ChatDataV2.deletedChannels (chatData m)) as [l|]; [|reflexivity].
      destruct (find _ l); [|reflexivity].
      destruct (_ <=? _); reflexivity.
    + destruct (_ <=? _); [reflexivity|].
      cbn [chatData set_recentlyDeletedChannels].
      destruct (ChatDataV2.deletedChannels (chatData m)) as [l|]; [|reflexivity].
      destruct (find _ l); [|reflexivity].
      destruct (_ <=? _); reflexivity.
  - destruct (ChatDataV2.deletedChannels (chatData m)) as [l|]; [|reflexivity].
    destruct (find _ l); [|reflexivity].
    destruct (_ <=? _); reflexivity.
Qed.

Lemma remove_deleted_channels_ledgers (diskData : ChatDataV2.t) (m : t) :
  ledgers (remove_deleted_channels diskData m) = ledgers m.
Proof.
  unfold remove_deleted_channels. apply fold_left_ledgers. reflexivity.
Qed.

Lemma deleteChannel_ledgers (now : Z) (cid : jsstring) (m : t) :
  ledgers (snd (deleteChannel stringify now cid m)) = ledgers m.
Proof.
  unfold deleteChannel.
  destruct (str_eqb cid GENERAL_CHANNEL_ID); [reflexivity|].
  cbn [snd]. rewrite saveChat_ledgers.
  match goal with
  | |- ledgers (if ?b then _ else _) = _ => destruct b
  end; reflexivity.
Qed.

(** *** The channel merge keeps the user out *)

Lemma find_last_index_Some {A : Type} (p : A -> bool) (l : list A) : forall i,
  find_last_index p l = Some i ->
  exists x, nth_error l i = Some x /\ p x = true.
Proof.
  induction l as [|y l IH]; intros i H; simpl in H; [discriminate|].
  destruct (find_last_index p l) as [j|].
  - injection H as <-. simpl. now apply IH.
  - destruct (p y) eqn:Hp; [|discriminate].
    injection H as <-. exists y. split; [reflexivity | assumption].
Qed.

Lemma grows_nth (D : jsstring -> Prop) (l0 l : list Channel.t) :
  grows D l0 l ->
  forall i c0, nth_error l0 i = Some c0 ->
  exists c, nth_error l i = Some c /\ Channel.id c0 = Channel.id c.
Proof.
  intros H. induction H as [extra Hex | a b l0 l Hab H IH]; intros i c0 Hn.
  - destruct i; discriminate.
  - destruct i as [|i]; simpl in *.
    + injection Hn as <-. exists b. split; [reflexivity | apply Hab].
    + now apply IH.
Qed.

Lemma find_update_cases {A : Type} (p : A -> bool) (f : A -> A) (l : list A) :
  (forall c, p (f c) = p c) ->
  forall i ch,
    find p (update_nth i f l) = Some ch ->
    find p l = Some ch
    \/ exists c, nth_error l i = Some c /\ ch = f c /\ p c = true.
Proof.
  intros Hf. induction l as [|y l IH]; intros i ch H; simpl in H.
  - destruct i; discriminate.
  - destruct i as [|i]; simpl in H.
    + rewrite Hf in H. simpl. destruct (p y) eqn:Hp.
      * injection H as <-. right. exists y. repeat split; assumption.
      * now left.
    + simpl. destruct (p y); [now left|].
      destruct (IH i ch H) as [Hl|[c [Hn [Hc Hp]]]]; [now left|].
      right. exists c. repeat split; assumption.
Qed.

Lemma find_push_cases {A : Type} (p : A -> bool) (l : list A) (c ch : A) :
  find p (l ++ [c]) = Some ch ->
  find p l = Some ch \/ (ch = c /\ p c = true).
Proof.
  induction l as [|y l IH]; simpl.
  - destruct (p c) eqn:Hp; [|discriminate].
    intros H. injection H as H. right. split; [now symmetry | reflexivity].
  - destruct (p y); [now left | assumption].
Qed.

Lemma merge_name_members (diskChannel c : Channel.t) :
  Channel.members (merge_name diskChannel c) = Channel.members c.
Proof. unfold merge_name. destruct (_ && _); reflexivity. Qed.

Lemma merge_name_id (diskChannel c : Channel.t) :
  Channel.id (merge_name diskChannel c) = Channel.id c.
Proof. unfold merge_name. destruct (_ && _); reflexivity. Qed.

Lemma merged_members_protected (now : Z) (cid u : jsstring)
    (diskChannel : Channel.t) (m : t) :
  left_protected now cid u m ->
  left_protected now cid u (snd (merged_members now diskChannel m))
  /\ (Channel.id diskChannel = cid ->
      ~ In u (fst (merged_members now diskChannel m))).
Proof.
  intros [[cu [Hcu Hname]] [[leftTime [Hleft [H0 Hage]]] Hadded]].
  unfold merged_members, drop_if_left. rewrite Hcu.
  pose proof (hasRecentlyLeftChannel_keeps now cid (Channel.id diskChannel)
                _ _ Hleft H0 Hage) as Hkeep.
  pose proof (hasRecentlyLeftChannel_protected now cid _ _ Hleft H0 Hage) as Hprot.
  destruct (hasRecentlyLeftChannel now (Channel.id diskChannel)
              (recentlyLeftChannels m)) as [hasLeft ledger] eqn:Hhas.
  cbn [snd] in Hkeep.
  assert (Hmembers : forall members1 m1,
             recentlyAddedMembers m1 = recentlyAddedMembers m ->
             currentUser m1 = currentUser m ->
             recentlyLeftChannels m1 = ledger ->
             (Channel.id diskChannel = cid -> ~ In u members1) ->
             let r := getRecentlyAddedMembers now (Channel.id diskChannel)
                        (recentlyAddedMembers m1) in
             left_protected now cid u (set_recentlyAddedMembers (snd r) m1)
             /\ (Channel.id diskChannel = cid ->
                 ~ In u (keep_added (fst r) members1))).
  { intros members1 m1 Ha Hc Hl Hm1 r. subst r. rewrite Ha. split.
    - split; [|split].
      + exists cu. cbn [currentUser set_recentlyAddedMembers].
        rewrite Hc. split; assumption.
      + exists leftTime. cbn [recentlyLeftChannels set_recentlyAddedMembers].
        rewrite Hl. repeat split; assumption.
      + cbn [recentlyAddedMembers set_recentlyAddedMembers].
        now apply getRecentlyAddedMembers_keeps.
    - intros Hid Hin. apply keep_added_In in Hin. destruct Hin as [Hin|Hin].
      + rewrite Hid in Hin.
        now apply (getRecentlyAddedMembers_members now cid u _ Hadded).
      + now apply Hm1. }
  destruct hasLeft.
  - specialize (Hmembers
                  (filter (fun x => negb (str_eqb x (VaultUser.vaultName cu)))
                          (Channel.members diskChannel))
                  (set_recentlyLeftChannels ledger m)
                  eq_refl eq_refl eq_refl).
    cbv zeta in Hmembers.
    destruct (getRecentlyAddedMembers now (Channel.id diskChannel)
                (recentlyAddedMembers (set_recentlyLeftChannels ledger m)))
      as [recentlyAdded ledger'].
    apply Hmembers. intros _ Hin. apply filter_In in Hin.
    destruct Hin as [_ Hin]. rewrite Hname in Hin.
    now rewrite str_eqb_refl in Hin.
  - specialize (Hmembers (Channel.members diskChannel)
                  (set_recentlyLeftChannels ledger m)
                  eq_refl eq_refl eq_refl).
    cbv zeta in Hmembers.
    destruct (getRecentlyAddedMembers now (Channel.id diskChannel)
                (recentlyAddedMembers (set_recentlyLeftChannels ledger m)))
      as [recentlyAdded ledger'].
    apply Hmembers. intros Hid. rewrite Hid, Hprot in Hhas. discriminate.
Qed.

Lemma merge_disk_channel_keeps_out (now : Z) (cid u : jsstring)
    (ours0 : list Channel.t) (m : t) (diskChannel : Channel.t) :
  merge_invariant now cid u ours0 m ->
  merge_invariant now cid u ours0 (merge_disk_channel now ours0 m diskChannel).
Proof.
  intros [Hprot [Hout Hgrows]].
  split; [|split]; [| |apply merge_disk_channel_grows; [exact I | assumption]].
  - (* the ledgers *)
    unfold merge_disk_channel.
    pose proof (isRecentlyDeletedChannel_ledgers now (Channel.id diskChannel) m) as Hl.
    destruct (isRecentlyDeletedChannel now (Channel.id diskChannel) m) as [skip m1].
    cbn [snd] in Hl.
    pose proof (left_protected_ext now cid u m m1 Hl Hprot) as Hprot1.
    destruct skip; [assumption|].
    destruct (merged_members_protected now cid u diskChannel m1 Hprot1) as [Hp2 _].
    destruct (merged_members now diskChannel m1) as [members m2].
    cbn [snd] in Hp2.
    destruct (find_last_index _ ours0);
      (eapply left_protected_ext; [|exact Hp2]); reflexivity.
  - (* the member list found under [cid] *)
    unfold merge_disk_channel.
    pose proof (isRecentlyDeletedChannel_ledgers now (Channel.id diskChannel) m) as Hl.
    pose proof (isRecentlyDeletedChannel_channels now (Channel.id diskChannel) m) as Hc.
    destruct (isRecentlyDeletedChannel now (Channel.id diskChannel) m) as [skip m1].
    cbn [snd] in Hl, Hc.
    pose proof (left_protected_ext now cid u m m1 Hl Hprot) as Hprot1.
    assert (Hout1 : not_member cid u m1).
    { unfold not_member, getChannel. rewrite Hc. exact Hout. }
    destruct skip; [assumption|].
    destruct (merged_members_protected now cid u diskChannel m1 Hprot1) as [_ Hm].
    pose proof (merged_members_channels now diskChannel m1) as Hc2.
    destruct (merged_members now diskChannel m1) as [members m2].
    cbn [fst snd] in Hm, Hc2.
    destruct (find_last_index _ ours0) as [i|] eqn:Hi.
    + intros ch Hget. unfold getChannel in Hget.
      change (channels (upd_channels ?f m2)) with (f (channels m2)) in Hget.
      apply find_update_cases in Hget.
      * destruct Hget as [Hold|[c [Hn [-> Hp]]]].
        -- apply Hout1. unfold getChannel. now rewrite <- Hc2.
        -- rewrite merge_name_members. cbn [Channel.members Channel.set_members].
           apply Hm.
           destruct (find_last_index_Some _ _ _ Hi) as [c0 [Hn0 Hp0]].
           destruct (grows_nth _ _ _ Hgrows i c0 Hn0) as [c' [Hn' Hid]].
           rewrite <- Hc, <- Hc2, Hn in Hn'. injection Hn' as <-.
           unfold has_channel_id in Hp, Hp0.
           apply str_eqb_eq in Hp, Hp0. congruence.
      * intros c. unfold has_channel_id. now rewrite merge_name_id.
    + intros ch Hget. unfold getChannel in Hget.
      change (channels (upd_channels ?f m2)) with (f (channels m2)) in Hget.
      cbv beta in Hget. apply find_push_cases in Hget.
      destruct Hget as [Hold|[-> Hp]].
      * apply Hout1. unfold getChannel. now rewrite <- Hc2.
      * cbn [Channel.members Channel.set_members]. apply Hm.
        unfold has_channel_id in Hp. now apply str_eqb_eq in Hp.
Qed.

Lemma merge_channels_keeps_out (now : Z) (cid u : jsstring)
    (diskChannels : list Channel.t) (m : t) :
  left_protected now cid u m ->
  not_member cid u m ->
  left_protected now cid u (merge_channels now diskChannels m)
  /\ not_member cid u (merge_channels now diskChannels m).
Proof.
  intros Hprot Hout.
  assert (H : merge_invariant now cid u (channels m)
                (merge_channels now diskChannels m)).
  { unfold merge_channels.
    apply (fold_left_invariant (merge_invariant now cid u (channels m))).
    - intros m' diskChannel _. apply merge_disk_channel_keeps_out.
    - repeat split; try assumption; try apply Hprot. apply grows_refl. }
  destruct H as [H1 [H2 _]]. now split.
Qed.

Lemma merge_on_load_keeps_out (now : Z) (cid u : jsstring)
    (diskData : ChatDataV2.t) (m : t) :
  left_protected now cid u m ->
  not_member cid u m ->
  not_member cid u (merge_on_load now diskData m).
Proof.
  intros Hprot Hout.
  set (m1 := merge_tombstones now diskData m).
  assert (Hp1 : left_protected now cid u m1).
  { eapply left_protected_ext; [|exact Hprot]. reflexivity. }
  assert (Ho1 : not_member cid u m1) by exact Hout.
  set (m2 := remove_deleted_channels diskData m1).
  assert (Hp2 : left_protected now cid u m2).
  { eapply left_protected_ext; [|exact Hp1].
    apply remove_deleted_channels_ledgers. }
  assert (Ho2 : not_member cid u m2).
  { intros ch Hget. unfold getChannel, m2, remove_deleted_channels in Hget.
    rewrite find_after_removals in Hget.
    destruct (includes _ cid); [discriminate|]. now apply Ho1. }
  destruct (merge_channels_keeps_out now cid u (ChatDataV2.channels diskData)
              m2 Hp2 Ho2) as [_ Ho3].
  intros ch Hget. unfold getChannel in Hget.
  rewrite merge_on_load_channels in Hget. now apply Ho3.
Qed.

(** *** [leaveChannel] records the leave *)

Lemma leaveChannel_records (leftAt now : Z) (newId cid : jsstring)
    (cu : VaultUser.t) (m : t) :
  currentUser m = Some cu ->
  fst (leaveChannel stringify leftAt newId cid (VaultUser.vaultName cu) m)
  <> Returns NotLeft ->
  leftAt <> 0 ->
  now - leftAt <= LEAVE_PROTECTION_DURATION ->
  let m' := snd (leaveChannel stringify leftAt newId cid
                   (VaultUser.vaultName cu) m) in
  left_protected now cid (VaultUser.vaultName cu) m'
  /\ not_member cid (VaultUser.vaultName cu) m'.
Proof.
  intros Hcu Hres H0 Hage. set (u := VaultUser.vaultName cu) in *.
  revert Hres. unfold leaveChannel.
  destruct (UserManager.find_index _ _) as [i|] eqn:Hi; [|now intros []].
  destruct (find_index_Some _ _ _ Hi) as [channel [Hn [Hfind Hid]]].
  rewrite Hn.
  destruct (ChannelType_eqb _ general); [now intros []|].
  intros _.
  set (remaining := filter _ (Channel.members channel)).
  (* the manager before the channel is deleted or the notice is pushed *)
  match goal with
  | |- context [deleteChannel stringify leftAt cid ?x] => set (m4 := x)
  end.
  assert (Hch4 : channels m4
                 = update_nth i (Channel.set_members remaining) (channels m)).
  { unfold m4. destruct (Dict.get cid (recentlyAddedMembers _));
      match goal with
      | |- channels (if ?b then _ else _) = _ => destruct b
      end; reflexivity. }
  assert (Hcu4 : currentUser m4 = Some cu).
  { unfold m4. rewrite <- Hcu. destruct (Dict.get cid (recentlyAddedMembers _));
      match goal with
      | |- currentUser (if ?b then _ else _) = _ => destruct b
      end; reflexivity. }
  assert (Hleft4 : Dict.get cid (recentlyLeftChannels m4) = Some leftAt).
  { unfold m4. destruct (Dict.get cid (recentlyAddedMembers _));
      match goal with
      | |- Dict.get cid (recentlyLeftChannels (if ?b then _ else _)) = _ =>
          destruct b
      end; apply get_set_same. }
  assert (Hadd4 : forall channelMembers,
             Dict.get cid (recentlyAddedMembers m4) = Some channelMembers ->
             ~ In u (Dict.keys channelMembers)).
  { intros inner. unfold m4.
    destruct (Dict.get cid (recentlyAddedMembers _)) as [old|] eqn:Hold;
      match goal with
      | |- Dict.get cid (recentlyAddedMembers (if ?b then _ else _)) = _ -> _ =>
          destruct b
      end;
      cbn [recentlyAddedMembers set_recentlyAddedMembers set_activeChannelId];
      try (rewrite get_set_same; intros [= <-]; apply keys_delete);
      cbn [recentlyAddedMembers set_recentlyLeftChannels upd_channels
           set_chatData] in Hold |- *;
      rewrite Hold; discriminate. }
  assert (Hp4 : left_protected now cid u m4).
  { split; [|split].
    - exists cu. split; [assumption | reflexivity].
    - exists leftAt. repeat split; assumption.
    - exact Hadd4. }
  assert (Ho4 : not_member cid u m4).
  { intros ch Hget. unfold getChannel in Hget. rewrite Hch4 in Hget.
    rewrite (find_update_nth _ (Channel.set_members remaining) _ i channel Hi Hn)
      in Hget by exact Hid.
    injection Hget as <-. cbn [Channel.members Channel.set_members].
    unfold remaining. intros Hin. apply filter_In in Hin.
    destruct Hin as [_ Hin]. now rewrite str_eqb_refl in Hin. }
  clearbody m4.
  destruct remaining as [|r rs]; cbn [snd].
  - split.
    + eapply left_protected_ext; [apply deleteChannel_ledgers | exact Hp4].
    + intros ch Hget. unfold getChannel in Hget.
      rewrite deleteChannel_channels in Hget.
      destruct (str_eqb cid GENERAL_CHANNEL_ID); [now apply Ho4|].
      rewrite find_after_removal, str_eqb_refl in Hget. discriminate.
  - match goal with
    | |- context [push_message ?c ?msg m4] =>
        destruct (push_message c msg m4) as [m5|] eqn:Hpush
    end; cbn [snd]; [|now split].
    assert (Hl5 : ledgers m5 = ledgers m4).
    { unfold push_message in Hpush.
      destruct (Dict.get cid (channelMessages m4)); [|discriminate].
      now injection Hpush as <-. }
    split.
    + eapply left_protected_ext; [|exact Hp4].
      now rewrite saveChat_ledgers.
    + intros ch Hget. unfold getChannel in Hget.
      rewrite saveChat_channels, (push_message_channels _ _ _ _ Hpush) in Hget.
      now apply Ho4.
Qed.

Lemma loadChat_keeps_out (now : Z) (cid u : jsstring)
    (reads : nat -> File ChatData) (m : t) :
  left_protected now cid u m ->
  not_member cid u m ->
  channels m <> [] ->
  not_member cid u (loadChat stringify now reads m).
Proof.
  intros Hprot Hout Hne.
  assert (Hmerge : forall diskData,
             not_member cid u
               (ensureRecentMessagesExist now (merge_on_load now diskData m))).
  { intros diskData ch Hget. unfold getChannel in Hget.
    rewrite ensureRecentMessagesExist_channels in Hget.
    now apply (merge_on_load_keeps_out now cid u diskData m Hprot Hout). }
  unfold loadChat.
  destruct (chatFile m) as [| |c].
  - intros ch Hget. unfold getChannel in Hget.
    rewrite ensureRecentMessagesExist_channels, saveChat_channels in Hget.
    apply find_some in Hget. destruct Hget as [[<-|[]] _]. intros [].
  - destruct (fst (read_with_retry stringify reads)) as [rawData|];
      destruct (channels m) eqn:E; try (now elim Hne); auto.
  - destruct (fst (read_with_retry stringify reads)) as [rawData|];
      destruct (channels m) eqn:E; try (now elim Hne); auto.
Qed.

End WithHost.

End LeaveFacts.

(** ** Reactions *)

Module ReactionFacts.
Import ChatManager Ops Samples LeaveFacts.

(** *** The emoji map *)

Lemma set_add_In (x u : jsstring) (s : list jsstring) :
  In u (set_add x s) <-> In u s \/ u = x.
Proof.
  unfold set_add. destruct (includes s x) eqn:E.
  - apply includes_In in E. split; [now left|]. intros [H| ->]; assumption.
  - rewrite in_app_iff. simpl. split.
    + intros [H|[H|[]]]; [now left | now right].
    + intros [H|H]; [now left | right; now left].
Qed.

Lemma has_set {V : Type} (k k' : jsstring) (v : V) (d : Dict.t V) :
  Dict.has k (Dict.set k' v d) = str_eqb k k' || Dict.has k d.
Proof.
  unfold Dict.has. destruct (str_eqb_spec k k') as [->|Hne]; simpl.
  - now rewrite get_set_same.
  - now rewrite get_set_other.
Qed.

Lemma ensure_emoji_has (e : jsstring) (em : EmojiMap) :
  Dict.has e (ensure_emoji e em) = true.
Proof.
  unfold ensure_emoji. destruct (Dict.has e em) eqn:E; [assumption|].
  rewrite has_set. now rewrite str_eqb_refl.
Qed.

Lemma ensure_emoji_pair (e' : jsstring) (em : EmojiMap) (e u : jsstring) :
  has_pair (ensure_emoji e' em) e u <-> has_pair em e u.
Proof.
  unfold ensure_emoji, has_pair. destruct (Dict.has e' em) eqn:E; [reflexivity|].
  unfold Dict.has in E. destruct (str_eqb_spec e e') as [->|Hne].
  - rewrite get_set_same. destruct (Dict.get e' em); [discriminate|].
    split; intros [us [H Hin]]; [|discriminate].
    injection H as <-. destruct Hin.
  - now rewrite get_set_other.
Qed.

Lemma add_user_has (e' u' e : jsstring) (em : EmojiMap) :
  Dict.has e (add_user e' u' em) = Dict.has e em.
Proof.
  unfold add_user. destruct (Dict.get e' em) as [us|] eqn:E; [|reflexivity].
  rewrite has_set. destruct (str_eqb_spec e e') as [->|]; [|reflexivity].
  unfold Dict.has. now rewrite E.
Qed.

Lemma add_user_pair (e' u' : jsstring) (em : EmojiMap) (e u : jsstring) :
  Dict.has e' em = true ->
  has_pair (add_user e' u' em) e u <-> has_pair em e u \/ (e = e' /\ u = u').
Proof.
  intros Hhas. unfold add_user, has_pair. unfold Dict.has in Hhas.
  destruct (Dict.get e' em) as [us'|] eqn:E; [|discriminate].
  destruct (str_eqb_spec e e') as [->|Hne].
  - rewrite get_set_same, E. split.
    + intros [us [H Hin]]. injection H as <-. apply set_add_In in Hin.
      destruct Hin as [Hin| ->]; [left; now exists us' | now right].
    + intros [[us [H Hin]]|[_ ->]].
      * injection H as <-. eexists. split; [reflexivity|].
        apply set_add_In. now left.
      * eexists. split; [reflexivity|]. apply set_add_In. now right.
  - rewrite get_set_other by assumption. split; [now left|].
    intros [H|[H _]]; [assumption | contradiction].
Qed.

Lemma wf_set {V : Type} (k : jsstring) (v : V) (d : Dict.t V) :
  Dict.wf d -> Dict.wf (Dict.set k v d).
Proof.
  unfold Dict.wf, Dict.keys.
  assert (Hkeys : forall d : Dict.t V,
             map fst (Dict.set k v d)
             = if Dict.has k d then map fst d else map fst d ++ [k]).
  { clear d. induction d as [|[k0 v0] d IH]; simpl; [reflexivity|].
    unfold Dict.has. simpl. destruct (str_eqb k k0) eqn:E; simpl; [reflexivity|].
    rewrite IH. unfold Dict.has. now destruct (Dict.get k d). }
  intros H. rewrite Hkeys. destruct (Dict.has k d) eqn:E; [assumption|].
  assert (Hk : ~ In k (map fst d)).
  { clear H. unfold Dict.has in E. induction d as [|[k0 v0] d IH]; simpl in *; [tauto|].
    destruct (str_eqb_spec k k0) as [|Hne]; [discriminate|].
    intros [H|H]; [congruence | now apply IH]. }
  clear E. induction d as [|[k0 v0] d IH]; simpl in *.
  - constructor; [tauto | constructor].
  - inversion H as [|? ? Hn Hd]; subst. constructor.
    + rewrite in_app_iff. simpl. intros [Hin|[Hin|[]]]; [contradiction|].
      apply Hk. now left.
    + apply IH; [assumption|]. intros Hin. apply Hk. now right.
Qed.

Lemma ensure_emoji_wf (e : jsstring) (em : EmojiMap) :
  Dict.wf em -> Dict.wf (ensure_emoji e em).
Proof.
  unfold ensure_emoji. destruct (Dict.has e em); [auto | apply wf_set].
Qed.

Lemma add_user_wf (e u : jsstring) (em : EmojiMap) :
  Dict.wf em -> Dict.wf (add_user e u em).
Proof.
  unfold add_user. destruct (Dict.get e em); [apply wf_set | auto].
Qed.

Lemma get_In {V : Type} (k : jsstring) (v : V) (d : Dict.t V) :
  Dict.get k d = Some v -> In (k, v) d.
Proof.
  induction d as [|[k0 v0] d IH]; simpl; [discriminate|].
  destruct (str_eqb_spec k k0) as [->|].
  - intros [= ->]. now left.
  - intros H. right. now apply IH.
Qed.

Lemma In_get {V : Type} (k : jsstring) (v : V) (d : Dict.t V) :
  Dict.wf d -> In (k, v) d -> Dict.get k d = Some v.
Proof.
  unfold Dict.wf, Dict.keys.
  induction d as [|[k0 v0] d IH]; simpl; intros Hwf Hin; [contradiction|].
  inversion Hwf as [|? ? Hn Hd]; subst.
  destruct Hin as [[= -> ->]|Hin].
  - now rewrite str_eqb_refl.
  - destruct (str_eqb_spec k k0) as [->|]; [|now apply IH].
    elim Hn. apply in_map_iff. now exists (k0, v).
Qed.

Lemma to_reactions_pairs (em : EmojiMap) (e u : jsstring) :
  Dict.wf em ->
  In (e, u) (pairs_of (Some (to_reactions em))) <-> has_pair em e u.
Proof.
  intros Hwf. unfold pairs_of, to_reactions, has_pair.
  rewrite in_flat_map. split.
  - intros [r [Hr Hin]]. apply in_flat_map in Hr. destruct Hr as [[k us] [Hkv Hr]].
    simpl in Hr. destruct us as [|u0 us]; [contradiction|].
    destruct Hr as [<-|[]]. simpl in Hin. exists (u0 :: us).
    split.
    + apply In_get; [assumption|].
      assert (Hk : k = e).
      { destruct Hin as [[= -> _]|Hin]; [reflexivity|].
        apply in_map_iff in Hin. now destruct Hin as [x [[= -> _] _]]. }
      now subst.
    + destruct Hin as [[= _ ->]|Hin]; [now left|].
      apply in_map_iff in Hin. destruct Hin as [x [[= _ ->] Hx]]. now right.
  - intros [us [Hget Hin]]. apply get_In in Hget.
    destruct us as [|u0 us]; [contradiction|].
    exists (ChatReaction.mk e (u0 :: us)). split.
    + apply in_flat_map. exists (e, u0 :: us). split; [assumption | now left].
    + cbn [ChatReaction.emoji ChatReaction.users]. now apply in_map.
Qed.

Lemma pairs_of_some_if_nonempty (l : list ChatReaction.t) :
  pairs_of (some_if_nonempty l) = pairs_of (Some l).
Proof. destruct l; reflexivity. Qed.

Lemma pairs_of_In (l : list ChatReaction.t) (e u : jsstring) :
  In (e, u) (pairs_of (Some l))
  <-> exists r, In r l /\ e = ChatReaction.emoji r /\ In u (ChatReaction.users r).
Proof.
  unfold pairs_of. rewrite in_flat_map. split.
  - intros [r [Hr Hin]]. exists r. split; [assumption|].
    apply in_map_iff in Hin. destruct Hin as [x [[= -> ->] Hx]]. now split.
  - intros [r [Hr [-> Hin]]]. exists r. split; [assumption | now apply in_map].
Qed.

(** *** First loop: our reactions *)

Lemma fold_add_user (e : jsstring) (us : list jsstring) : forall em,
  Dict.has e em = true ->
  Dict.wf em ->
  let em' := fold_left (fun em0 u => add_user e u em0) us em in
  Dict.wf em'
  /\ (forall e', Dict.has e' em' = Dict.has e' em)
  /\ (forall e' u', has_pair em' e' u'
                    <-> has_pair em e' u' \/ (e' = e /\ In u' us)).
Proof.
  induction us as [|u us IH]; intros em Hhas Hwf; simpl.
  - repeat split; auto. intros [H|[_ []]]; assumption.
  - assert (Hhas' : Dict.has e (add_user e u em) = true)
      by now rewrite add_user_has.
    destruct (IH _ Hhas' (add_user_wf e u em Hwf)) as [Hw [Hh Hp]].
    split; [assumption|]. split.
    + intros e'. now rewrite Hh, add_user_has.
    + intros e' u'. rewrite Hp, add_user_pair by assumption. intuition congruence.
Qed.

Lemma collect_reaction_spec (em : EmojiMap) (r : ChatReaction.t) :
  Dict.wf em ->
  Dict.wf (collect_reaction em r)
  /\ (forall e u, has_pair (collect_reaction em r) e u
                  <-> has_pair em e u
                      \/ (e = ChatReaction.emoji r /\ In u (ChatReaction.users r))).
Proof.
  intros Hwf. unfold collect_reaction.
  destruct (fold_add_user (ChatReaction.emoji r) (ChatReaction.users r)
              (ensure_emoji (ChatReaction.emoji r) em)
              (ensure_emoji_has _ _) (ensure_emoji_wf _ _ Hwf)) as [Hw [_ Hp]].
  split; [assumption|]. intros e u. now rewrite Hp, ensure_emoji_pair.
Qed.

Lemma collect_ours_spec (rs : option (list ChatReaction.t)) :
  Dict.wf (collect_ours rs)
  /\ (forall e u, has_pair (collect_ours rs) e u <-> In (e, u) (pairs_of rs)).
Proof.
  assert (Hnil : forall e u, ~ has_pair [] e u).
  { intros e u [us [H _]]. discriminate. }
  destruct rs as [l|]; simpl collect_ours.
  - assert (H : forall l em,
               Dict.wf em ->
               Dict.wf (fold_left collect_reaction l em)
               /\ (forall e u, has_pair (fold_left collect_reaction l em) e u
                               <-> has_pair em e u \/ In (e, u) (pairs_of (Some l)))).
    { clear l. induction l as [|r l IH]; intros em Hwf; cbn [fold_left].
      - split; [assumption|]. intros e u. simpl. tauto.
      - destruct (collect_reaction_spec em r Hwf) as [Hw Hp].
        destruct (IH _ Hw) as [Hw' Hp']. split; [assumption|].
        intros e u. rewrite Hp', Hp, !pairs_of_In. split.
        + intros [[H|[He Hu]]|[r' [Hr' H]]].
          * now left.
          * right. exists r. split; [now left | now split].
          * right. exists r'. split; [now right | assumption].
        + intros [H|[r' [[<-|Hr'] H]]].
          * left. now left.
          * left. now right.
          * right. now exists r'. }
    destruct (H l [] (NoDup_nil _)) as [Hw Hp]. split; [assumption|].
    intros e u. rewrite Hp. split; [|now right].
    intros [H'|H']; [now elim (Hnil e u) | assumption].
  - split; [apply NoDup_nil|]. intros e u. split; [intros H; now elim (Hnil e u)|].
    intros [].
Qed.

(** *** The ledger of toggles *)

Lemma toggles_delete_keys (key : jsstring) (toggles : list Toggle) :
  NoDup (map key_of toggles) ->
  NoDup (map key_of (toggles_delete key toggles)).
Proof.
  unfold toggles_delete.
  induction toggles as [|tg toggles IH]; cbn [filter map]; intros Hnd;
    [constructor|].
  inversion Hnd as [|? ? Hfirst Hrest]; subst.
  destruct (negb (str_eqb key (key_of tg))); cbn [map]; [|now apply IH].
  constructor; [|now apply IH].
  intros Hin. apply Hfirst. apply in_map_iff in Hin.
  destruct Hin as [x [Hx Hin]]. apply filter_In in Hin.
  apply in_map_iff. exists x. tauto.
Qed.

Lemma NoDup_map_inj {A B : Type} (f : A -> B) (l : list A) (a b : A) :
  NoDup (map f l) -> In a l -> In b l -> f a = f b -> a = b.
Proof.
  induction l as [|x l IH]; simpl; intros H Ha Hb Hab; [contradiction|].
  inversion H as [|? ? Hn Hd]; subst.
  destruct Ha as [->|Ha], Hb as [->|Hb]; auto.
  - elim Hn. rewrite Hab. now apply in_map.
  - elim Hn. rewrite <- Hab. now apply in_map.
Qed.

Lemma filter_filter_same {A : Type} (p q : A -> bool) (l : list A) :
  (forall x, In x l -> p x = true -> q x = true) ->
  filter p (filter q l) = filter p l.
Proof.
  induction l as [|a l IH]; simpl; intros H; [reflexivity|].
  assert (IH' : filter p (filter q l) = filter p l).
  { apply IH. intros x Hx. apply H. now right. }
  destruct (q a) eqn:Hq; simpl.
  - now rewrite IH'.
  - destruct (p a) eqn:Hp; [|assumption].
    rewrite (H a (or_introl eq_refl) Hp) in Hq. discriminate.
Qed.

Lemma toggles_get_Some (key : jsstring) (l : list Toggle) (tg : Toggle) :
  toggles_get key l = Some tg -> In tg l /\ key_of tg = key.
Proof.
  unfold toggles_get. intros H. apply find_some in H.
  destruct H as [Hin Hk]. apply str_eqb_eq in Hk. now split.
Qed.

Lemma toggles_get_None (key : jsstring) (l : list Toggle) (tg : Toggle) :
  toggles_get key l = None -> In tg l -> key_of tg <> key.
Proof.
  unfold toggles_get. intros H Hin Hk.
  pose proof (find_none _ _ H tg Hin) as Hf. cbv beta in Hf.
  rewrite Hk, str_eqb_refl in Hf. discriminate.
Qed.

Lemma fresh_expired (now : Z) (tg : Toggle) :
  fresh now tg = negb (REACTION_TOGGLE_PROTECTION_DURATION <? now - toggledAt tg).
Proof. reflexivity. Qed.

Lemma toggles_of_set (messageId : jsstring) (l : list Toggle)
    (ledger : Dict.t (list Toggle)) :
  toggles_of messageId (Dict.set messageId l ledger) = l.
Proof. unfold toggles_of. now rewrite get_set_same. Qed.

Lemma fresh_In (now : Z) (l l0 : list Toggle) (tg : Toggle) :
  filter (fresh now) l = filter (fresh now) l0 ->
  fresh now tg = true ->
  In tg l <-> In tg l0.
Proof.
  intros H Hf.
  assert (Hl : forall l', In tg l' <-> In tg (filter (fresh now) l')).
  { intros l'. rewrite filter_In. tauto. }
  now rewrite (Hl l), (Hl l0), H.
Qed.

(** A lookup keeps the ledger in step, and answers "removed" exactly for the
    pairs toggled off within the window. *)
Lemma getRecentReactionToggle_spec (now : Z) (messageId e u : jsstring)
    (toggles0 : list Toggle) (ledger : Dict.t (list Toggle)) :
  ledger_ok now messageId toggles0 ledger ->
  ledger_ok now messageId toggles0
    (snd (getRecentReactionToggle now messageId e u ledger))
  /\ (fst (getRecentReactionToggle now messageId e u ledger) = Some false
      <-> toggled_off now toggles0 e u).
Proof.
  intros [Hnd Hfr]. unfold getRecentReactionToggle.
  assert (Hoff : forall tg, In tg toggles0 -> fresh now tg = true ->
                            In tg (toggles_of messageId ledger)).
  { intros tg Hin Hf. now apply (fresh_In now _ _ tg Hfr Hf). }
  unfold toggles_of in Hnd, Hfr, Hoff.
  destruct (Dict.get messageId ledger) as [msgToggles|] eqn:Hget.
  - destruct (toggles_get (toggleKey e u) msgToggles) as [toggle|] eqn:Htg.
    + destruct (toggles_get_Some _ _ _ Htg) as [Hin Hkey].
      destruct (REACTION_TOGGLE_PROTECTION_DURATION <? now - toggledAt toggle)
        eqn:Hexp; cbn [fst snd].
      * (* expired: the entry is deleted *)
        assert (Hfalse : fresh now toggle = false)
          by (rewrite fresh_expired, Hexp; reflexivity).
        split.
        -- unfold ledger_ok. rewrite toggles_of_set. split.
           ++ now apply toggles_delete_keys.
           ++ rewrite <- Hfr. apply filter_filter_same.
              intros x Hx Hfx. apply negb_true_iff, str_eqb_neq.
              intros Hk. rewrite <- Hkey in Hk.
              assert (x = toggle)
                by (apply (NoDup_map_inj key_of msgToggles); auto).
              subst x. congruence.
        -- split; [discriminate|].
           intros [tg [Hin0 [Hk [Hf _]]]]. exfalso.
           assert (tg = toggle).
           { apply (NoDup_map_inj key_of msgToggles); auto. congruence. }
           subst tg. congruence.
      * assert (Htrue : fresh now toggle = true)
          by (rewrite fresh_expired, Hexp; reflexivity).
        split.
        -- unfold ledger_ok, toggles_of. rewrite Hget. now split.
        -- split.
           ++ intros [= Hadd]. exists toggle. repeat split; try assumption.
              apply (fresh_In now _ _ toggle Hfr Htrue). assumption.
           ++ intros [tg [Hin0 [Hk [Hf Hadd]]]].
              assert (tg = toggle).
              { apply (NoDup_map_inj key_of msgToggles); auto. congruence. }
              subst tg. now rewrite Hadd.
    + cbn [fst snd]. split.
      * unfold ledger_ok, toggles_of. rewrite Hget. now split.
      * split; [discriminate|].
        intros [tg [Hin0 [Hk [Hf _]]]]. exfalso.
        now apply (toggles_get_None _ _ tg Htg (Hoff tg Hin0 Hf)).
  - cbn [fst snd]. split.
    + unfold ledger_ok, toggles_of. rewrite Hget. now split.
    + split; [discriminate|].
      intros [tg [Hin0 [_ [Hf _]]]]. exfalso. exact (Hoff tg Hin0 Hf).
Qed.

(** *** Second loop: the reactions of the disk *)

Section DiskLoop.
Variables (now : Z) (messageId : jsstring) (toggles0 : list Toggle).

Lemma collect_disk_user_spec (e u : jsstring) (em : EmojiMap)
    (ledger : Dict.t (list Toggle)) :
  Dict.has e em = true ->
  Dict.wf em ->
  ledger_ok now messageId toggles0 ledger ->
  let acc := collect_disk_user now messageId e (em, ledger) u in
  Dict.wf (fst acc)
  /\ ledger_ok now messageId toggles0 (snd acc)
  /\ (forall e', Dict.has e' (fst acc) = Dict.has e' em)
  /\ (forall e' u', has_pair (fst acc) e' u'
                    <-> has_pair em e' u'
                        \/ (e' = e /\ u' = u /\ ~ toggled_off now toggles0 e u)).
Proof.
  intros Hhas Hwf Hok. unfold collect_disk_user.
  destruct (getRecentReactionToggle_spec now messageId e u toggles0 ledger Hok)
    as [Hok' Hres].
  destruct (getRecentReactionToggle now messageId e u ledger)
    as [recentToggle ledger'].
  cbn [fst snd] in Hok', Hres.
  assert (Hadd : ~ toggled_off now toggles0 e u ->
                 Dict.wf (add_user e u em)
                 /\ ledger_ok now messageId toggles0 ledger'
                 /\ (forall e', Dict.has e' (add_user e u em) = Dict.has e' em)
                 /\ (forall e' u', has_pair (add_user e u em) e' u'
                                   <-> has_pair em e' u'
                                       \/ (e' = e /\ u' = u
                                           /\ ~ toggled_off now toggles0 e u))).
  { intros Hno. split; [now apply add_user_wf|]. split; [assumption|].
    split; [intros; apply add_user_has|].
    intros e' u'. rewrite add_user_pair by assumption. tauto. }
  destruct recentToggle as [[|]|]; cbn [fst snd].
  - apply Hadd. intros H. apply Hres in H. discriminate.
  - split; [assumption|]. split; [assumption|]. split; [reflexivity|].
    intros e' u'. split; [now left|].
    intros [H|[_ [_ H]]]; [assumption|]. elim H. now apply Hres.
  - apply Hadd. intros H. apply Hres in H. discriminate.
Qed.

Lemma collect_disk_users_spec (e : jsstring) (us : list jsstring) :
  forall (em : EmojiMap) (ledger : Dict.t (list Toggle)),
  Dict.has e em = true ->
  Dict.wf em ->
  ledger_ok now messageId toggles0 ledger ->
  let acc := fold_left (collect_disk_user now messageId e) us (em, ledger) in
  Dict.wf (fst acc)
  /\ ledger_ok now messageId toggles0 (snd acc)
  /\ (forall e' u', has_pair (fst acc) e' u'
                    <-> has_pair em e' u'
                        \/ (e' = e /\ In u' us /\ ~ toggled_off now toggles0 e u')).
Proof.
  induction us as [|u us IH]; intros em ledger Hhas Hwf Hok; cbn [fold_left].
  - cbn [fst snd]. split; [assumption|]. split; [assumption|].
    intros e' u'. split; [now left|]. intros [H|[_ [[] _]]]. assumption.
  - destruct (collect_disk_user_spec e u em ledger Hhas Hwf Hok)
      as [Hw [Hl [Hh Hp]]].
    destruct (collect_disk_user now messageId e (em, ledger) u) as [em1 ledger1].
    cbn [fst snd] in *.
    assert (Hhas1 : Dict.has e em1 = true) by now rewrite Hh.
    destruct (IH em1 ledger1 Hhas1 Hw Hl) as [Hw' [Hl' Hp']].
    split; [assumption|]. split; [assumption|].
    intros e' u'. rewrite Hp', Hp. split.
    + intros [[H|[He [Hu Hno]]]|[He [Hin Hno]]].
      * now left.
      * right. subst. repeat split; auto. now left.
      * right. repeat split; auto. now right.
    + intros [H|[He [[<-|Hin] Hno]]].
      * left. now left.
      * left. right. now repeat split.
      * right. now repeat split.
Qed.

Lemma collect_disk_reaction_spec (r : ChatReaction.t) (em : EmojiMap)
    (ledger : Dict.t (list Toggle)) :
  Dict.wf em ->
  ledger_ok now messageId toggles0 ledger ->
  let acc := collect_disk_reaction now messageId (em, ledger) r in
  Dict.wf (fst acc)
  /\ ledger_ok now messageId toggles0 (snd acc)
  /\ (forall e u, has_pair (fst acc) e u
                  <-> has_pair em e u
                      \/ (e = ChatReaction.emoji r
                          /\ In u (ChatReaction.users r)
                          /\ ~ toggled_off now toggles0 e u)).
Proof.
  intros Hwf Hok. unfold collect_disk_reaction.
  destruct (collect_disk_users_spec (ChatReaction.emoji r) (ChatReaction.users r)
              (ensure_emoji (ChatReaction.emoji r) em) ledger
              (ensure_emoji_has _ _) (ensure_emoji_wf _ _ Hwf) Hok)
    as [Hw [Hl Hp]].
  split; [assumption|]. split; [assumption|].
  intros e u. rewrite Hp, ensure_emoji_pair. split.
  - intros [H|[-> [Hin Hno]]]; [now left | right; now repeat split].
  - intros [H|[-> [Hin Hno]]]; [now left | right; now repeat split].
Qed.

Lemma collect_disk_spec (rs : option (list ChatReaction.t)) (em : EmojiMap)
    (ledger : Dict.t (list Toggle)) :
  Dict.wf em ->
  ledger_ok now messageId toggles0 ledger ->
  let acc := collect_disk now messageId rs (em, ledger) in
  Dict.wf (fst acc)
  /\ ledger_ok now messageId toggles0 (snd acc)
  /\ (forall e u, has_pair (fst acc) e u
                  <-> has_pair em e u
                      \/ (In (e, u) (pairs_of rs)
                          /\ ~ toggled_off now toggles0 e u)).
Proof.
  intros Hwf Hok. destruct rs as [l|]; cbn [collect_disk].
  - revert em ledger Hwf Hok.
    induction l as [|r l IH]; intros em ledger Hwf Hok; cbn [fold_left].
    + cbn [fst snd]. split; [assumption|]. split; [assumption|].
      intros e u. split; [now left|]. intros [H|[[] _]]. assumption.
    + destruct (collect_disk_reaction_spec r em ledger Hwf Hok) as [Hw [Hl Hp]].
      destruct (collect_disk_reaction now messageId (em, ledger) r)
        as [em1 ledger1].
      cbn [fst snd] in *.
      destruct (IH em1 ledger1 Hw Hl) as [Hw' [Hl' Hp']].
      split; [assumption|]. split; [assumption|].
      intros e u. rewrite Hp', Hp, !pairs_of_In. split.
      * intros [[H|[He [Hin Hno]]]|[[r' [Hr' H]] Hno]].
        -- now left.
        -- right. split; [|assumption]. exists r. split; [now left | now split].
        -- right. split; [|assumption]. exists r'. split; [now right | assumption].
      * intros [H|[[r' [[<-|Hr'] [He Hin]]] Hno]].
        -- left. now left.
        -- left. right. now repeat split.
        -- right. split; [|assumption]. exists r'. now repeat split.
  - cbn [fst snd]. split; [assumption|]. split; [assumption|].
    intros e u. split; [now left|]. intros [H|[[] _]]. assumption.
Qed.

(** *** Third loop: the toggles of the message *)

Lemma collect_toggle_spec (em : EmojiMap) (msgToggles : list Toggle)
    (toggle : Toggle) :
  Dict.wf em ->
  let acc := collect_toggle now (em, msgToggles) toggle in
  Dict.wf (fst acc)
  /\ (forall e u, has_pair (fst acc) e u
                  <-> has_pair em e u
                      \/ (fresh now toggle = true /\ added toggle = true
                          /\ decode_key (key_of toggle) = (e, u))).
Proof.
  intros Hwf. unfold collect_toggle. rewrite fresh_expired.
  destruct (REACTION_TOGGLE_PROTECTION_DURATION <? now - toggledAt toggle);
    cbn [negb fst].
  - split; [assumption|]. intros e u. split; [now left|].
    intros [H|[H _]]; [assumption | discriminate].
  - destruct (added toggle).
    + destruct (decode_key (key_of toggle)) as [e0 u0]. cbn [fst]. split.
      * now apply add_user_wf, ensure_emoji_wf.
      * intros e u. rewrite add_user_pair by apply ensure_emoji_has.
        rewrite ensure_emoji_pair. split.
        -- intros [H|[-> ->]]; [now left | right; now repeat split].
        -- intros [H|[_ [_ [= -> ->]]]]; [now left | now right].
    + cbn [fst]. split; [assumption|]. intros e u. split; [now left|].
      intros [H|[_ [H _]]]; [assumption | discriminate].
Qed.

Lemma collect_toggle_fold (l : list Toggle) :
  forall (em : EmojiMap) (msgToggles : list Toggle),
  Dict.wf em ->
  let acc := fold_left (collect_toggle now) l (em, msgToggles) in
  Dict.wf (fst acc)
  /\ (forall e u, has_pair (fst acc) e u
                  <-> has_pair em e u \/ toggled_on now l e u).
Proof.
  induction l as [|tg l IH]; intros em msgToggles Hwf; cbn [fold_left].
  - cbn [fst]. split; [assumption|]. intros e u. split; [now left|].
    intros [H|[tg [[] _]]]. assumption.
  - destruct (collect_toggle_spec em msgToggles tg Hwf) as [Hw Hp].
    destruct (collect_toggle now (em, msgToggles) tg) as [em1 msgToggles1].
    cbn [fst] in *.
    destruct (IH em1 msgToggles1 Hw) as [Hw' Hp'].
    split; [assumption|].
    intros e u. rewrite Hp', Hp. unfold toggled_on. split.
    + intros [[H|[Hf [Ha Hd]]]|[tg' [Hin H]]].
      * now left.
      * right. exists tg. split; [now left | now repeat split].
      * right. exists tg'. split; [now right | assumption].
    + intros [H|[tg' [[<-|Hin] [Hf [Ha Hd]]]]].
      * left. now left.
      * left. right. now repeat split.
      * right. exists tg'. now repeat split.
Qed.

Lemma toggled_on_fresh (l l0 : list Toggle) (e u : jsstring) :
  filter (fresh now) l = filter (fresh now) l0 ->
  toggled_on now l e u <-> toggled_on now l0 e u.
Proof.
  intros H. unfold toggled_on.
  split; intros [tg [Hin [Hf Hrest]]]; exists tg;
    (split; [|now split]).
  - now apply (fresh_In now l l0 tg H Hf).
  - now apply (fresh_In now l l0 tg H Hf).
Qed.

Lemma collect_toggles_spec (em : EmojiMap) (ledger : Dict.t (list Toggle)) :
  Dict.wf em ->
  ledger_ok now messageId toggles0 ledger ->
  let acc := collect_toggles now messageId (em, ledger) in
  Dict.wf (fst acc)
  /\ (forall e u, has_pair (fst acc) e u
                  <-> has_pair em e u \/ toggled_on now toggles0 e u).
Proof.
  intros Hwf [_ Hfr]. unfold collect_toggles. unfold toggles_of in Hfr.
  destruct (Dict.get messageId ledger) as [msgToggles|].
  - destruct (collect_toggle_fold msgToggles em msgToggles Hwf) as [Hw Hp].
    destruct (fold_left (collect_toggle now) msgToggles (em, msgToggles))
      as [em' msgToggles'].
    cbn [fst] in *. split; [assumption|].
    intros e u. now rewrite Hp, (toggled_on_fresh _ _ e u Hfr).
  - cbn [fst]. split; [assumption|].
    intros e u. rewrite <- (toggled_on_fresh _ _ e u Hfr). split; [now left|].
    intros [H|[tg [[] _]]]. assumption.
Qed.

End DiskLoop.

(** *** The merged reactions *)

Lemma ledger_ok_refl (now : Z) (messageId : jsstring)
    (ledger : Dict.t (list Toggle)) :
  NoDup (map key_of (toggles_of messageId ledger)) ->
  ledger_ok now messageId (toggles_of messageId ledger) ledger.
Proof. intros H. split; [assumption | reflexivity]. Qed.

Lemma merge_reactions_spec (now : Z) (ledger : Dict.t (list Toggle))
    (ourMsg diskMsg : ChatMessage.t) :
  NoDup (map key_of (toggles_of (ChatMessage.id ourMsg) ledger)) ->
  let toggles := toggles_of (ChatMessage.id ourMsg) ledger in
  let m1 := fst (merge_reactions now ledger ourMsg diskMsg) in
  (trust_disk ourMsg diskMsg = true -> ChatMessage.reactions m1 = None)
  /\ (trust_disk ourMsg diskMsg = false ->
      forall e u,
        In (e, u) (pairs_of (ChatMessage.reactions m1))
        <-> In (e, u) (pairs_of (ChatMessage.reactions ourMsg))
            \/ (In (e, u) (pairs_of (ChatMessage.reactions diskMsg))
                /\ ~ toggled_off now toggles e u)
            \/ toggled_on now toggles e u).
Proof.
  intros Hnd toggles m1. subst m1. unfold merge_reactions.
  set (i := ChatMessage.id ourMsg) in *.
  destruct (collect_ours_spec (ChatMessage.reactions ourMsg)) as [Hw1 Hp1].
  destruct (collect_disk_spec now i toggles (ChatMessage.reactions diskMsg)
              (collect_ours (ChatMessage.reactions ourMsg)) ledger Hw1
              (ledger_ok_refl now i ledger Hnd)) as [Hw2 [Hl2 Hp2]].
  destruct (collect_disk now i (ChatMessage.reactions diskMsg)
              (collect_ours (ChatMessage.reactions ourMsg), ledger))
    as [em2 ledger2].
  cbn [fst snd] in Hw2, Hl2, Hp2.
  destruct (collect_toggles_spec now i toggles em2 ledger2 Hw2 Hl2) as [Hw3 Hp3].
  destruct (collect_toggles now i (em2, ledger2)) as [em3 ledger3].
  cbn [fst snd] in Hw3, Hp3 |- *.
  cbn [ChatMessage.reactions ChatMessage.set_reactions].
  split; intros Htrust; rewrite Htrust; [reflexivity|].
  intros e u.
  rewrite pairs_of_some_if_nonempty, (to_reactions_pairs em3 e u Hw3).
  rewrite Hp3, Hp2, Hp1. tauto.
Qed.

Lemma merge_edited_reactions (m1 diskMsg : ChatMessage.t) :
  ChatMessage.reactions (merge_edited m1 diskMsg) = ChatMessage.reactions m1
  /\ ChatMessage.deleted (merge_edited m1 diskMsg) = ChatMessage.deleted m1.
Proof.
  unfold merge_edited.
  destruct (truthy (ChatMessage.edited diskMsg)); [|now split].
  destruct (negb (truthy (ChatMessage.edited m1))); [now split|].
  destruct (disk_edit_newer m1 diskMsg); now split.
Qed.

(** C1, as the code has it.  When the merge discards the reactions (the
    disk copy has no [reactions] field while ours has reactions, and is
    deleted or carries the later edit; or the disk copy is deleted and ours
    is not), the merged message has none.  Otherwise its (emoji, user)
    pairs are exactly: the pairs of our copy; the pairs of the disk copy
    that were not toggled off here within the window; and the pairs read
    back from the keys of the additions toggled here within the window. *)
Theorem merged_reactions (now : Z) (ledger : Dict.t (list Toggle))
    (ourMsg diskMsg : ChatMessage.t) :
  NoDup (map key_of (toggles_of (ChatMessage.id ourMsg) ledger)) ->
  let toggles := toggles_of (ChatMessage.id ourMsg) ledger in
  let merged := fst (mergeMessageUpdates now ledger ourMsg diskMsg) in
  (reactions_discarded ourMsg diskMsg = true ->
   ChatMessage.reactions merged = None)
  /\ (reactions_discarded ourMsg diskMsg = false ->
      forall e u,
        In (e, u) (pairs_of (ChatMessage.reactions merged))
        <-> In (e, u) (pairs_of (ChatMessage.reactions ourMsg))
            \/ (In (e, u) (pairs_of (ChatMessage.reactions diskMsg))
                /\ ~ toggled_off now toggles e u)
            \/ toggled_on now toggles e u).
Proof.
  intros Hnd toggles merged. subst merged. unfold mergeMessageUpdates.
  destruct (merge_reactions_spec now ledger ourMsg diskMsg Hnd) as [Htrue Hfalse].
  assert (Hdel : ChatMessage.deleted
                   (fst (merge_reactions now ledger ourMsg diskMsg))
                 = ChatMessage.deleted ourMsg).
  { unfold merge_reactions. destruct (collect_toggles _ _ _). reflexivity. }
  destruct (merge_reactions now ledger ourMsg diskMsg) as [m1 ledger'].
  cbn [fst] in *.
  destruct (merge_edited_reactions m1 diskMsg) as [Hr He].
  unfold reactions_discarded, merge_deleted. rewrite He, Hdel.
  destruct (truthy (ChatMessage.deleted diskMsg)
            && negb (truthy (ChatMessage.deleted ourMsg))).
  - rewrite orb_true_r. split; [reflexivity | discriminate].
  - rewrite orb_false_r, Hr. split; assumption.
Qed.

(** The key of a pair reads back as the pair when neither string holds a
    bar. *)
Lemma split_bar_no_bar (s : jsstring) :
  ~ In BAR s -> split_bar s = [s].
Proof.
  induction s as [|c s IH]; intros H; simpl; [reflexivity|].
  destruct (Z.eqb_spec c BAR) as [->|_]; [elim H; now left|].
  rewrite IH; [reflexivity|]. intros Hin. apply H. now right.
Qed.

Lemma decode_key_toggleKey (e u : jsstring) :
  ~ In BAR e -> ~ In BAR u -> decode_key (toggleKey e u) = (e, u).
Proof.
  intros He Hu. unfold decode_key, toggleKey.
  assert (H : split_bar (e ++ BAR :: u) = [e; u]).
  { induction e as [|c e IH]; simpl.
    - now rewrite split_bar_no_bar.
    - destruct (Z.eqb_spec c BAR) as [->|_]; [elim He; now left|].
      rewrite IH; [reflexivity|]. intros Hin. apply He. now right. }
  now rewrite H.
Qed.

Lemma merged_reactions_witness :
  In (heart, js "carol")
     (pairs_of (ChatMessage.reactions
                  (fst (mergeMessageUpdates 1000000 removal_ledger
                          ours_after_removal disk_before_removal)))).
Proof.
  apply (proj2 (merged_reactions 1000000 removal_ledger ours_after_removal
                  disk_before_removal
                  ltac:(repeat constructor; simpl; tauto))
           eq_refl heart (js "carol")).
  right. left. split.
  - vm_compute. tauto.
  - intros [tg [[<-|[]] [Hk _]]]. vm_compute in Hk. discriminate.
Defined.

(** C1 as stated fails.  Alice added a thumbs-up within the window, and our
    copy holds it; the disk copy has no [reactions] field and the later
    edit.  The merge trusts the disk and leaves the message without
    reactions: neither the union nor the pair toggled on is there. *)
Lemma recent_addition_is_dropped :
  let merged := fst (mergeMessageUpdates 1000000 addition_ledger
                       ours_after_addition disk_edited_later) in
  toggled_on 1000000 (toggles_of (js "m1") addition_ledger)
             thumbs_up (js "alice")
  /\ In (thumbs_up, js "alice")
        (pairs_of (ChatMessage.reactions ours_after_addition))
  /\ ChatMessage.reactions merged = None.
Proof.
  split; [|split].
  - exists (mkToggle thumbs_up (js "alice") true 960000).
    split; [now left|]. split; [reflexivity|]. split; reflexivity.
  - now left.
  - reflexivity.
Qed.

(** The removal that the window protects: the thumbs-up alice toggled off is
    not taken back from the disk copy, the other pairs are. *)
Lemma recent_removal_is_kept :
  ChatMessage.reactions
    (fst (mergeMessageUpdates 1000000 removal_ledger ours_after_removal
            disk_before_removal))
  = Some [ChatReaction.mk thumbs_up [js "bob"];
          ChatReaction.mk heart [js "carol"]].
Proof. reflexivity. Qed.

End ReactionFacts.

(** ** Scanners of the message text *)

Module ScannerFacts.
Import ChatManager.

Lemma take_while_all (p : Z -> bool) (s : jsstring) :
  forallb p (take_while p s) = true.
Proof.
  induction s as [|c s IH]; simpl; [reflexivity|].
  destruct (p c) eqn:E; simpl; [now rewrite E | reflexivity].
Qed.

Lemma take_while_length (p : Z -> bool) (s : jsstring) :
  (length (take_while p s) <= length s)%nat.
Proof.
  induction s as [|c s IH]; simpl; [lia|].
  destruct (p c); simpl; lia.
Qed.

(** A run ends at the first character outside of it. *)
Lemma take_while_stop (p : Z -> bool) (a : jsstring) (c : Z) (rest : jsstring) :
  p c = false -> take_while p (a ++ c :: rest) = take_while p a.
Proof.
  intros Hc. induction a as [|x a IH]; simpl.
  - now rewrite Hc.
  - destruct (p x); [now rewrite IH | reflexivity].
Qed.

Lemma take_while_run (p : Z -> bool) (w rest : jsstring) :
  forallb p w = true -> stops p rest = true -> take_while p (w ++ rest) = w.
Proof.
  intros Hw Hrest. induction w as [|x w IH]; simpl.
  - destruct rest as [|c rest]; [reflexivity|].
    simpl in Hrest. apply negb_true_iff in Hrest. simpl. now rewrite Hrest.
  - simpl in Hw. apply andb_true_iff in Hw. destruct Hw as [Hx Hw].
    rewrite Hx. now rewrite IH.
Qed.

Lemma exec_all_captures (f : jsstring -> option (jsstring * nat))
    (P : jsstring -> Prop) :
  (forall s c n, f s = Some (c, n) -> P c) ->
  forall s skip, Forall P (exec_all f s skip).
Proof.
  intros Hf. induction s as [|x s IH]; intros skip; simpl; [constructor|].
  destruct skip as [|k]; [|apply IH].
  destruct (f (x :: s)) as [[c n]|] eqn:E; [|apply IH].
  constructor; [now apply (Hf _ _ _ E) | apply IH].
Qed.

(** A text put before [t] is scanned as it is alone when no match that
    starts in it reaches into [t]. *)
Lemma exec_all_app (f : jsstring -> option (jsstring * nat)) (t : jsstring) :
  (forall p, p <> [] -> f (p ++ t) = f p) ->
  (forall p c n, f p = Some (c, n) -> (n <= length p)%nat) ->
  forall pre skip, (skip <= length pre)%nat ->
  exec_all f (pre ++ t) skip = exec_all f pre skip ++ exec_all f t 0.
Proof.
  intros Hf Hn. induction pre as [|c pre IH]; intros skip Hs.
  - simpl in Hs. assert (skip = 0%nat) as -> by lia. reflexivity.
  - destruct skip as [|k].
    + cbn [app exec_all].
      change (c :: pre ++ t) with ((c :: pre) ++ t).
      rewrite Hf by discriminate.
      destruct (f (c :: pre)) as [[cap n]|] eqn:E.
      * specialize (Hn _ _ _ E). simpl in Hn.
        rewrite IH by lia. reflexivity.
      * rewrite IH by lia. reflexivity.
    + cbn [app exec_all]. apply IH. simpl in Hs. lia.
Qed.

(** The scan passes over what is left of a match. *)
Lemma exec_all_skip (f : jsstring -> option (jsstring * nat))
    (w post : jsstring) :
  exec_all f (w ++ post) (length w) = exec_all f post 0.
Proof.
  induction w as [|x w IH]; simpl; [|assumption].
  destruct post; reflexivity.
Qed.

Lemma exec_all_match (f : jsstring -> option (jsstring * nat)) (x : Z)
    (s capture : jsstring) (n : nat) :
  f (x :: s) = Some (capture, n) ->
  exec_all f (x :: s) 0 = capture :: exec_all f s (n - 1).
Proof. intros H. cbn [exec_all]. now rewrite H. Qed.

(** Where nothing matches, nothing is captured. *)
Lemma exec_all_none (f : jsstring -> option (jsstring * nat))
    (pre t : jsstring) :
  (forall p, p <> [] -> f (p ++ t) = None) ->
  exec_all f (pre ++ t) 0 = exec_all f t 0.
Proof.
  intros Hf. induction pre as [|c pre IH]; [reflexivity|].
  cbn [app exec_all]. change (c :: pre ++ t) with ((c :: pre) ++ t).
  rewrite Hf by discriminate. exact IH.
Qed.

Lemma is_word_not_at (c : Z) : is_word c = true -> c <> AT /\ c <> HASH.
Proof.
  unfold is_word, AT, HASH. intros H.
  repeat (apply orb_true_iff in H; destruct H as [H|H]);
    try (apply andb_true_iff in H; destruct H as [H1 H2]);
    lia.
Qed.

Lemma is_channel_char_not_at (c : Z) : is_channel_char c = true -> c <> AT.
Proof.
  unfold is_channel_char. intros H.
  apply orb_true_iff in H. destruct H as [H|H].
  - now apply is_word_not_at.
  - unfold AT. lia.
Qed.

Lemma mention_at_length (p c : jsstring) (n : nat) :
  mention_at p = Some (c, n) -> (n <= length p)%nat.
Proof.
  destruct p as [|x p]; simpl; [discriminate|].
  destruct (x =? AT); [|discriminate].
  destruct p as [|h p]; [discriminate|].
  destruct (h =? HASH); [discriminate|].
  pose proof (take_while_length is_word (h :: p)) as Hl.
  destruct (take_while is_word (h :: p)) as [|y w]; [discriminate|].
  intros H. injection H as <- <-. simpl in *. lia.
Qed.

(** No mention that starts before an at sign reaches it. *)
Lemma mention_at_before_at (p rest : jsstring) :
  p <> [] -> mention_at (p ++ AT :: rest) = mention_at p.
Proof.
  destruct p as [|x p]; [congruence|]. intros _.
  cbn [app]. unfold mention_at.
  destruct (x =? AT); [|reflexivity].
  destruct p as [|h p].
  - reflexivity.
  - cbn [app]. destruct (h =? HASH); [reflexivity|].
    change (h :: p ++ AT :: rest) with ((h :: p) ++ AT :: rest).
    now rewrite take_while_stop.
Qed.

Lemma mention_at_word (w post : jsstring) :
  w <> [] -> forallb is_word w = true -> stops is_word post = true ->
  mention_at (AT :: w ++ post) = Some (w, S (length w)).
Proof.
  intros Hne Hw Hpost. unfold mention_at. rewrite Z.eqb_refl.
  rewrite (take_while_run is_word w post Hw Hpost).
  destruct w as [|h w]; [congruence|].
  cbn [app]. simpl in Hw. apply andb_true_iff in Hw. destruct Hw as [Hh _].
  destruct (is_word_not_at h Hh) as [_ Hhash].
  apply Z.eqb_neq in Hhash. now rewrite Hhash.
Qed.

(** X1: every mention [extractMentions] returns is a run of word characters
    that is not empty. *)
Theorem extractMentions_words (text : jsstring) :
  Forall (fun w => w <> [] /\ forallb is_word w = true) (extractMentions text).
Proof.
  unfold extractMentions. apply exec_all_captures.
  intros s c n. destruct s as [|x s]; simpl; [discriminate|].
  destruct (x =? AT); [|discriminate].
  destruct s as [|h s]; [discriminate|].
  destruct (h =? HASH); [discriminate|].
  pose proof (take_while_all is_word (h :: s)) as Hall.
  destruct (take_while is_word (h :: s)) as [|y w]; [discriminate|].
  intros H. injection H as <- _. split; [discriminate | exact Hall].
Qed.

(** X2: an at sign and a name put between two texts is extracted, between
    the mentions of the text before and those of the text after, whatever
    the text before is; the text after must not go on with a word
    character. *)
Theorem extractMentions_app (pre w post : jsstring) :
  w <> [] -> forallb is_word w = true -> stops is_word post = true ->
  extractMentions (pre ++ AT :: w ++ post)
  = extractMentions pre ++ w :: extractMentions post.
Proof.
  intros Hne Hw Hpost. unfold extractMentions.
  rewrite exec_all_app.
  - f_equal. cbn [exec_all].
    rewrite (mention_at_word w post Hne Hw Hpost).
    f_equal. replace (S (length w) - 1)%nat with (length w) by lia.
    apply exec_all_skip.
  - intros p Hp. now apply mention_at_before_at.
  - apply mention_at_length.
  - lia.
Qed.

Lemma extractMentions_app_witness :
  extractMentions (js "ask @" ++ AT :: js "bob" ++ js ", then @carol")
  = extractMentions (js "ask @") ++ js "bob" :: extractMentions (js ", then @carol").
Proof.
  apply extractMentions_app; [discriminate | reflexivity | reflexivity].
Defined.

(** A text without an at sign holds no mention. *)
Lemma mentions_pass (w post : jsstring) :
  ~ In AT w ->
  exec_all mention_at (w ++ post) 0 = exec_all mention_at post 0.
Proof.
  induction w as [|x w IH]; intros Hw; [reflexivity|].
  cbn [app exec_all]. unfold mention_at at 1.
  destruct (Z.eqb_spec x AT) as [->|_]; [elim Hw; now left|].
  apply IH. intros H. apply Hw. now right.
Qed.

Lemma channel_chars_without_at (w : jsstring) :
  forallb is_channel_char w = true -> ~ In AT w.
Proof.
  induction w as [|x w IH]; simpl; intros Hw; [tauto|].
  apply andb_true_iff in Hw. destruct Hw as [Hx Hw].
  intros [->|H]; [now apply (is_channel_char_not_at AT Hx) | now apply IH].
Qed.

(** X3: the mention of a channel is no mention of a user.  An at sign, a
    hash and a channel name put between two texts add nothing to the
    mentions [extractMentions] finds in the two texts. *)
Theorem extractMentions_skips_channels (pre w post : jsstring) :
  forallb is_channel_char w = true ->
  extractMentions (pre ++ AT :: HASH :: w ++ post)
  = extractMentions pre ++ extractMentions post.
Proof.
  intros Hw. unfold extractMentions.
  rewrite exec_all_app.
  - f_equal. cbn [exec_all]. unfold mention_at at 1.
    rewrite Z.eqb_refl. rewrite Z.eqb_refl.
    unfold mention_at at 1. change (HASH =? AT) with false. cbv iota.
    apply mentions_pass. now apply channel_chars_without_at.
  - intros p Hp. now apply mention_at_before_at.
  - apply mention_at_length.
  - lia.
Qed.

Lemma extractMentions_skips_channels_witness :
  extractMentions (js "see " ++ AT :: HASH :: js "dev-team" ++ js " @bob")
  = extractMentions (js "see ") ++ extractMentions (js " @bob").
Proof. apply extractMentions_skips_channels. reflexivity. Defined.

Lemma channel_mention_at_length (p c : jsstring) (n : nat) :
  channel_mention_at p = Some (c, n) -> (n <= length p)%nat.
Proof.
  destruct p as [|x [|h p]]; simpl; try discriminate.
  destruct ((x =? AT) && (h =? HASH)); [|discriminate].
  pose proof (take_while_length is_channel_char p) as Hl.
  destruct (take_while is_channel_char p) as [|y w]; [discriminate|].
  intros H. injection H as <- <-. simpl in *. lia.
Qed.

Lemma channel_mention_at_before_at (p rest : jsstring) :
  p <> [] -> channel_mention_at (p ++ AT :: rest) = channel_mention_at p.
Proof.
  destruct p as [|x p]; [congruence|]. intros _.
  destruct p as [|h p]; cbn [app]; unfold channel_mention_at.
  - change (AT =? HASH) with false. now rewrite andb_false_r.
  - destruct ((x =? AT) && (h =? HASH)); [|reflexivity].
    now rewrite take_while_stop.
Qed.

(** X4: an at sign, a hash and a channel name put between two texts is
    extracted by [extractChannelMentions], between the channel mentions of
    the text before and those of the text after. *)
Theorem extractChannelMentions_app (pre w post : jsstring) :
  w <> [] -> forallb is_channel_char w = true ->
  stops is_channel_char post = true ->
  extractChannelMentions (pre ++ AT :: HASH :: w ++ post)
  = extractChannelMentions pre ++ w :: extractChannelMentions post.
Proof.
  intros Hne Hw Hpost. unfold extractChannelMentions.
  rewrite exec_all_app.
  - f_equal. cbn [exec_all]. unfold channel_mention_at at 1.
    rewrite !Z.eqb_refl. cbn [andb].
    rewrite (take_while_run is_channel_char w post Hw Hpost).
    destruct w as [|h w]; [congruence|].
    f_equal.
    replace (S (S (length (h :: w))) - 1)%nat
      with (length (HASH :: h :: w)) by (simpl; lia).
    change (HASH :: (h :: w) ++ post) with ((HASH :: h :: w) ++ post).
    apply exec_all_skip.
  - intros p Hp. now apply channel_mention_at_before_at.
  - apply channel_mention_at_length.
  - lia.
Qed.

Lemma extractChannelMentions_app_witness :
  extractChannelMentions
    (js "in @#general and " ++ AT :: HASH :: js "dev-team" ++ js ": done")
  = extractChannelMentions (js "in @#general and ")
    ++ js "dev-team" :: extractChannelMentions (js ": done").
Proof.
  apply extractChannelMentions_app; [discriminate | reflexivity | reflexivity].
Defined.

Lemma not_In_forallb (c : Z) (l : jsstring) :
  ~ In c l -> forallb (fun x => negb (x =? c)) l = true.
Proof.
  induction l as [|x l IH]; simpl; intros H; [reflexivity|].
  destruct (Z.eqb_spec x c) as [->|_]; [elim H; now left|].
  apply IH. intros Hin. apply H. now right.
Qed.

Lemma forallb_not_In (c : Z) (l : jsstring) :
  forallb (fun x => negb (x =? c)) l = true -> ~ In c l.
Proof.
  induction l as [|x l IH]; simpl; intros H; [tauto|].
  apply andb_true_iff in H. destruct H as [Hx Hl].
  intros [->|Hin]; [now rewrite Z.eqb_refl in Hx | now apply IH].
Qed.

(** A text without an opening bracket holds no link. *)
Lemma links_pass (pre t : jsstring) :
  ~ In OPEN pre ->
  exec_all file_link_at (pre ++ t) 0 = exec_all file_link_at t 0.
Proof.
  induction pre as [|x pre IH]; intros Hpre; [reflexivity|].
  cbn [app exec_all].
  assert (Hnone : file_link_at (x :: pre ++ t) = None).
  { unfold file_link_at. destruct (pre ++ t) as [|h s']; [reflexivity|].
    destruct (Z.eqb_spec x OPEN) as [->|_]; [elim Hpre; now left | reflexivity]. }
  rewrite Hnone. apply IH. intros H. apply Hpre. now right.
Qed.

(** X5: a name between double brackets is extracted by [extractFileLinks]
    when the name is not empty and holds no closing bracket; the text
    before, without an opening bracket, adds no link. *)
Theorem extractFileLinks_app (pre name post : jsstring) :
  ~ In OPEN pre -> name <> [] -> ~ In CLOSE name ->
  extractFileLinks (pre ++ OPEN :: OPEN :: name ++ CLOSE :: CLOSE :: post)
  = name :: extractFileLinks post.
Proof.
  intros Hpre Hne Hname. unfold extractFileLinks.
  rewrite links_pass by assumption.
  rewrite (exec_all_match file_link_at OPEN
             (OPEN :: name ++ CLOSE :: CLOSE :: post) name (4 + length name)).
  - f_equal.
    replace (4 + length name - 1)%nat
      with (length (OPEN :: name ++ [CLOSE; CLOSE]))
      by (cbn [length]; rewrite length_app; simpl; lia).
    replace (OPEN :: name ++ CLOSE :: CLOSE :: post)
      with ((OPEN :: name ++ [CLOSE; CLOSE]) ++ post)
      by (cbn [app]; rewrite <- app_assoc; reflexivity).
    apply exec_all_skip.
  - unfold file_link_at. rewrite Z.eqb_refl. cbn [andb].
    rewrite (take_while_run (fun x => negb (x =? CLOSE)) name
               (CLOSE :: CLOSE :: post) (not_In_forallb CLOSE name Hname) eq_refl).
    destruct name as [|h name]; [congruence|].
    rewrite skipn_app, skipn_all, Nat.sub_diag. cbn [app skipn].
    rewrite Z.eqb_refl. reflexivity.
Qed.

Lemma extractFileLinks_app_witness :
  extractFileLinks
    (js "read " ++ OPEN :: OPEN :: js "notes/plan" ++ CLOSE :: CLOSE
       :: js " and [[todo]]")
  = js "notes/plan" :: extractFileLinks (js " and [[todo]]").
Proof.
  apply extractFileLinks_app.
  - apply forallb_not_In. reflexivity.
  - discriminate.
  - apply forallb_not_In. reflexivity.
Defined.

(** X6: every link [extractFileLinks] returns is not empty and holds no
    closing bracket. *)
Theorem extractFileLinks_names (text : jsstring) :
  Forall (fun name => name <> [] /\ ~ In CLOSE name) (extractFileLinks text).
Proof.
  unfold extractFileLinks. apply exec_all_captures.
  intros s c n. destruct s as [|x [|h s]]; unfold file_link_at;
    try discriminate.
  destruct ((x =? OPEN) && (h =? OPEN)); [|discriminate].
  pose proof (take_while_all (fun x => negb (x =? CLOSE)) s) as Hall.
  destruct (take_while (fun x => negb (x =? CLOSE)) s) as [|y w];
    [discriminate|].
  destruct (skipn (length (y :: w)) s) as [|a [|b r]]; try discriminate.
  destruct ((a =? CLOSE) && (b =? CLOSE)); [|discriminate].
  intros H. injection H as <- _.
  split; [discriminate | now apply forallb_not_In].
Qed.

End ScannerFacts.

(** ** Messages are not lost *)

Module DurabilityFacts.
Import ChatManager Ops Samples ChannelFacts LeaveFacts.

(** *** Lists *)

Lemma existsb_insert_by {A : Type} (key : A -> Z) (p : A -> bool) (x : A)
    (l : list A) :
  existsb p (insert_by key x l) = p x || existsb p l.
Proof.
  induction l as [|y l IH]; simpl; [reflexivity|].
  destruct (key x <=? key y); simpl; [reflexivity|].
  rewrite IH. destruct (p x), (p y); reflexivity.
Qed.

Lemma existsb_sort_by {A : Type} (key : A -> Z) (p : A -> bool) (l : list A) :
  existsb p (sort_by key l) = existsb p l.
Proof.
  induction l as [|y l IH]; simpl; [reflexivity|].
  now rewrite existsb_insert_by, IH.
Qed.

Lemma existsb_set_nth {A : Type} (p : A -> bool) (y x : A) (l : list A) :
  forall i, nth_error l i = Some x -> p y = p x ->
  existsb p (update_nth i (fun _ => y) l) = existsb p l.
Proof.
  induction l as [|z l IH]; intros [|i] Hn Hp; simpl in *; try discriminate.
  - injection Hn as ->. now rewrite Hp.
  - now rewrite (IH i).
Qed.

Lemma fold_left_reaches {A B : Type} (P : A -> Prop) (f : A -> B -> A)
    (l : list B) (x : B) :
  (forall a b, P a -> P (f a b)) ->
  (forall a, P (f a x)) ->
  In x l -> forall a, P (fold_left f l a).
Proof.
  intros Hkeep Hx. induction l as [|b l IH]; intros Hin a; [contradiction|].
  cbn [fold_left]. destruct Hin as [->|Hin].
  - apply fold_left_invariant; [intros; now apply Hkeep | apply Hx].
  - now apply IH.
Qed.

(** *** One message *)

Lemma mergeMessageUpdates_id (now : Z) (ledger : Dict.t (list Toggle))
    (ourMsg diskMsg : ChatMessage.t) :
  ChatMessage.id (fst (mergeMessageUpdates now ledger ourMsg diskMsg))
  = ChatMessage.id ourMsg.
Proof.
  unfold mergeMessageUpdates, merge_reactions.
  destruct (collect_toggles _ _ _) as [em ledger']. cbn [fst].
  unfold merge_deleted, merge_edited.
  repeat match goal with
         | |- context [if ?b then _ else _] => destruct b
         end; reflexivity.
Qed.

(** *** The lists of a channel *)

Lemma holds_id_ext (c i : jsstring) (m m' : t) :
  channelMessages m' = channelMessages m -> holds_id c i m -> holds_id c i m'.
Proof. unfold holds_id. now intros ->. Qed.

(** Giving a channel a list that holds the ids its list held keeps every
    id of every channel. *)
Lemma holds_id_set (c i cid : jsstring) (l' : list ChatMessage.t) (m m' : t) :
  channelMessages m' = Dict.set cid l' (channelMessages m) ->
  (forall l, Dict.get cid (channelMessages m) = Some l ->
             existsb (has_id i) l = true -> existsb (has_id i) l' = true) ->
  holds_id c i m -> holds_id c i m'.
Proof.
  intros Hcm Hl' [l [Hl He]]. unfold holds_id. rewrite Hcm.
  destruct (str_eqb_spec c cid) as [->|Hne].
  - rewrite get_set_same. exists l'. split; [reflexivity | eauto].
  - rewrite get_set_other by assumption. now exists l.
Qed.

Lemma holds_id_after_set (c i : jsstring) (l : list ChatMessage.t) (m : t) :
  existsb (has_id i) l = true ->
  holds_id c i (upd_channelMessages (Dict.set c l) m).
Proof.
  intros He. exists l. split; [|assumption].
  change (channelMessages (upd_channelMessages (Dict.set c l) m))
    with (Dict.set c l (channelMessages m)).
  apply get_set_same.
Qed.

Lemma merge_disk_message_keeps (now : Z) (ours0 ours : list ChatMessage.t)
    (ledger : Dict.t (list Toggle)) (diskMsg : ChatMessage.t) (i : jsstring) :
  existsb (has_id i) ours = true ->
  existsb (has_id i)
    (fst (merge_disk_message now ours0 (ours, ledger) diskMsg)) = true.
Proof.
  intros He. unfold merge_disk_message.
  destruct (our_index ours0 (ChatMessage.id diskMsg)) as [idx|].
  - destruct (nth_error ours idx) as [ourMsg|] eqn:E; [|assumption].
    pose proof (mergeMessageUpdates_id now ledger ourMsg diskMsg) as Hid.
    destruct (mergeMessageUpdates now ledger ourMsg diskMsg) as [m' ledger'].
    cbn [fst] in *.
    rewrite (existsb_set_nth _ _ ourMsg _ _ E); [assumption|].
    unfold has_id. now rewrite Hid.
  - cbn [fst]. rewrite existsb_app, He. reflexivity.
Qed.

Lemma fold_merge_disk_keeps (now : Z) (ours0 : list ChatMessage.t)
    (i : jsstring) (diskMsgs : list ChatMessage.t) :
  forall acc,
  existsb (has_id i) (fst acc) = true ->
  existsb (has_id i)
    (fst (fold_left (merge_disk_message now ours0) diskMsgs acc)) = true.
Proof.
  induction diskMsgs as [|d diskMsgs IH]; intros [ours ledger] He;
    cbn [fold_left]; [assumption|].
  apply IH. now apply merge_disk_message_keeps.
Qed.

Lemma merge_channel_messages_save_keeps (now : Z)
    (disk : Dict.t (list ChatMessage.t)) (m : t) (cid c i : jsstring) :
  holds_id c i m -> holds_id c i (merge_channel_messages_save now disk m cid).
Proof.
  intros H. unfold merge_channel_messages_save.
  destruct (Dict.get cid disk) as [diskMsgs|]; [|assumption].
  destruct (Dict.get cid (channelMessages m)) as [ours0|] eqn:E.
  - pose proof (fold_merge_disk_keeps now ours0 i diskMsgs
                  (ours0, recentlyToggledReactions m)) as Hf.
    destruct (fold_left _ diskMsgs _) as [ours ledger]. cbn [fst] in Hf.
    apply (holds_id_set c i cid (by_timestamp ours) m); [reflexivity| |exact H].
    intros l Hl He. rewrite E in Hl. injection Hl as <-.
    unfold by_timestamp. rewrite existsb_sort_by. now apply Hf.
  - apply (holds_id_set c i cid diskMsgs m); [reflexivity| |exact H].
    intros l Hl. rewrite E in Hl. discriminate.
Qed.

Lemma ensure_recent_keeps (now : Z) (m : t) (kv : jsstring * SentEntry)
    (c i : jsstring) :
  holds_id c i m -> holds_id c i (ensure_recent now m kv).
Proof.
  intros H. destruct kv as [msgId entry]. unfold ensure_recent.
  destruct (_ <? _); [exact H|].
  cbv zeta.
  destruct (Dict.get (channelId entry) (channelMessages m)) as [l0|] eqn:E.
  - destruct (existsb (has_id msgId) l0).
    + apply (holds_id_set c i (channelId entry) l0 m); [reflexivity| |exact H].
      intros l Hl He. rewrite E in Hl. now injection Hl as <-.
    + apply (holds_id_set c i (channelId entry)
               (by_timestamp (l0 ++ [message entry])) m);
        [reflexivity| |exact H].
      intros l Hl He. rewrite E in Hl. injection Hl as <-.
      unfold by_timestamp. now rewrite existsb_sort_by, existsb_app, He.
  - destruct (existsb (has_id msgId) []).
    + apply (holds_id_set c i (channelId entry) [] m); [reflexivity| |exact H].
      intros l Hl. rewrite E in Hl. discriminate.
    + apply (holds_id_set c i (channelId entry)
               (by_timestamp ([] ++ [message entry])) m);
        [reflexivity| |exact H].
      intros l Hl. rewrite E in Hl. discriminate.
Qed.

Lemma ensureRecentMessagesExist_keeps (now : Z) (m : t) (c i : jsstring) :
  holds_id c i m -> holds_id c i (ensureRecentMessagesExist now m).
Proof.
  unfold ensureRecentMessagesExist. apply fold_left_invariant.
  intros a b _. apply ensure_recent_keeps.
Qed.

Lemma merge_mutedChannels_messages (disk : option (Dict.t (list jsstring)))
    (m : t) :
  channelMessages (merge_mutedChannels disk m) = channelMessages m.
Proof. destruct disk; reflexivity. Qed.

Lemma merge_on_save_keeps (now : Z) (diskData : ChatDataV2.t) (m : t)
    (c i : jsstring) :
  holds_id c i m -> holds_id c i (merge_on_save now diskData m).
Proof.
  intros H. unfold merge_on_save.
  apply (holds_id_ext c i _ _ (merge_mutedChannels_messages _ _)).
  assert (H1 : holds_id c i
                 (fold_left (merge_channel_messages_save now
                               (ChatDataV2.channelMessages diskData))
                    (Dict.keys (ChatDataV2.channelMessages diskData)) m)).
  { apply fold_left_invariant; [|exact H].
    intros a b _. apply merge_channel_messages_save_keeps. }
  destruct (ChatDataV2.deletedChannels diskData); exact H1.
Qed.

(** *** The ledger of sent messages *)

Lemma fold_left_field {X B : Type} (field : t -> X) (f : t -> B -> t)
    (l : list B) :
  (forall m b, field (f m b) = field m) ->
  forall m, field (fold_left f l m) = field m.
Proof.
  intros Hf. induction l as [|b l IH]; intros m; simpl; [reflexivity|].
  now rewrite IH, Hf.
Qed.

Lemma merge_channel_messages_save_sent (now : Z)
    (disk : Dict.t (list ChatMessage.t)) (m : t) (cid : jsstring) :
  recentlySentMessages (merge_channel_messages_save now disk m cid)
  = recentlySentMessages m.
Proof.
  unfold merge_channel_messages_save.
  destruct (Dict.get cid disk); [|reflexivity].
  destruct (Dict.get cid (channelMessages m)); [|reflexivity].
  destruct (fold_left _ _ _). reflexivity.
Qed.

Lemma merge_channel_messages_load_sent (now : Z)
    (disk : Dict.t (list ChatMessage.t)) (m : t) (cid : jsstring) :
  recentlySentMessages (merge_channel_messages_load now disk m cid)
  = recentlySentMessages m.
Proof.
  unfold merge_channel_messages_load.
  destruct (Dict.get cid disk); [|reflexivity].
  destruct (Dict.get cid (channelMessages m)).
  - destruct (fold_left _ _ _) as [[ours ledger] dismissed]. reflexivity.
  - destruct (filter_dismissed _ _ _). reflexivity.
Qed.

Lemma merge_mutedChannels_sent (disk : option (Dict.t (list jsstring)))
    (m : t) :
  recentlySentMessages (merge_mutedChannels disk m) = recentlySentMessages m.
Proof. destruct disk; reflexivity. Qed.

Lemma merge_on_save_sent (now : Z) (diskData : ChatDataV2.t) (m : t) :
  recentlySentMessages (merge_on_save now diskData m) = recentlySentMessages m.
Proof.
  unfold merge_on_save. rewrite merge_mutedChannels_sent.
  assert (H : recentlySentMessages
                (fold_left (merge_channel_messages_save now
                              (ChatDataV2.channelMessages diskData))
                   (Dict.keys (ChatDataV2.channelMessages diskData)) m)
              = recentlySentMessages m).
  { apply fold_left_field. intros. apply merge_channel_messages_save_sent. }
  destruct (ChatDataV2.deletedChannels diskData); exact H.
Qed.

Lemma isRecentlyDeletedChannel_side (now : Z) (cid : jsstring) (m : t) :
  message_side (snd (isRecentlyDeletedChannel now cid m)) = message_side m.
Proof.
  unfold isRecentlyDeletedChannel.
  destruct (Dict.get cid (recentlyDeletedChannels m)) as [deletedTime|].
  - destruct (deletedTime =? 0).
    + destruct (ChatDataV2.deletedChannels (chatData m)) as [l|]; [|reflexivity].
      destruct (find _ l); [|reflexivity].
      destruct (_ <=? _); reflexivity.
    + destruct (_ <=? _); [reflexivity|].
      cbn [chatData set_recentlyDeletedChannels].
      destruct (ChatDataV2.deletedChannels (chatData m)) as [l|]; [|reflexivity].
      destruct (find _ l); [|reflexivity].
      destruct (_ <=? _); reflexivity.
  - destruct (ChatDataV2.deletedChannels (chatData m)) as [l|]; [|reflexivity].
    destruct (find _ l); [|reflexivity].
    destruct (_ <=? _); reflexivity.
Qed.

Lemma merged_members_side (now : Z) (diskChannel : Channel.t) (m : t) :
  message_side (snd (merged_members now diskChannel m)) = message_side m.
Proof.
  unfold merged_members, drop_if_left.
  destruct (currentUser m) as [cu|].
  - destruct (hasRecentlyLeftChannel _ _ _) as [hasLeft ledger].
    destruct hasLeft; destruct (getRecentlyAddedMembers _ _ _); reflexivity.
  - destruct (getRecentlyAddedMembers _ _ _). reflexivity.
Qed.

Lemma merge_disk_channel_side (now : Z) (ours0 : list Channel.t) (m : t)
    (diskChannel : Channel.t) :
  message_side (merge_disk_channel now ours0 m diskChannel) = message_side m.
Proof.
  unfold merge_disk_channel.
  pose proof (isRecentlyDeletedChannel_side now (Channel.id diskChannel) m) as H1.
  destruct (isRecentlyDeletedChannel now (Channel.id diskChannel) m)
    as [skip m1]. cbn [snd] in H1.
  destruct skip; [exact H1|].
  pose proof (merged_members_side now diskChannel m1) as H2.
  destruct (merged_members now diskChannel m1) as [members m2]. cbn [snd] in H2.
  rewrite <- H1, <- H2. destruct (find_last_index _ ours0); reflexivity.
Qed.

(** What [loadChat] does before it merges the messages leaves them, and
    the ledgers of sent and of dismissed messages, as they are, but for the
    lists of the channels it removes. *)
Lemma merge_channels_side (now : Z) (diskChannels : list Channel.t) (m : t) :
  message_side (merge_channels now diskChannels m) = message_side m.
Proof.
  unfold merge_channels. apply fold_left_field.
  intros. apply merge_disk_channel_side.
Qed.

Lemma merge_disk_channel_sent (now : Z) (ours0 : list Channel.t) (m : t)
    (diskChannel : Channel.t) :
  recentlySentMessages (merge_disk_channel now ours0 m diskChannel)
  = recentlySentMessages m.
Proof.
  pose proof (merge_disk_channel_side now ours0 m diskChannel) as H.
  unfold message_side in H. now injection H.
Qed.

Lemma merge_on_load_sent (now : Z) (diskData : ChatDataV2.t) (m : t) :
  recentlySentMessages (merge_on_load now diskData m) = recentlySentMessages m.
Proof.
  unfold merge_on_load. rewrite merge_mutedChannels_sent.
  change (recentlySentMessages (merge_readState ?r ?x))
    with (recentlySentMessages x).
  rewrite fold_left_field
    by (intros; apply merge_channel_messages_load_sent).
  unfold merge_channels.
  rewrite fold_left_field by (intros; apply merge_disk_channel_sent).
  unfold remove_deleted_channels.
  rewrite fold_left_field by reflexivity.
  reflexivity.
Qed.

(** The pass over the ledger puts back a message within the window that
    its channel lacks. *)
Lemma ensure_recent_establishes (now : Z) (m : t) (msgId : jsstring)
    (entry : SentEntry) :
  ChatMessage.id (message entry) = msgId ->
  now - timestamp entry <= MESSAGE_PROTECTION_DURATION ->
  holds_id (channelId entry) msgId (ensure_recent now m (msgId, entry)).
Proof.
  intros Hid Hfresh. unfold ensure_recent.
  apply Z.ltb_ge in Hfresh. rewrite Hfresh. cbv zeta.
  destruct (existsb (has_id msgId) _) eqn:E;
    apply holds_id_after_set; [exact E|].
  unfold by_timestamp. rewrite existsb_sort_by, existsb_app. cbn [existsb].
  unfold has_id at 2. rewrite Hid, str_eqb_refl. now rewrite orb_true_r.
Qed.

Lemma ensureRecentMessagesExist_restores (now : Z) (m : t) (msgId : jsstring)
    (entry : SentEntry) :
  protected_message now msgId entry m ->
  holds_id (channelId entry) msgId (ensureRecentMessagesExist now m).
Proof.
  intros [Hin [Hid Hfresh]]. unfold ensureRecentMessagesExist.
  apply (fold_left_reaches _ _ _ (msgId, entry)).
  - intros a b. apply ensure_recent_keeps.
  - intros a. now apply ensure_recent_establishes.
  - exact Hin.
Qed.

Section WithHost.
Variable stringify : ChatDataV2.t -> jsstring.

Lemma saveChat_messages (now : Z) (m : t) :
  channelMessages (saveChat stringify now m)
  = channelMessages
      (ensureRecentMessagesExist now
         match chatFile m with
         | Content (V2 diskData) => merge_on_save now diskData m
         | _ => m
         end).
Proof. reflexivity. Qed.

Lemma saveChat_holds (now : Z) (m : t) (cid i : jsstring) :
  holds_id cid i m -> holds_id cid i (saveChat stringify now m).
Proof.
  intros H. apply (holds_id_ext cid i _ _ (saveChat_messages now m)).
  apply ensureRecentMessagesExist_keeps.
  destruct (chatFile m) as [| |[d|d]]; try exact H.
  now apply merge_on_save_keeps.
Qed.

Lemma saveChat_file_holds (now : Z) (m : t) (cid i : jsstring) :
  holds_id cid i (saveChat stringify now m) ->
  file_holds_id cid i (saveChat stringify now m).
Proof.
  intros [l [Hl He]].
  exists (chatData (saveChat stringify now m)), l.
  split; [reflexivity | split; assumption].
Qed.

(** X7: [saveChat] drops no message: a message id that a channel holds in
    memory is held by that channel after the save, in memory and in the
    file that is written, whatever the file held. *)
Theorem saveChat_keeps_messages (now : Z) (m : t) (cid i : jsstring) :
  holds_id cid i m ->
  holds_id cid i (saveChat stringify now m)
  /\ file_holds_id cid i (saveChat stringify now m).
Proof.
  intros H. pose proof (saveChat_holds now m cid i H) as H'.
  split; [exact H' | now apply saveChat_file_holds].
Qed.

(** *** The messages of the file *)

Lemma nth_error_update_nth {A : Type} (f : A -> A) (l : list A) : forall i j,
  nth_error (update_nth i f l) j
  = if Nat.eqb i j then option_map f (nth_error l j) else nth_error l j.
Proof.
  induction l as [|x l IH]; intros i j.
  - destruct i, j; simpl; try reflexivity; now destruct (Nat.eqb _ _).
  - destruct i, j; simpl; try reflexivity. apply IH.
Qed.


Lemma merge_disk_message_same_ids (now : Z) (ours0 ours : list ChatMessage.t)
    (ledger : Dict.t (list Toggle)) (diskMsg : ChatMessage.t) :
  same_ids ours0 ours ->
  same_ids ours0 (fst (merge_disk_message now ours0 (ours, ledger) diskMsg)).
Proof.
  intros H. unfold merge_disk_message.
  destruct (our_index ours0 (ChatMessage.id diskMsg)) as [idx|].
  - destruct (nth_error ours idx) as [ourMsg|] eqn:E; [|assumption].
    pose proof (mergeMessageUpdates_id now ledger ourMsg diskMsg) as Hid.
    destruct (mergeMessageUpdates now ledger ourMsg diskMsg) as [m' ledger'].
    cbn [fst] in *. intros j a Hj.
    destruct (H j a Hj) as [b [Hb Hab]].
    rewrite nth_error_update_nth.
    destruct (Nat.eqb_spec idx j) as [->|_].
    + rewrite Hb. cbn [option_map]. exists m'. split; [reflexivity|].
      rewrite Hb in E. injection E as ->. congruence.
    + now exists b.
  - cbn [fst]. intros j a Hj. destruct (H j a Hj) as [b [Hb Hab]].
    exists b. split; [|assumption].
    rewrite nth_error_app1; [assumption|].
    apply nth_error_Some. congruence.
Qed.



Lemma fold_merge_disk_same_ids (now : Z) (ours0 : list ChatMessage.t)
    (diskMsgs : list ChatMessage.t) :
  forall acc,
  same_ids ours0 (fst acc) ->
  same_ids ours0 (fst (fold_left (merge_disk_message now ours0) diskMsgs acc)).
Proof.
  induction diskMsgs as [|d diskMsgs IH]; intros [ours ledger] H;
    cbn [fold_left]; [assumption|].
  apply IH. now apply merge_disk_message_same_ids.
Qed.






(** *** Messages just sent *)

Lemma skipn_keeps_last {A : Type} (l : list A) (x : A) (k : nat) :
  (k <= length l)%nat -> skipn k (l ++ [x]) = skipn k l ++ [x].
Proof.
  intros Hk. rewrite skipn_app.
  replace (k - length l)%nat with 0%nat by lia. reflexivity.
Qed.

(** X9: the message [sendMessage] builds is held by the channel it was sent
    to when the call returns, in memory and in the file that is written:
    neither the cap of the list nor the merge with the file drops it. *)
Theorem sendMessage_is_held (now : Z) (newId text : jsstring)
    (fileLinks : option (list jsstring)) (images : option (list ChatImage.t))
    (cid replyTo : option jsstring)
    (validMentions validChannelMentions : list jsstring) (m : t)
    (cu : VaultUser.t) :
  currentUser m = Some cu ->
  let r := sendMessage stringify now newId text fileLinks images cid replyTo
             validMentions validChannelMentions m in
  (exists msg, fst r = Some msg
               /\ ChatMessage.id msg = newId
               /\ ChatMessage.from msg = VaultUser.vaultName cu)
  /\ holds_id (target_channel cid m) newId (snd r)
  /\ file_holds_id (target_channel cid m) newId (snd r).
Proof.
  intros Hcu r. subst r. unfold sendMessage. rewrite Hcu. cbv zeta.
  cbn [fst snd]. split.
  - eexists. repeat split; reflexivity.
  - match goal with
    | |- holds_id ?c ?i (saveChat stringify now ?m2) /\ _ =>
        assert (H : holds_id c i m2)
    end.
    { apply holds_id_after_set.
      match goal with
      | |- existsb _ (if _ then slice_last _ (?l ++ [?x]) else _) = true =>
          assert (Hx : has_id newId x = true)
            by (unfold has_id; apply str_eqb_refl);
          destruct (Nat.ltb _ _) eqn:Hlt
      end.
      - unfold slice_last. rewrite skipn_keeps_last.
        + rewrite existsb_app. cbn [existsb]. rewrite Hx.
          now rewrite orb_true_r.
        + rewrite length_app. unfold MAX_MESSAGES_PER_CHANNEL. simpl. lia.
      - rewrite existsb_app. cbn [existsb]. rewrite Hx.
        now rewrite orb_true_r. }
    pose proof (saveChat_holds now _ _ _ H) as H'.
    split; [exact H' | now apply saveChat_file_holds].
Qed.

Lemma saveChat_restores (now : Z) (m : t) (msgId : jsstring)
    (entry : SentEntry) :
  protected_message now msgId entry m ->
  holds_id (channelId entry) msgId (saveChat stringify now m).
Proof.
  intros [Hin Hrest].
  apply (holds_id_ext _ _ _ _ (saveChat_messages now m)).
  apply ensureRecentMessagesExist_restores. split; [|exact Hrest].
  destruct (chatFile m) as [| |[d|d]]; try exact Hin.
  now rewrite merge_on_save_sent.
Qed.

(** X10: a message sent within the last 60 seconds survives a load.  When the
    manager holds channels, and holds the message in its channel, the
    channel holds it after [loadChat], whatever the file holds and whether
    or not it can be read. *)
Theorem loadChat_keeps_sent_message (now : Z) (reads : nat -> File ChatData)
    (m : t) (msgId : jsstring) (entry : SentEntry) :
  protected_message now msgId entry m ->
  channels m <> [] ->
  holds_id (channelId entry) msgId m ->
  holds_id (channelId entry) msgId (loadChat stringify now reads m).
Proof.
  intros Hp Hch Hheld. unfold loadChat.
  assert (Hmerge : forall diskData,
             holds_id (channelId entry) msgId
               (ensureRecentMessagesExist now (merge_on_load now diskData m))).
  { intros diskData. apply ensureRecentMessagesExist_restores.
    destruct Hp as [Hin Hrest]. split; [|exact Hrest].
    now rewrite merge_on_load_sent. }
  destruct (chatFile m).
  - apply ensureRecentMessagesExist_keeps. apply saveChat_restores.
    exact Hp.
  - destruct (fst (read_with_retry stringify reads)) as [rawData|];
      destruct (channels m); try congruence; apply Hmerge.
  - destruct (fst (read_with_retry stringify reads)) as [rawData|];
      destruct (channels m); try congruence; apply Hmerge.
Qed.

End WithHost.

Lemma saveChat_keeps_messages_witness :
  holds_id GENERAL_CHANNEL_ID (js "m1")
    (saveChat sample_stringify 3000 before_delete)
  /\ file_holds_id GENERAL_CHANNEL_ID (js "m1")
       (saveChat sample_stringify 3000 before_delete).
Proof.
  apply saveChat_keeps_messages.
  exists [hello]. split; reflexivity.
Defined.


Lemma sendMessage_is_held_witness :
  let r := sendMessage sample_stringify 5000 (js "new") (js "one more") None
             None None None [] [] at_the_cap in
  (exists msg, fst r = Some msg
               /\ ChatMessage.id msg = js "new"
               /\ ChatMessage.from msg = VaultUser.vaultName alice)
  /\ holds_id GENERAL_CHANNEL_ID (js "new") (snd r)
  /\ file_holds_id GENERAL_CHANNEL_ID (js "new") (snd r).
Proof.
  apply (sendMessage_is_held sample_stringify 5000 (js "new") (js "one more")
           None None None None [] [] at_the_cap alice).
  reflexivity.
Defined.
Lemma loadChat_keeps_sent_message_witness :
  holds_id GENERAL_CHANNEL_ID (js "new")
    (loadChat sample_stringify 30000 stale_reads after_send).
Proof.
  apply (loadChat_keeps_sent_message sample_stringify 30000 stale_reads
           after_send (js "new") sent_entry).
  - split; [left; reflexivity | split; [reflexivity | vm_compute; discriminate]].
  - discriminate.
  - exists [hello; sent_message]. split; reflexivity.
Defined.

End DurabilityFacts.

(** ** Read state, mutes and dismissed messages *)

Module ReadFacts.
Import ChatManager Ops Samples ChannelFacts LeaveFacts DurabilityFacts.

(** *** The merge of the read state *)

(** What [obj[k]] is for a property of the object's own, and under a name
    that is not inherited. *)
Lemma member_own {V : Type} (k : jsstring) (v : V) (d : Dict.t V) :
  Dict.get k d = Some v -> Dict.member k d = Dict.Own v.
Proof. unfold Dict.member. now intros ->. Qed.

Lemma member_plain {V : Type} (k : jsstring) (d : Dict.t V) :
  Dict.get k d = None -> is_inherited k = false ->
  Dict.member k d = Dict.Undefined.
Proof. unfold Dict.member. now intros -> ->. Qed.

Lemma assign_plain {V : Type} (k : jsstring) (v : V) (d : Dict.t V) :
  k <> js "__proto__" -> Dict.assign k v d = Dict.set k v d.
Proof.
  intros Hk. unfold Dict.assign.
  destruct (str_eqb_spec k (js "__proto__")); [contradiction|].
  now rewrite orb_true_r.
Qed.

Lemma merge_read_user_ours (disk ours : Dict.t Z) (k u : jsstring) (t : Z) :
  Dict.get u ours = Some t ->
  exists t', Dict.get u (merge_read_user disk ours k) = Some t' /\ t <= t'.
Proof.
  intros H. unfold merge_read_user.
  destruct (Dict.get k disk) as [d|]; [|exists t; split; [assumption | lia]].
  destruct (str_eqb_spec u k) as [<-|Hne].
  - rewrite (member_own _ _ _ H). destruct (t <? d) eqn:E.
    + rewrite get_set_same. exists d. apply Z.ltb_lt in E.
      split; [reflexivity | lia].
    + exists t. split; [assumption | lia].
  - destruct (Dict.member k ours) as [o| |].
    + destruct (o <? d).
      * rewrite get_set_other by assumption. exists t. split; [assumption | lia].
      * exists t. split; [assumption | lia].
    + exists t. split; [assumption | lia].
    + rewrite get_set_other by assumption. exists t. split; [assumption | lia].
Qed.

Lemma merge_read_user_disk (disk ours : Dict.t Z) (u : jsstring) (d : Z) :
  is_inherited u = false ->
  Dict.get u disk = Some d ->
  exists t', Dict.get u (merge_read_user disk ours u) = Some t' /\ d <= t'.
Proof.
  intros Hu H. unfold merge_read_user. rewrite H.
  destruct (Dict.get u ours) as [o|] eqn:E.
  - rewrite (member_own _ _ _ E). destruct (o <? d) eqn:Hlt.
    + rewrite get_set_same. exists d. split; [reflexivity | lia].
    + exists o. apply Z.ltb_ge in Hlt. split; [assumption | lia].
  - rewrite (member_plain _ _ E Hu), get_set_same.
    exists d. split; [reflexivity | lia].
Qed.

(** A time that is read and is not before [t]. *)
Lemma later_trans (r : option Z) (t t1 : Z) :
  (exists t', r = Some t' /\ t1 <= t') -> t <= t1 ->
  exists t', r = Some t' /\ t <= t'.
Proof. intros [t' [H Hle]] Ht. exists t'. split; [assumption | lia]. Qed.

Lemma fold_merge_read_user_ours (disk : Dict.t Z) (u : jsstring)
    (ks : list jsstring) : forall (ours : Dict.t Z) (t : Z),
  Dict.get u ours = Some t ->
  exists t', Dict.get u (fold_left (merge_read_user disk) ks ours) = Some t'
             /\ t <= t'.
Proof.
  induction ks as [|k ks IH]; intros ours t H; cbn [fold_left].
  - exists t. split; [assumption | lia].
  - destruct (merge_read_user_ours disk ours k u t H) as [t1 [H1 Hle]].
    apply later_trans with t1; [now apply IH | assumption].
Qed.

Lemma fold_merge_read_user_disk (disk : Dict.t Z) (u : jsstring) (d : Z)
    (ks : list jsstring) : forall (ours : Dict.t Z),
  is_inherited u = false ->
  Dict.get u disk = Some d -> In u ks ->
  exists t', Dict.get u (fold_left (merge_read_user disk) ks ours) = Some t'
             /\ d <= t'.
Proof.
  induction ks as [|k ks IH]; intros ours Hu Hd Hin; [contradiction|].
  cbn [fold_left]. destruct Hin as [->|Hin].
  - destruct (merge_read_user_disk disk ours u d Hu Hd) as [t1 [H1 Hle]].
    apply later_trans with t1; [now apply fold_merge_read_user_ours | assumption].
  - now apply IH.
Qed.

Lemma get_keys {V : Type} (k : jsstring) (v : V) (d : Dict.t V) :
  Dict.get k d = Some v -> In k (Dict.keys d).
Proof.
  intros H. unfold Dict.keys. apply in_map_iff. exists (k, v).
  split; [reflexivity | now apply ReactionFacts.get_In].
Qed.

Lemma merge_read_channel_ours (disk ours : Dict.t (Dict.t Z))
    (k c u : jsstring) (t : Z) :
  read_at c u ours = Some t ->
  exists t', read_at c u (merge_read_channel disk ours k) = Some t' /\ t <= t'.
Proof.
  unfold read_at, merge_read_channel. intros H.
  destruct (Dict.get c ours) as [ch|] eqn:Hc; [|discriminate].
  destruct (Dict.get k disk) as [diskCh|];
    [|rewrite Hc; exists t; split; [assumption | lia]].
  destruct (str_eqb_spec c k) as [<-|Hne].
  - rewrite Hc, get_set_same. now apply fold_merge_read_user_ours.
  - destruct (Dict.get k ours); rewrite get_set_other by assumption;
      rewrite Hc; exists t; (split; [assumption | lia]).
Qed.

Lemma merge_read_channel_disk (disk ours : Dict.t (Dict.t Z))
    (c u : jsstring) (d : Z) :
  is_inherited u = false ->
  read_at c u disk = Some d ->
  exists t', read_at c u (merge_read_channel disk ours c) = Some t' /\ d <= t'.
Proof.
  unfold read_at, merge_read_channel. intros Hu H.
  destruct (Dict.get c disk) as [diskCh|]; [|discriminate].
  destruct (Dict.get c ours) as [ourCh|]; rewrite get_set_same.
  - apply fold_merge_read_user_disk;
      [assumption | assumption | now apply get_keys with d].
  - exists d. split; [assumption | lia].
Qed.

Lemma fold_merge_read_channel_ours (disk : Dict.t (Dict.t Z)) (c u : jsstring)
    (ks : list jsstring) : forall (ours : Dict.t (Dict.t Z)) (t : Z),
  read_at c u ours = Some t ->
  exists t', read_at c u (fold_left (merge_read_channel disk) ks ours) = Some t'
             /\ t <= t'.
Proof.
  induction ks as [|k ks IH]; intros ours t H; cbn [fold_left].
  - exists t. split; [assumption | lia].
  - destruct (merge_read_channel_ours disk ours k c u t H) as [t1 [H1 Hle]].
    apply later_trans with t1; [now apply IH | assumption].
Qed.

Lemma fold_merge_read_channel_disk (disk : Dict.t (Dict.t Z)) (c u : jsstring)
    (d : Z) (ks : list jsstring) : forall (ours : Dict.t (Dict.t Z)),
  is_inherited u = false ->
  read_at c u disk = Some d -> In c ks ->
  exists t', read_at c u (fold_left (merge_read_channel disk) ks ours) = Some t'
             /\ d <= t'.
Proof.
  induction ks as [|k ks IH]; intros ours Hu Hd Hin; [contradiction|].
  cbn [fold_left]. destruct Hin as [->|Hin].
  - destruct (merge_read_channel_disk disk ours c u d Hu Hd) as [t1 [H1 Hle]].
    apply later_trans with t1;
      [now apply fold_merge_read_channel_ours | assumption].
  - now apply IH.
Qed.

(** X11: the merge of the read state takes the later time.  For every
    channel and user, a time stored in memory is stored after
    [merge_readState], or a later one is; and when neither the channel id
    nor the user name is one of the names inherited from
    [Object.prototype], a time stored in the file is stored afterwards, or
    a later one is. *)
Theorem merge_readState_later (disk : Dict.t (Dict.t Z)) (m : t)
    (c u : jsstring) :
  (forall t, read_at c u (readState m) = Some t ->
     exists t', read_at c u (readState (merge_readState disk m)) = Some t'
                /\ t <= t')
  /\ (is_inherited c = false -> is_inherited u = false ->
      forall d, read_at c u disk = Some d ->
        exists t', read_at c u (readState (merge_readState disk m)) = Some t'
                   /\ d <= t').
Proof.
  change (readState (merge_readState disk m))
    with (fold_left (merge_read_channel disk) (Dict.keys disk) (readState m)).
  split.
  - intros t H. now apply fold_merge_read_channel_ours.
  - intros _ Hu d H. apply fold_merge_read_channel_disk; [assumption..|].
    unfold read_at in H.
    destruct (Dict.get c disk) as [ch|] eqn:E; [|discriminate].
    now apply get_keys with ch.
Qed.

(** *** [markAsRead] *)

Lemma ensureRecentMessagesExist_readState (now : Z) (m : t) :
  readState (ensureRecentMessagesExist now m) = readState m.
Proof.
  unfold ensureRecentMessagesExist. apply fold_left_field.
  intros m' [msgId entry]. unfold ensure_recent.
  destruct (_ <? _); [reflexivity|].
  destruct (existsb _ _); reflexivity.
Qed.

Lemma merge_channel_messages_save_readState (now : Z)
    (disk : Dict.t (list ChatMessage.t)) (m : t) (cid : jsstring) :
  readState (merge_channel_messages_save now disk m cid) = readState m.
Proof.
  unfold merge_channel_messages_save.
  destruct (Dict.get cid disk); [|reflexivity].
  destruct (Dict.get cid (channelMessages m)); [|reflexivity].
  destruct (fold_left _ _ _). reflexivity.
Qed.

Lemma merge_on_save_readState (now : Z) (diskData : ChatDataV2.t) (m : t) :
  readState (merge_on_save now diskData m)
  = fold_left (merge_read_channel (ChatDataV2.readState diskData))
      (Dict.keys (ChatDataV2.readState diskData)) (readState m).
Proof.
  unfold merge_on_save.
  assert (Hm : forall d x, readState (merge_mutedChannels d x) = readState x)
    by (intros [d|] x; reflexivity).
  rewrite Hm.
  assert (H1 : readState
                 (fold_left (merge_channel_messages_save now
                               (ChatDataV2.channelMessages diskData))
                    (Dict.keys (ChatDataV2.channelMessages diskData)) m)
               = readState m).
  { apply fold_left_field. intros. apply merge_channel_messages_save_readState. }
  destruct (ChatDataV2.deletedChannels diskData).
  - change (readState (set_tombstones ?l (merge_readState ?r ?x)))
      with (fold_left (merge_read_channel r) (Dict.keys r) (readState x)).
    now rewrite H1.
  - change (readState (merge_readState ?r ?x))
      with (fold_left (merge_read_channel r) (Dict.keys r) (readState x)).
    now rewrite H1.
Qed.

Section WithHost.
Variable stringify : ChatDataV2.t -> jsstring.

Lemma saveChat_readState (now : Z) (m : t) :
  readState (saveChat stringify now m)
  = match chatFile m with
    | Content (V2 diskData) =>
        fold_left (merge_read_channel (ChatDataV2.readState diskData))
          (Dict.keys (ChatDataV2.readState diskData)) (readState m)
    | _ => readState m
    end.
Proof.
  unfold saveChat.
  change (readState (set_chatFile ?f (set_chatData (stamp stringify (chatData ?y)) ?y)))
    with (readState y).
  change (readState (set_tombstones ?l ?x)) with (readState x).
  rewrite ensureRecentMessagesExist_readState.
  destruct (chatFile m) as [| |[d|d]]; try reflexivity.
  apply merge_on_save_readState.
Qed.

(** A read time survives a save, or is replaced by a later one. *)
Lemma saveChat_read_later (now : Z) (m : t) (c u : jsstring) (t : Z) :
  read_at c u (readState m) = Some t ->
  exists t', read_at c u (readState (saveChat stringify now m)) = Some t'
             /\ t <= t'.
Proof.
  intros H. rewrite saveChat_readState.
  destruct (chatFile m) as [| |[d|d]];
    try (exists t; split; [assumption | lia]).
  now apply fold_merge_read_channel_ours.
Qed.

(** X12: [markAsRead] marks.  For a current user not named [__proto__] and
    a target channel whose id is not a name inherited from
    [Object.prototype], the read time stored for the user in the target
    channel after [markAsRead] at time [now] is [now] or later, in spite of
    the merge with the file; every message [getUnreadCount] then counts for
    that user and channel is stamped later than [now]; and the count is 0
    when the channel holds no message stamped later than [now]. *)
Theorem markAsRead_marks (now : Z) (cid : option jsstring) (m : t)
    (cu : VaultUser.t) :
  currentUser m = Some cu ->
  VaultUser.vaultName cu <> js "__proto__" ->
  is_inherited (target_channel cid m) = false ->
  let m' := markAsRead stringify now cid m in
  let target := target_channel cid m in
  let u := VaultUser.vaultName cu in
  (exists t', read_at target u (readState m') = Some t' /\ now <= t')
  /\ Forall (fun msg => now < ChatMessage.timestamp msg)
       (unread_messages target u m')
  /\ (forall messages,
        Dict.get target (channelMessages m') = Some messages ->
        Forall (fun msg => ChatMessage.timestamp msg <= now) messages ->
        getUnreadCount target u m' = O).
Proof.
  intros Hcu Hname _ m' target u.
  assert (Hread : exists t', read_at target u (readState m') = Some t'
                             /\ now <= t').
  { subst m' target u. unfold markAsRead. rewrite Hcu. cbv zeta.
    apply saveChat_read_later.
    unfold read_at.
    match goal with
    | |- match Dict.get ?c (readState (upd_readState (Dict.set ?c ?v) m)) with
         | Some _ => _ | None => _ end = _ =>
        change (readState (upd_readState (Dict.set c v) m))
          with (Dict.set c v (readState m))
    end.
    rewrite get_set_same, assign_plain by assumption. apply get_set_same. }
  assert (Hlater : Forall (fun msg => now < ChatMessage.timestamp msg)
                     (unread_messages target u m')).
  { destruct Hread as [t' [Ht' Hle]].
    unfold unread_messages, last_read_time. unfold read_at in Ht'.
    destruct (Dict.get target (readState m')) as [ch|]; [|discriminate].
    rewrite (member_own _ _ _ Ht').
    apply Forall_forall. intros msg Hin. apply filter_In in Hin.
    destruct Hin as [_ Hp].
    repeat (apply andb_true_iff in Hp; destruct Hp as [Hp _]).
    apply Z.ltb_lt in Hp. lia. }
  split; [exact Hread|]. split; [exact Hlater|].
  intros messages Hget Hold. unfold getUnreadCount.
  remember (unread_messages target u m') as unread eqn:E.
  destruct unread as [|msg rest]; [reflexivity|].
  exfalso.
  pose proof (Forall_inv Hlater) as Hnew.
  assert (Hin : In msg (unread_messages target u m')) by (rewrite <- E; now left).
  unfold unread_messages in Hin. rewrite Hget in Hin.
  apply filter_In in Hin. destruct Hin as [Hin _].
  pose proof (proj1 (Forall_forall _ _) Hold msg Hin) as Hle. cbv beta in *.
  lia.
Qed.

End WithHost.

Lemma markAsRead_marks_witness :
  let m' := markAsRead sample_stringify 9000 None after_send in
  (exists t', read_at GENERAL_CHANNEL_ID (js "alice") (readState m') = Some t'
              /\ 9000 <= t')
  /\ Forall (fun msg => 9000 < ChatMessage.timestamp msg)
       (unread_messages GENERAL_CHANNEL_ID (js "alice") m')
  /\ (forall messages,
        Dict.get GENERAL_CHANNEL_ID (channelMessages m') = Some messages ->
        Forall (fun msg => ChatMessage.timestamp msg <= 9000) messages ->
        getUnreadCount GENERAL_CHANNEL_ID (js "alice") m' = O).
Proof.
  apply (markAsRead_marks sample_stringify 9000 None after_send alice).
  - reflexivity.
  - discriminate.
  - reflexivity.
Defined.

(** *** Muted channels *)

Lemma fold_set_add_In (x : jsstring) (l : list jsstring) :
  forall acc,
  In x (fold_left (fun acc y => set_add y acc) l acc) <-> In x acc \/ In x l.
Proof.
  induction l as [|y l IH]; intros acc; cbn [fold_left].
  - simpl. tauto.
  - rewrite IH, ReactionFacts.set_add_In. simpl.
    split; [intros [[H|H]|H] | intros [H|[H|H]]]; subst; auto.
Qed.

Lemma dedup_In (x : jsstring) (l : list jsstring) :
  In x (dedup l) <-> In x l.
Proof. unfold dedup. rewrite fold_set_add_In. simpl. tauto. Qed.

Lemma muted_of_Some (u : jsstring) (d : Dict.t (list jsstring)) :
  muted_of u (Some d)
  = match Dict.get u d with Some l => l | None => [] end.
Proof. reflexivity. Qed.

Lemma merge_muted_user_spec (disk ours ours' : Dict.t (list jsstring))
    (k u x : jsstring) :
  merge_muted_user disk ours k = Some ours' ->
  (In x (muted_of u (Some ours'))
   <-> In x (muted_of u (Some ours))
       \/ (u = k /\ In x (muted_of u (Some disk)))).
Proof.
  rewrite !muted_of_Some. unfold merge_muted_user, Dict.member.
  destruct (str_eqb_spec u k) as [<-|Hne].
  - destruct (Dict.get u disk) as [dl|].
    + destruct (Dict.get u ours) as [ol|].
      * intros [= <-]. rewrite get_set_same, dedup_In, in_app_iff. tauto.
      * destruct (is_inherited u); [discriminate|].
        intros [= <-]. rewrite get_set_same. simpl. tauto.
    + intros [= <-]. destruct (Dict.get u ours); simpl; tauto.
  - destruct (Dict.get k disk) as [dl|]; [|intros [= <-]; tauto].
    destruct (Dict.get k ours).
    + intros [= <-]. rewrite get_set_other by assumption. tauto.
    + destruct (is_inherited k); [discriminate|].
      intros [= <-]. rewrite get_set_other by assumption. tauto.
Qed.


(** The loop stores and never takes away, whether it ends or throws. *)
Lemma merge_muted_users_keeps (disk : Dict.t (list jsstring))
    (u x : jsstring) (ks : list jsstring) :
  forall ours,
  In x (muted_of u (Some ours)) ->
  In x (muted_of u (Some (merge_muted_users disk ks ours))).
Proof.
  induction ks as [|k ks IH]; intros ours H; cbn [merge_muted_users];
    [assumption|].
  destruct (merge_muted_user disk ours k) as [ours'|] eqn:E; [|assumption].
  apply IH. apply (merge_muted_user_spec _ _ _ _ _ _ E). now left.
Qed.



Lemma muted_of_default (u : jsstring) (muted : option (Dict.t (list jsstring))) :
  muted_of u (Some match muted with
                   | Some o => o
                   | None => []
                   end)
  = muted_of u muted.
Proof. destruct muted; reflexivity. Qed.

(** The merge of the muted channels stores and never takes away. *)
Lemma merge_mutedChannels_keeps (dm : option (Dict.t (list jsstring))) (m : t)
    (u x : jsstring) :
  In x (muted_of u (mutedChannels m)) ->
  In x (muted_of u (mutedChannels (merge_mutedChannels dm m))).
Proof.
  destruct dm as [diskMuted|]; [|trivial].
  unfold merge_mutedChannels, mutedChannels. cbn [chatData set_chatData].
  cbn [ChatDataV2.mutedChannels ChatDataV2.set_mutedChannels].
  intros H. apply merge_muted_users_keeps. now rewrite muted_of_default.
Qed.



Lemma merge_mutedChannels_ext (dm : option (Dict.t (list jsstring))) (a b : t) :
  mutedChannels a = mutedChannels b ->
  mutedChannels (merge_mutedChannels dm a)
  = mutedChannels (merge_mutedChannels dm b).
Proof.
  unfold mutedChannels. destruct dm as [d|]; [|trivial].
  intros H. unfold merge_mutedChannels.
  cbn [chatData set_chatData ChatDataV2.mutedChannels
       ChatDataV2.set_mutedChannels].
  now rewrite H.
Qed.

Lemma merge_channel_messages_save_muted (now : Z)
    (disk : Dict.t (list ChatMessage.t)) (m : t) (cid : jsstring) :
  mutedChannels (merge_channel_messages_save now disk m cid) = mutedChannels m.
Proof.
  unfold merge_channel_messages_save.
  destruct (Dict.get cid disk); [|reflexivity].
  destruct (Dict.get cid (channelMessages m)); [|reflexivity].
  destruct (fold_left _ _ _). reflexivity.
Qed.

Lemma ensureRecentMessagesExist_muted (now : Z) (m : t) :
  mutedChannels (ensureRecentMessagesExist now m) = mutedChannels m.
Proof.
  unfold ensureRecentMessagesExist. apply fold_left_field.
  intros m' [msgId entry]. unfold ensure_recent.
  destruct (_ <? _); [reflexivity|].
  destruct (existsb _ _); reflexivity.
Qed.

Lemma merge_on_save_muted (now : Z) (diskData : ChatDataV2.t) (m : t) :
  mutedChannels (merge_on_save now diskData m)
  = mutedChannels (merge_mutedChannels (ChatDataV2.mutedChannels diskData) m).
Proof.
  unfold merge_on_save. apply merge_mutedChannels_ext.
  assert (H1 : mutedChannels
                 (fold_left (merge_channel_messages_save now
                               (ChatDataV2.channelMessages diskData))
                    (Dict.keys (ChatDataV2.channelMessages diskData)) m)
               = mutedChannels m).
  { apply fold_left_field. intros. apply merge_channel_messages_save_muted. }
  destruct (ChatDataV2.deletedChannels diskData); exact H1.
Qed.

Section WithFile.
Variable stringify : ChatDataV2.t -> jsstring.

Lemma saveChat_muted (now : Z) (m : t) :
  mutedChannels (saveChat stringify now m)
  = match chatFile m with
    | Content (V2 diskData) =>
        mutedChannels
          (merge_mutedChannels (ChatDataV2.mutedChannels diskData) m)
    | _ => mutedChannels m
    end.
Proof.
  unfold saveChat.
  change (mutedChannels
            (set_chatFile ?f (set_chatData (stamp stringify (chatData ?y)) ?y)))
    with (mutedChannels y).
  change (mutedChannels (set_tombstones ?l ?x)) with (mutedChannels x).
  rewrite ensureRecentMessagesExist_muted.
  destruct (chatFile m) as [| |[d|d]]; try reflexivity.
  apply merge_on_save_muted.
Qed.

Lemma saveChat_currentUser (now : Z) (m : t) :
  currentUser (saveChat stringify now m) = currentUser m.
Proof.
  pose proof (saveChat_ledgers stringify now m) as H.
  unfold ledgers in H. now injection H.
Qed.

Lemma saveChat_mutes_keep (now : Z) (m : t) (u x : jsstring) :
  In x (muted_of u (mutedChannels m)) ->
  In x (muted_of u (mutedChannels (saveChat stringify now m))).
Proof.
  intros H. rewrite saveChat_muted.
  destruct (chatFile m) as [| |[d|d]]; try exact H.
  now apply merge_mutedChannels_keeps.
Qed.

(** A channel of the list stored for the current user is muted. *)
Lemma isChannelMuted_In (cid : jsstring) (m : t) (cu : VaultUser.t) :
  currentUser m = Some cu ->
  In cid (muted_of (VaultUser.vaultName cu) (mutedChannels m)) ->
  isChannelMuted cid m = Returns true.
Proof.
  intros Hcu Hin. unfold isChannelMuted. rewrite Hcu.
  unfold mutedChannels, muted_of in Hin.
  destruct (ChatDataV2.mutedChannels (chatData m)) as [muted|];
    [|contradiction].
  destruct (Dict.get (VaultUser.vaultName cu) muted) as [l|] eqn:E;
    [|contradiction].
  rewrite (member_own _ _ _ E). f_equal. now apply includes_In.
Qed.

(** What [toggleChannelMute] does with the list it found or created. *)
Lemma toggled_In (cid : jsstring) (mutedList : list jsstring) :
  includes mutedList cid = false ->
  In cid (if includes mutedList cid then remove_first cid mutedList
          else mutedList ++ [cid]).
Proof. intros ->. apply in_or_app. right. now left. Qed.



(** X15: [toggleChannelMute] on a channel that is not muted mutes it.  For
    a current user whose name is not one of the names inherited from
    [Object.prototype], and a channel that [isChannelMuted] reports as not
    muted, the call returns [true] and the channel is muted afterwards,
    whatever the file holds. *)
Theorem toggleChannelMute_mutes (now : Z) (cid : jsstring) (m : t)
    (cu : VaultUser.t) :
  currentUser m = Some cu ->
  is_inherited (VaultUser.vaultName cu) = false ->
  isChannelMuted cid m = Returns false ->
  fst (toggleChannelMute stringify now cid m) = Returns true
  /\ isChannelMuted cid (snd (toggleChannelMute stringify now cid m))
     = Returns true.
Proof.
  intros Hcu Hname Hnot.
  assert (H : forall mutedList muted,
             includes mutedList cid = false ->
             isChannelMuted cid
               (saveChat stringify now
                  (set_chatData
                     (ChatDataV2.set_mutedChannels
                        (Some (Dict.set (VaultUser.vaultName cu)
                                 (if includes mutedList cid
                                  then remove_first cid mutedList
                                  else mutedList ++ [cid]) muted))
                        (chatData m)) m))
             = Returns true).
  { intros mutedList muted Hout. apply isChannelMuted_In with cu.
    - now rewrite saveChat_currentUser.
    - apply saveChat_mutes_keep. unfold mutedChannels.
      cbn [chatData set_chatData ChatDataV2.mutedChannels
           ChatDataV2.set_mutedChannels].
      rewrite muted_of_Some, get_set_same. now apply toggled_In. }
  unfold toggleChannelMute. rewrite Hcu. cbv zeta.
  unfold isChannelMuted in Hnot. rewrite Hcu in Hnot.
  unfold Dict.member in *. rewrite Hname in *.
  destruct (ChatDataV2.mutedChannels (chatData m)) as [muted|].
  - destruct (Dict.get (VaultUser.vaultName cu) muted) as [mutedList|];
      cbn [fst snd]; split; apply H; solve [congruence | reflexivity].
  - cbn [Dict.get fst snd]. split; apply H; reflexivity.
Qed.

End WithFile.



Lemma toggleChannelMute_mutes_witness :
  fst (toggleChannelMute sample_stringify 5000 (js "team") in_team)
  = Returns true
  /\ isChannelMuted (js "team")
       (snd (toggleChannelMute sample_stringify 5000 (js "team") in_team))
     = Returns true.
Proof.
  apply (toggleChannelMute_mutes sample_stringify 5000 (js "team") in_team alice).
  - reflexivity.
  - reflexivity.
  - reflexivity.
Defined.



(** *** Dismissed messages *)(** *** Dismissed messages *)

Lemma isRecentlyDismissed_hit (now : Z) (msgId : jsstring) (ledger : Dict.t Z) :
  dismissed_recently now msgId ledger ->
  isRecentlyDismissed now msgId ledger = (true, ledger).
Proof.
  intros [t [Hg [Hn Hf]]]. unfold isRecentlyDismissed. rewrite Hg.
  apply Z.eqb_neq in Hn. rewrite Hn.
  apply Z.ltb_ge in Hf. now rewrite Hf.
Qed.

Lemma isRecentlyDismissed_other (now : Z) (msgId k : jsstring)
    (ledger : Dict.t Z) :
  k <> msgId -> dismissed_recently now msgId ledger ->
  dismissed_recently now msgId (snd (isRecentlyDismissed now k ledger)).
Proof.
  intros Hk H. unfold isRecentlyDismissed.
  destruct (Dict.get k ledger) as [t|]; [|exact H].
  destruct (t =? 0); [exact H|].
  destruct (_ <? _); [|exact H].
  cbn [snd]. destruct H as [t0 [Hg Hrest]]. exists t0.
  split; [|exact Hrest].
  rewrite get_delete_other; [assumption | congruence].
Qed.

Lemma get_delete_Some {V : Type} (k k' : jsstring) (v : V) (d : Dict.t V) :
  Dict.get k (Dict.delete k' d) = Some v -> Dict.get k d = Some v.
Proof.
  induction d as [|[k0 v0] d IH]; simpl; [discriminate|].
  destruct (str_eqb_spec k' k0) as [<-|Hk0]; simpl.
  - intros H. specialize (IH H).
    destruct (str_eqb_spec k k') as [->|_]; [|assumption].
    exfalso. clear IH. revert H.
    induction d as [|[k1 v1] d IHd]; simpl; [discriminate|].
    destruct (str_eqb_spec k' k1) as [<-|Hk1]; simpl; [assumption|].
    destruct (str_eqb_spec k' k1); [congruence | assumption].
  - destruct (str_eqb_spec k k0); [trivial | assumption].
Qed.

Lemma nowhere_set (i c : jsstring) (l : list ChatMessage.t)
    (d : Dict.t (list ChatMessage.t)) :
  nowhere i d -> existsb (has_id i) l = false -> nowhere i (Dict.set c l d).
Proof.
  intros H Hl c' l'. destruct (str_eqb_spec c' c) as [->|Hne].
  - rewrite get_set_same. now intros [= <-].
  - rewrite get_set_other by assumption. apply H.
Qed.

Lemma nowhere_delete (i c : jsstring) (d : Dict.t (list ChatMessage.t)) :
  nowhere i d -> nowhere i (Dict.delete c d).
Proof.
  intros H c' l' Hg. apply (H c'). now apply get_delete_Some with c.
Qed.

Lemma merge_disk_message_out (now : Z) (msgId : jsstring)
    (ours0 ours : list ChatMessage.t) (ledger : Dict.t (list Toggle))
    (diskMsg : ChatMessage.t) :
  ChatMessage.id diskMsg <> msgId ->
  existsb (has_id msgId) ours = false ->
  existsb (has_id msgId)
    (fst (merge_disk_message now ours0 (ours, ledger) diskMsg)) = false.
Proof.
  intros Hid He. unfold merge_disk_message.
  destruct (our_index ours0 (ChatMessage.id diskMsg)) as [idx|].
  - destruct (nth_error ours idx) as [ourMsg|] eqn:E; [|assumption].
    pose proof (mergeMessageUpdates_id now ledger ourMsg diskMsg) as Hm.
    destruct (mergeMessageUpdates now ledger ourMsg diskMsg) as [m' ledger'].
    cbn [fst] in *.
    rewrite (existsb_set_nth _ _ ourMsg _ _ E); [assumption|].
    unfold has_id. now rewrite Hm.
  - cbn [fst]. rewrite existsb_app, He. cbn [existsb orb].
    unfold has_id. destruct (str_eqb_spec (ChatMessage.id diskMsg) msgId);
      [contradiction | reflexivity].
Qed.

Lemma merge_disk_message_load_out (now : Z) (msgId : jsstring)
    (ours0 ours : list ChatMessage.t) (ledger : Dict.t (list Toggle))
    (dismissed : Dict.t Z) (diskMsg : ChatMessage.t) :
  existsb (has_id msgId) ours = false ->
  dismissed_recently now msgId dismissed ->
  let r := merge_disk_message_load now ours0 (ours, ledger, dismissed) diskMsg in
  existsb (has_id msgId) (fst (fst r)) = false
  /\ dismissed_recently now msgId (snd r).
Proof.
  intros He Hd. unfold merge_disk_message_load.
  destruct (str_eqb_spec (ChatMessage.id diskMsg) msgId) as [->|Hne].
  - rewrite (isRecentlyDismissed_hit now msgId dismissed Hd). now split.
  - pose proof (isRecentlyDismissed_other now msgId _ dismissed Hne Hd) as Hd'.
    destruct (isRecentlyDismissed now (ChatMessage.id diskMsg) dismissed)
      as [skip dismissed']. cbn [snd] in Hd'.
    destruct skip; [now split|].
    pose proof (merge_disk_message_out now msgId ours0 ours ledger diskMsg
                  Hne He) as Hout.
    destruct (merge_disk_message now ours0 (ours, ledger) diskMsg)
      as [ours' ledger']. now split.
Qed.

Lemma fold_merge_disk_message_load_out (now : Z) (msgId : jsstring)
    (ours0 : list ChatMessage.t) (diskMsgs : list ChatMessage.t) :
  forall acc,
  existsb (has_id msgId) (fst (fst acc)) = false ->
  dismissed_recently now msgId (snd acc) ->
  let r := fold_left (merge_disk_message_load now ours0) diskMsgs acc in
  existsb (has_id msgId) (fst (fst r)) = false
  /\ dismissed_recently now msgId (snd r).
Proof.
  induction diskMsgs as [|d diskMsgs IH]; intros [[ours ledger] dismissed] He Hd;
    cbn [fold_left]; [now split|].
  destruct (merge_disk_message_load_out now msgId ours0 ours ledger dismissed d
              He Hd) as [He' Hd'].
  now apply IH.
Qed.

Lemma filter_dismissed_out (now : Z) (msgId : jsstring)
    (diskMsgs : list ChatMessage.t) (dismissed : Dict.t Z) :
  dismissed_recently now msgId dismissed ->
  existsb (has_id msgId) (fst (filter_dismissed now diskMsgs dismissed)) = false
  /\ dismissed_recently now msgId (snd (filter_dismissed now diskMsgs dismissed)).
Proof.
  unfold filter_dismissed.
  assert (H : forall (acc : list ChatMessage.t * Dict.t Z),
             existsb (has_id msgId) (fst acc) = false ->
             dismissed_recently now msgId (snd acc) ->
             let r := fold_left
                        (fun acc diskMsg =>
                           let '(kept, led) := acc in
                           let '(skip, led') :=
                             isRecentlyDismissed now (ChatMessage.id diskMsg) led in
                           if skip then (kept, led')
                           else (kept ++ [diskMsg], led'))
                        diskMsgs acc in
             existsb (has_id msgId) (fst r) = false
             /\ dismissed_recently now msgId (snd r)).
  { induction diskMsgs as [|d diskMsgs IH]; intros [kept led] He Hd;
      cbn [fold_left]; [now split|].
    apply IH.
    - destruct (str_eqb_spec (ChatMessage.id d) msgId) as [->|Hne].
      + now rewrite (isRecentlyDismissed_hit now msgId led Hd).
      + destruct (isRecentlyDismissed now (ChatMessage.id d) led)
          as [skip led']. destruct skip; [assumption|].
        cbn [fst snd] in *. rewrite existsb_app, He. cbn [existsb orb].
        unfold has_id. destruct (str_eqb_spec (ChatMessage.id d) msgId);
          [contradiction | reflexivity].
    - destruct (str_eqb_spec (ChatMessage.id d) msgId) as [->|Hne].
      + now rewrite (isRecentlyDismissed_hit now msgId led Hd).
      + pose proof (isRecentlyDismissed_other now msgId _ led Hne Hd) as Hd'.
        destruct (isRecentlyDismissed now (ChatMessage.id d) led)
          as [skip led']. now destruct skip. }
  intros Hd. now apply (H ([], dismissed)).
Qed.

(** The merge of the messages of one channel puts no dismissed message
    back. *)
Lemma merge_channel_messages_load_out (now : Z) (msgId : jsstring)
    (disk : Dict.t (list ChatMessage.t)) (m : t) (cid : jsstring) :
  nowhere msgId (channelMessages m)
  /\ dismissed_recently now msgId (recentlyDismissedMessages m) ->
  nowhere msgId (channelMessages (merge_channel_messages_load now disk m cid))
  /\ dismissed_recently now msgId
       (recentlyDismissedMessages (merge_channel_messages_load now disk m cid)).
Proof.
  intros [Hn Hd]. unfold merge_channel_messages_load.
  destruct (Dict.get cid disk) as [diskMsgs|]; [|now split].
  destruct (Dict.get cid (channelMessages m)) as [ours0|] eqn:E.
  - destruct (fold_merge_disk_message_load_out now msgId ours0 diskMsgs
                (ours0, recentlyToggledReactions m, recentlyDismissedMessages m)
                (Hn cid ours0 E) Hd) as [He' Hd'].
    destruct (fold_left _ diskMsgs _) as [[ours ledger] dismissed].
    cbn [fst snd] in *. split; [|exact Hd'].
    change (nowhere msgId (Dict.set cid (by_timestamp ours) (channelMessages m))).
    apply nowhere_set; [assumption|].
    unfold by_timestamp. now rewrite existsb_sort_by.
  - destruct (filter_dismissed_out now msgId diskMsgs
                (recentlyDismissedMessages m) Hd) as [He' Hd'].
    destruct (filter_dismissed now diskMsgs (recentlyDismissedMessages m))
      as [kept dismissed]. cbn [fst snd] in *. split; [|exact Hd'].
    change (nowhere msgId (Dict.set cid kept (channelMessages m))).
    now apply nowhere_set.
Qed.

Lemma merge_on_load_out (now : Z) (msgId : jsstring) (diskData : ChatDataV2.t)
    (m : t) :
  nowhere msgId (channelMessages m) ->
  dismissed_recently now msgId (recentlyDismissedMessages m) ->
  nowhere msgId (channelMessages (merge_on_load now diskData m)).
Proof.
  intros Hn Hd. unfold merge_on_load.
  rewrite merge_mutedChannels_messages.
  change (channelMessages (merge_readState ?r ?x)) with (channelMessages x).
  match goal with
  | |- nowhere msgId (channelMessages (fold_left ?f ?ks ?x)) =>
      cut (nowhere msgId (channelMessages (fold_left f ks x))
           /\ dismissed_recently now msgId
                (recentlyDismissedMessages (fold_left f ks x)));
        [tauto|];
      apply (fold_left_invariant
               (fun a => nowhere msgId (channelMessages a)
                         /\ dismissed_recently now msgId
                              (recentlyDismissedMessages a)) f ks)
  end.
  - intros a b _. apply merge_channel_messages_load_out.
  - pose proof (merge_channels_side now (ChatDataV2.channels diskData)
                  (remove_deleted_channels diskData
                     (merge_tombstones now diskData m))) as Hside.
    unfold message_side in Hside. injection Hside as Hcm _ Hdis.
    rewrite Hcm, Hdis. unfold remove_deleted_channels.
    apply (fold_left_invariant
             (fun a => nowhere msgId (channelMessages a)
                       /\ dismissed_recently now msgId
                            (recentlyDismissedMessages a))).
    + intros a b _ [Ha Hb]. split; [|exact Hb].
      change (nowhere msgId (Dict.delete b (channelMessages a))).
      now apply nowhere_delete.
    + now split.
Qed.

Lemma ensure_recent_out (now : Z) (msgId : jsstring) (m : t)
    (kv : jsstring * SentEntry) :
  ChatMessage.id (message (snd kv)) <> msgId ->
  nowhere msgId (channelMessages m) ->
  nowhere msgId (channelMessages (ensure_recent now m kv)).
Proof.
  destruct kv as [k entry]. cbn [snd]. intros Hid Hn. unfold ensure_recent.
  destruct (_ <? _); [exact Hn|]. cbv zeta.
  assert (Hmsgs : existsb (has_id msgId)
                    match Dict.get (channelId entry) (channelMessages m) with
                    | Some l => l
                    | None => []
                    end = false).
  { destruct (Dict.get (channelId entry) (channelMessages m)) as [l|] eqn:E;
      [now apply (Hn _ _ E) | reflexivity]. }
  destruct (existsb (has_id k) _).
  - match goal with
    | |- nowhere _ (channelMessages (upd_channelMessages (Dict.set ?c ?l) _)) =>
        change (nowhere msgId (Dict.set c l (channelMessages m)))
    end.
    now apply nowhere_set.
  - match goal with
    | |- nowhere _ (channelMessages (upd_channelMessages (Dict.set ?c ?l) _)) =>
        change (nowhere msgId (Dict.set c l (channelMessages m)))
    end.
    apply nowhere_set; [assumption|].
    unfold by_timestamp. rewrite existsb_sort_by, existsb_app, Hmsgs.
    cbn [existsb orb]. unfold has_id.
    destruct (str_eqb_spec (ChatMessage.id (message entry)) msgId);
      [contradiction | reflexivity].
Qed.

Lemma ensureRecentMessagesExist_out (now : Z) (msgId : jsstring) (m : t) :
  not_sent msgId (recentlySentMessages m) ->
  nowhere msgId (channelMessages m) ->
  nowhere msgId (channelMessages (ensureRecentMessagesExist now m)).
Proof.
  intros Hs Hn. unfold ensureRecentMessagesExist.
  apply (fold_left_invariant (fun a => nowhere msgId (channelMessages a)));
    [|exact Hn].
  intros a [k entry] Hin Ha. apply ensure_recent_out; [|exact Ha].
  cbn [snd]. now apply (Hs k).
Qed.

(** The pass over the ledger of sent messages only drops entries. *)
Lemma ensureRecentMessagesExist_sent (now : Z) (m : t) (k : jsstring)
    (entry : SentEntry) :
  In (k, entry) (recentlySentMessages (ensureRecentMessagesExist now m)) ->
  In (k, entry) (recentlySentMessages m).
Proof.
  unfold ensureRecentMessagesExist.
  generalize (recentlySentMessages m) at 1 as entries.
  intros entries. revert m.
  induction entries as [|[k0 e0] entries IH]; intros m; cbn [fold_left];
    [trivial|].
  intros H. specialize (IH _ H). revert IH. unfold ensure_recent.
  destruct (_ <? _).
  - cbn [recentlySentMessages set_recentlySentMessages]. unfold Dict.delete.
    intros Hin. now apply filter_In in Hin.
  - cbv zeta. destruct (existsb _ _); trivial.
Qed.

Section WithDisk.
Variable stringify : ChatDataV2.t -> jsstring.


Lemma saveChat_unread_file (now : Z) (m : t) :
  chatFile m = Absent ->
  channelMessages (saveChat stringify now m)
  = channelMessages (ensureRecentMessagesExist now m)
  /\ recentlySentMessages (saveChat stringify now m)
     = recentlySentMessages (ensureRecentMessagesExist now m).
Proof. intros H. unfold saveChat. rewrite H. split; reflexivity. Qed.

(** X17: [loadChat] does not put back a message dismissed within the last 60
    seconds.  When the manager holds channels, none of them holding the
    message, and the message is none of those recorded as sent, no channel
    holds it after [loadChat], whatever the file holds. *)
Theorem loadChat_keeps_dismissed_out (now : Z) (reads : nat -> File ChatData)
    (m : t) (msgId : jsstring) :
  dismissed_recently now msgId (recentlyDismissedMessages m) ->
  nowhere msgId (channelMessages m) ->
  not_sent msgId (recentlySentMessages m) ->
  channels m <> [] ->
  nowhere msgId (channelMessages (loadChat stringify now reads m)).
Proof.
  intros Hd Hn Hs Hch. unfold loadChat.
  assert (Hmerge : forall diskData,
             nowhere msgId
               (channelMessages
                  (ensureRecentMessagesExist now (merge_on_load now diskData m)))).
  { intros diskData. apply ensureRecentMessagesExist_out.
    - now rewrite merge_on_load_sent.
    - now apply merge_on_load_out. }
  destruct (chatFile m) eqn:Hfile.
  - set (m0 := set_chatData (createEmptyV2Data now) m).
    destruct (saveChat_unread_file now m0 Hfile) as [Hcm Hsent].
    assert (Hn0 : nowhere msgId (channelMessages (saveChat stringify now m0))).
    { rewrite Hcm. apply ensureRecentMessagesExist_out; [exact Hs|].
      intros c l. unfold m0, channelMessages, createEmptyV2Data. cbn.
      destruct (str_eqb c GENERAL_CHANNEL_ID); [|discriminate].
      now intros [= <-]. }
    apply ensureRecentMessagesExist_out; [|exact Hn0].
    rewrite Hsent. intros k entry Hin.
    apply (Hs k). exact (ensureRecentMessagesExist_sent now m0 k entry Hin).
  - destruct (fst (read_with_retry stringify reads)) as [rawData|];
      destruct (channels m); try congruence;
      first [apply Hmerge | exact Hn].
  - destruct (fst (read_with_retry stringify reads)) as [rawData|];
      destruct (channels m); try congruence;
      first [apply Hmerge | exact Hn].
Qed.

End WithDisk.


Lemma loadChat_keeps_dismissed_out_witness :
  nowhere (js "s1")
    (channelMessages
       (loadChat sample_stringify 1000000 reads_with_note after_dismiss)).
Proof.
  apply loadChat_keeps_dismissed_out.
  - exists 950000. split; [reflexivity | split; [discriminate|]].
    vm_compute. discriminate.
  - intros c l. unfold after_dismiss, channelMessages, doc_with. cbn.
    destruct (str_eqb c GENERAL_CHANNEL_ID); [|discriminate]. now intros [= <-].
  - intros k entry [].
  - discriminate.
Defined.

End ReadFacts.

(** ** The users file: deletions and the lock *)

Module RegistryFacts.
Import VaultUser UserManager Samples.

(** *** Lists *)

Lemma In_insert_by {A : Type} (key : A -> Z) (x y : A) (l : list A) :
  In y (insert_by key x l) <-> x = y \/ In y l.
Proof.
  induction l as [|z l IH]; simpl; [tauto|].
  destruct (key x <=? key z); simpl; [tauto|].
  rewrite IH. tauto.
Qed.

Lemma In_sort_by {A : Type} (key : A -> Z) (y : A) (l : list A) :
  In y (sort_by key l) <-> In y l.
Proof.
  induction l as [|z l IH]; simpl; [tauto|].
  rewrite In_insert_by, IH. tauto.
Qed.

Lemma map_update_nth {A B : Type} (f : A -> B) (g : A -> A) (l : list A) :
  (forall x, f (g x) = f x) ->
  forall i, map f (update_nth i g l) = map f l.
Proof.
  intros Hg. induction l as [|x l IH]; intros [|i]; simpl; try reflexivity.
  - now rewrite Hg.
  - now rewrite IH.
Qed.

(** Removing the first element found under a key that occurs once leaves
    none under that key. *)
Lemma remove_found_out {A : Type} (f : A -> jsstring) (L : jsstring)
    (l : list A) : forall i,
  find_index (fun u => str_eqb (f u) L) l = Some i ->
  NoDup (map f l) ->
  ~ In L (map f (remove_nth i l)).
Proof.
  induction l as [|x l IH]; intros i Hi Hnd; simpl in Hi; [discriminate|].
  inversion Hnd as [|? ? Hx Hl]; subst.
  destruct (str_eqb_spec (f x) L) as [<-|Hne].
  - injection Hi as <-. exact Hx.
  - destruct (find_index _ l) as [j|] eqn:Hj; [|discriminate].
    injection Hi as <-. simpl. intros [H|H]; [contradiction|].
    now apply (IH j).
Qed.

(** *** The ledger of deleted users *)

Lemma isRecentlyDeletedUser_hit (now : Z) (L : jsstring) (ledger : Dict.t Z) :
  deleted_recently now L ledger ->
  isRecentlyDeletedUser now L ledger = (true, ledger).
Proof.
  intros [t [Hg [Hn Hf]]]. unfold isRecentlyDeletedUser. rewrite Hg.
  apply Z.eqb_neq in Hn. rewrite Hn.
  apply Z.ltb_ge in Hf. now rewrite Hf.
Qed.

Lemma isRecentlyDeletedUser_other (now : Z) (L k : jsstring)
    (ledger : Dict.t Z) :
  k <> L -> deleted_recently now L ledger ->
  deleted_recently now L (snd (isRecentlyDeletedUser now k ledger)).
Proof.
  intros Hk H. unfold isRecentlyDeletedUser.
  destruct (Dict.get k ledger) as [t|]; [|exact H].
  destruct (t =? 0); [exact H|].
  destruct (_ <? _); [|exact H].
  cbn [snd]. destruct H as [t0 [Hg Hrest]]. exists t0.
  split; [|exact Hrest].
  rewrite LeaveFacts.get_delete_other; [assumption | congruence].
Qed.

Lemma merge_disk_user_out (now : Z) (L : jsstring) (ids : list jsstring)
    (acc : list VaultUser.t * Dict.t Z) (diskUser : VaultUser.t) :
  ~ In L (map localIdentifier (fst acc)) ->
  deleted_recently now L (snd acc) ->
  ~ In L (map localIdentifier (fst (merge_disk_user now ids acc diskUser)))
  /\ deleted_recently now L (snd (merge_disk_user now ids acc diskUser)).
Proof.
  destruct acc as [us ledger]. cbn [fst snd]. intros Hus Hd.
  unfold merge_disk_user.
  destruct (includes ids (localIdentifier diskUser)); [now split|].
  destruct (str_eqb_spec (localIdentifier diskUser) L) as [->|Hne].
  - rewrite (isRecentlyDeletedUser_hit now L ledger Hd). now split.
  - pose proof (isRecentlyDeletedUser_other now L _ ledger Hne Hd) as Hd'.
    destruct (isRecentlyDeletedUser now (localIdentifier diskUser) ledger)
      as [recent ledger']. cbn [snd] in Hd'.
    destruct recent; cbn [fst snd]; split; try assumption.
    rewrite map_app, in_app_iff. simpl. intros [H|[H|[]]]; contradiction.
Qed.

Lemma merge_users_out (now : Z) (ours disk : list VaultUser.t)
    (ledger : Dict.t Z) (L : jsstring) :
  ~ In L (map localIdentifier ours) ->
  deleted_recently now L ledger ->
  ~ In L (map localIdentifier (fst (merge_users now ours disk ledger))).
Proof.
  intros Hus Hd. unfold merge_users.
  assert (H : ~ In L (map localIdentifier
                        (fst (fold_left (merge_disk_user now
                                           (map localIdentifier ours))
                                disk (ours, ledger))))
              /\ deleted_recently now L
                   (snd (fold_left (merge_disk_user now
                                      (map localIdentifier ours))
                           disk (ours, ledger)))).
  { apply (ChannelFacts.fold_left_invariant
             (fun acc => ~ In L (map localIdentifier (fst acc))
                         /\ deleted_recently now L (snd acc))).
    - intros acc du _ [H1 H2]. now apply merge_disk_user_out.
    - now split. }
  destruct (fold_left _ disk (ours, ledger)) as [us ledger'].
  cbn [fst snd] in *. destruct H as [H _].
  intros Hin. apply H.
  apply in_map_iff in Hin. destruct Hin as [u [Hu Hin]].
  apply in_map_iff in Hin. destruct Hin as [v [Hv Hin]].
  subst u. revert Hu Hin. generalize 0%nat.
  unfold by_registered.
  assert (Hren : forall l n v,
             In v (renumber_from n l) ->
             exists w, In w l /\ localIdentifier v = localIdentifier w).
  { induction l as [|w l IH]; intros n v0 Hv0; simpl in Hv0; [contradiction|].
    destruct Hv0 as [<-|Hv0].
    - exists w. split; [now left | reflexivity].
    - destruct (IH _ _ Hv0) as [w' [Hw' He]]. exists w'.
      split; [now right | assumption]. }
  intros n Hu Hin. destruct (Hren _ _ _ Hin) as [w [Hw He]].
  apply In_sort_by in Hw. apply in_map_iff. exists w. split; [|assumption].
  rewrite <- He, <- Hu. unfold single_primary.
  destruct (is_first v); [reflexivity|]. destruct (is_primary v); reflexivity.
Qed.

(** A save does not bring back a user deleted within the window. *)
Lemma saveUsers_out (now : Z) (m : t) (L : jsstring) :
  ~ In L (map localIdentifier (usersConfig m)) ->
  deleted_recently now L (recentlyDeletedUsers m) ->
  ~ In L (map localIdentifier (usersConfig (saveUsers now m)))
  /\ usersFile (saveUsers now m) = Content (usersConfig (saveUsers now m)).
Proof.
  intros Hus Hd. split; [|reflexivity]. unfold saveUsers.
  destruct (usersFile m) as [| |diskUsers]; try exact Hus.
  pose proof (merge_users_out now (usersConfig m) diskUsers
                (recentlyDeletedUsers m) L Hus Hd) as H.
  destruct (merge_users now (usersConfig m) diskUsers (recentlyDeletedUsers m))
    as [us ledger]. exact H.
Qed.

Lemma deleted_just_now (now : Z) (L : jsstring) (ledger : Dict.t Z) :
  0 < now -> deleted_recently now L (Dict.set L now ledger).
Proof.
  intros Hnow. exists now. rewrite LeaveFacts.get_set_same.
  split; [reflexivity|]. split; [lia|].
  unfold USER_DELETE_PROTECTION. lia.
Qed.

(** X18: the user who unregisters is not brought back by the merge with the
    file.  When every user has a local identifier of its own, after
    [unregisterCurrentUser] no user of the collection, in memory and in the
    file that is written, has the local identifier of the user who left,
    even though the file still listed that user. *)
Theorem unregister_keeps_out (now : Z) (m : t) (cu : VaultUser.t) :
  currentUser m = Some cu ->
  NoDup (map localIdentifier (usersConfig m)) ->
  0 < now ->
  fst (unregisterCurrentUser now m) = true ->
  let m' := snd (unregisterCurrentUser now m) in
  ~ In (localIdentifier cu) (map localIdentifier (usersConfig m'))
  /\ usersFile m' = Content (usersConfig m')
  /\ currentUser m' = None.
Proof.
  intros Hcu Hnd Hnow. unfold unregisterCurrentUser. rewrite Hcu.
  destruct (find_index _ (usersConfig m)) as [index|] eqn:Hidx;
    [|discriminate].
  intros _. cbv zeta. cbn [snd].
  match goal with
  | |- ~ In _ (map _ (usersConfig (set_currentUser None (saveUsers now ?x))))
       /\ _ => set (m1 := x)
  end.
  assert (Hout : ~ In (localIdentifier cu)
                     (map localIdentifier (usersConfig m1))).
  { unfold m1. cbn [usersConfig set_usersConfig set_recentlyDeletedUsers].
    pose proof (remove_found_out localIdentifier (localIdentifier cu)
                  (usersConfig m) index Hidx Hnd) as Hrem.
    destruct (is_primary cu); [|exact Hrem].
    destruct (sort_by regnum_or_999 (remove_nth index (usersConfig m)));
      [exact Hrem|].
    destruct (find_index _ (remove_nth index (usersConfig m)));
      [|exact Hrem].
    rewrite map_update_nth; [exact Hrem | reflexivity]. }
  destruct (saveUsers_out now m1 (localIdentifier cu) Hout
              (deleted_just_now now _ _ Hnow)) as [H1 H2].
  repeat split; assumption.
Qed.

Lemma unregister_keeps_out_witness :
  let m' := snd (unregisterCurrentUser 7000 three_users) in
  ~ In (localIdentifier alice) (map localIdentifier (usersConfig m'))
  /\ usersFile m' = Content (usersConfig m')
  /\ currentUser m' = None.
Proof.
  apply (unregister_keeps_out 7000 three_users alice).
  - reflexivity.
  - repeat constructor; simpl; intuition discriminate.
  - reflexivity.
  - reflexivity.
Defined.

Lemma remove_nth_out {A : Type} (f : A -> jsstring) (l : list A) :
  forall i x,
  nth_error l i = Some x ->
  NoDup (map f l) ->
  ~ In (f x) (map f (remove_nth i l)).
Proof.
  induction l as [|y l IH]; intros i x Hn Hnd; [now destruct i|].
  inversion Hnd as [|? ? Hy Hl]; subst.
  destruct i as [|i]; simpl in Hn.
  - injection Hn as <-. exact Hy.
  - simpl. intros [H|H].
    + apply Hy. rewrite H. apply in_map. now apply nth_error_In with i.
    + now apply (IH i x).
Qed.

Section WithLocale.
Variable toLowerCase : jsstring -> jsstring.

(** X19: a user removed by an admin is not brought back by the merge with
    the file.  When every user has a local identifier of its own, after a
    [removeUser] that answers [true] no user of the collection, in memory
    and in the file that is written, has the local identifier of the user
    found under the name. *)
Theorem removeUser_keeps_out (now : Z) (name : jsstring) (m : t)
    (u : VaultUser.t) :
  getUserByName toLowerCase name m = Some u ->
  NoDup (map localIdentifier (usersConfig m)) ->
  0 < now ->
  fst (removeUser toLowerCase now name m) = true ->
  let m' := snd (removeUser toLowerCase now name m) in
  ~ In (localIdentifier u) (map localIdentifier (usersConfig m'))
  /\ usersFile m' = Content (usersConfig m').
Proof.
  intros Hu Hnd Hnow. unfold removeUser.
  destruct (negb (isCurrentUserAdmin m)); [discriminate|].
  destruct (match currentUser m with Some _ => _ | None => _ end);
    [discriminate|].
  destruct (find_index _ (usersConfig m)) as [index|] eqn:Hidx;
    [|discriminate].
  destruct (ChannelFacts.find_index_Some _ _ _ Hidx) as [x [Hn [Hf _]]].
  rewrite Hn. unfold getUserByName in Hu. rewrite Hu in Hf.
  injection Hf as <-.
  intros _. cbv zeta. cbn [snd].
  apply saveUsers_out.
  - cbn [usersConfig set_usersConfig set_recentlyDeletedUsers].
    now apply remove_nth_out.
  - cbn [recentlyDeletedUsers set_recentlyDeletedUsers].
    now apply deleted_just_now.
Qed.

End WithLocale.

Lemma removeUser_keeps_out_witness :
  let m' := snd (removeUser ascii_lower 7000 (js "Bob") three_users) in
  ~ In (localIdentifier bob) (map localIdentifier (usersConfig m'))
  /\ usersFile m' = Content (usersConfig m').
Proof.
  apply (removeUser_keeps_out ascii_lower 7000 (js "Bob") three_users bob).
  - reflexivity.
  - repeat constructor; simpl; intuition discriminate.
  - reflexivity.
  - reflexivity.
Defined.

(** *** The lock *)

(** A lock stamped [null] is as old as the clock says. *)
Lemma null_stamp_is_stale (now : Z) (h : option jsstring) :
  LOCK_TIMEOUT < now -> is_stale_lock now (mkLock h (Some 0)) = true.
Proof.
  intros H. unfold is_stale_lock. cbn [timestamp].
  apply Z.ltb_lt. lia.
Qed.

(** X20: a lock of another holder that is not stale is respected.  When the
    lock file names another holder and its timestamp is a number not more
    than 10000 ms before [now], or makes [now - lockData.timestamp] no
    number, as a missing timestamp does, [acquireLock] answers [false] and
    leaves the lock file as it is, and so does [releaseLock]. *)
Theorem foreign_lock_is_respected (now : Z) (localId h : jsstring)
    (others : File LockData -> File LockData) (m : t) (lockData : LockData) :
  lockFile m = Content lockData ->
  holder lockData = Some h ->
  h <> localId ->
  (forall ts, timestamp lockData = Some ts -> now - ts <= LOCK_TIMEOUT) ->
  acquireLock now localId others m = (false, m)
  /\ releaseLock localId m = m.
Proof.
  intros Hfile Hh Hne Hts.
  assert (Hcmp : str_eqb h localId = false).
  { destruct (str_eqb_spec h localId); [contradiction | reflexivity]. }
  split.
  - unfold acquireLock. rewrite Hfile.
    unfold is_stale_lock, held_by_other. rewrite Hh, Hcmp.
    destruct (timestamp lockData) as [ts|]; [|reflexivity].
    specialize (Hts ts eq_refl). apply Z.ltb_ge in Hts. now rewrite Hts.
  - unfold releaseLock. now rewrite Hfile, Hh, Hcmp.
Qed.

Lemma foreign_lock_is_respected_witness :
  acquireLock 8000 (js "alice@laptop") nobody fresh_foreign_lock
  = (false, fresh_foreign_lock)
  /\ releaseLock (js "alice@laptop") fresh_foreign_lock = fresh_foreign_lock.
Proof.
  apply (foreign_lock_is_respected 8000 (js "alice@laptop") (js "bob@laptop")
           nobody fresh_foreign_lock
           (mkLock (Some (js "bob@laptop")) (Some 5000))).
  - reflexivity.
  - reflexivity.
  - discriminate.
  - intros ts [= <-]. vm_compute. discriminate.
Defined.

(** X21: a lock that [acquireLock] reports as acquired records the caller as
    its holder, and the [releaseLock] of the caller removes it. *)
Theorem acquired_lock_is_released (now : Z) (localId : jsstring)
    (others : File LockData -> File LockData) (m : t) :
  fst (acquireLock now localId others m) = true ->
  let m1 := snd (acquireLock now localId others m) in
  (exists lockData, lockFile m1 = Content lockData
                    /\ holder lockData = Some localId)
  /\ lockFile (releaseLock localId m1) = Absent.
Proof.
  unfold acquireLock.
  destruct (match lockFile m with Content _ => _ | _ => false end);
    [discriminate|].
  cbv zeta.
  destruct (lockFile (set_lockFile _ m)) as [| |verifyData] eqn:E;
    try discriminate.
  cbn [fst snd]. unfold held_by_other.
  destruct (holder verifyData) as [h|] eqn:Hh; [|discriminate].
  intros Hcmp. apply negb_true_iff, negb_false_iff in Hcmp.
  pose proof (proj1 (str_eqb_eq _ _) Hcmp) as Heq. subst h.
  split.
  - exists verifyData. now split.
  - unfold releaseLock. rewrite E, Hh, Hcmp. reflexivity.
Qed.

Lemma acquired_lock_is_released_witness :
  let m1 := snd (acquireLock 20000 (js "alice@laptop") nobody fresh_foreign_lock) in
  (exists lockData, lockFile m1 = Content lockData
                    /\ holder lockData = Some (js "alice@laptop"))
  /\ lockFile (releaseLock (js "alice@laptop") m1) = Absent.
Proof.
  apply (acquired_lock_is_released 20000 (js "alice@laptop") nobody
           fresh_foreign_lock).
  reflexivity.
Defined.

End RegistryFacts.

(** ** The General channel *)

Module GeneralFacts.
Import ChatManager Ops Samples ChannelFacts.

Lemma stays_refl (cid : jsstring) (l : list Channel.t) : stays cid l l.
Proof. intros H. exact H. Qed.

Lemma stays_trans (cid : jsstring) (l1 l2 l3 : list Channel.t) :
  stays cid l1 l2 -> stays cid l2 l3 -> stays cid l1 l3.
Proof. unfold stays. auto. Qed.

Lemma grows_stays (D : jsstring -> Prop) (cid : jsstring)
    (l l' : list Channel.t) :
  grows D l l' -> stays cid l l'.
Proof.
  intros Hg Hf. destruct (find (has_channel_id cid) l) as [ch|] eqn:E;
    [|congruence].
  destruct (grows_find D cid l l' ch Hg E) as [ch' [Hf' _]]. congruence.
Qed.

Lemma removal_stays (cid x : jsstring) (l : list Channel.t) :
  cid <> x ->
  stays cid l (filter (fun c => negb (has_channel_id x c)) l).
Proof.
  intros Hne Hf. rewrite find_after_removal.
  destruct (str_eqb_spec cid x); [contradiction | assumption].
Qed.

Lemma removals_stay (cid : jsstring) (xs : list jsstring) (m : t) :
  ~ In cid xs ->
  stays cid (channels m) (channels (fold_left remove_channel_data xs m)).
Proof.
  intros Hx Hf. rewrite find_after_removals.
  apply includes_not_In in Hx. now rewrite Hx.
Qed.

(** None of the channels [cleanupStaleChannels] removes is General. *)
Lemma stale_not_general (now : Z) (m : t) :
  ~ In GENERAL_CHANNEL_ID
       (map Channel.id (filter (is_stale now m) (channels m))).
Proof.
  intros Hin. apply in_map_iff in Hin. destruct Hin as [c [Hc Hin]].
  apply filter_In in Hin. destruct Hin as [_ Hst]. unfold is_stale in Hst.
  repeat (apply andb_prop in Hst; destruct Hst as [Hst _]).
  rewrite Hc, str_eqb_refl in Hst. discriminate.
Qed.

(** Nor is any of those the merge of [loadChat] removes. *)
Lemma removed_not_general (diskData : ChatDataV2.t) (m : t) :
  ~ In GENERAL_CHANNEL_ID
       (map Channel.id (filter (to_remove diskData m) (channels m))).
Proof.
  intros Hin. apply in_map_iff in Hin. destruct Hin as [c [Hc Hin]].
  apply filter_In in Hin. destruct Hin as [_ Hrm]. unfold to_remove in Hrm.
  repeat (apply andb_prop in Hrm; destruct Hrm as [Hrm _]).
  rewrite Hc, str_eqb_refl in Hrm. discriminate.
Qed.

Section WithHost.
Variable stringify : ChatDataV2.t -> jsstring.

Lemma deleteChannel_stays (now : Z) (cid : jsstring) (m : t) :
  stays GENERAL_CHANNEL_ID (channels m) (channels (snd (deleteChannel stringify now cid m))).
Proof.
  rewrite deleteChannel_channels.
  destruct (str_eqb_spec cid GENERAL_CHANNEL_ID) as [->|Hne];
    [apply stays_refl|].
  apply removal_stays. congruence.
Qed.

Lemma leaveChannel_stays (now : Z) (newId cid u : jsstring) (m : t) :
  stays GENERAL_CHANNEL_ID (channels m) (channels (snd (leaveChannel stringify now newId cid u m))).
Proof.
  unfold leaveChannel.
  destruct (UserManager.find_index _ _) as [i|]; [|apply stays_refl].
  destruct (nth_error _ i) as [channel|]; [|apply stays_refl].
  destruct (ChannelType_eqb _ general); [apply stays_refl|].
  set (remaining := filter _ (Channel.members channel)).
  match goal with
  | |- context [deleteChannel stringify now cid ?m4] =>
      assert (H4 : stays GENERAL_CHANNEL_ID (channels m) (channels m4))
  end.
  { apply (grows_stays anything).
    assert (Hch : forall m4 : t,
               channels m4
               = update_nth i (Channel.set_members remaining) (channels m) ->
               grows anything (channels m) (channels m4)).
    { intros m4 ->. apply grows_update; [|apply grows_refl].
      intros c. apply set_members_step. }
    apply Hch.
    destruct (Dict.get cid (recentlyAddedMembers _));
      match goal with
      | |- channels (if ?b then _ else _) = _ => destruct b
      end; reflexivity. }
  destruct remaining as [|r rs].
  - cbn [snd]. eapply stays_trans; [exact H4 | apply deleteChannel_stays].
  - match goal with
    | |- context [push_message ?c ?msg ?m4] =>
        destruct (push_message c msg m4) as [m5|] eqn:Hpush
    end; cbn [snd]; [|exact H4].
    rewrite saveChat_channels.
    now rewrite (push_message_channels _ _ _ _ Hpush).
Qed.

Lemma cleanupStaleChannels_stays (now : Z) (m : t) :
  stays GENERAL_CHANNEL_ID (channels m) (channels (snd (cleanupStaleChannels stringify now m))).
Proof.
  unfold cleanupStaleChannels.
  pose proof (removals_stay GENERAL_CHANNEL_ID _ m (stale_not_general now m))
    as H.
  destruct (map Channel.id (filter (is_stale now m) (channels m)))
    as [|x xs']; [exact H|].
  cbn [snd]. rewrite saveChat_channels.
  match goal with
  | |- stays _ _ (channels (if ?b then _ else _)) => destruct b
  end; exact H.
Qed.

Lemma merge_on_load_stays (now : Z) (diskData : ChatDataV2.t) (m : t) :
  stays GENERAL_CHANNEL_ID (channels m) (channels (merge_on_load now diskData m)).
Proof.
  rewrite merge_on_load_channels.
  set (m1 := merge_tombstones now diskData m).
  eapply stays_trans;
    [|apply (grows_stays _ _ _ _ (merge_channels_grows now _ _))].
  change (channels m) with (channels m1).
  unfold remove_deleted_channels.
  apply removals_stay, removed_not_general.
Qed.

Lemma loadChat_stays (now : Z) (reads : nat -> File ChatData) (m : t) :
  stays GENERAL_CHANNEL_ID (channels m) (channels (loadChat stringify now reads m)).
Proof.
  assert (Hmerge : forall diskData,
             stays GENERAL_CHANNEL_ID (channels m)
               (channels (ensureRecentMessagesExist now
                            (merge_on_load now diskData m)))).
  { intros diskData. rewrite ensureRecentMessagesExist_channels.
    apply merge_on_load_stays. }
  assert (Hnil : forall l, channels m = [] ->
                           stays GENERAL_CHANNEL_ID (channels m) l).
  { intros l E Hf. rewrite E in Hf. now elim Hf. }
  unfold loadChat.
  destruct (chatFile m) as [| |c].
  - rewrite ensureRecentMessagesExist_channels, saveChat_channels.
    intros _. discriminate.
  - destruct (fst (read_with_retry stringify reads)) as [rawData|].
    + destruct (channels m) eqn:E; [now apply Hnil | apply Hmerge].
    + destruct (channels m) eqn:E; [now apply Hnil|].
      rewrite E. apply stays_refl.
  - destruct (fst (read_with_retry stringify reads)) as [rawData|].
    + destruct (channels m) eqn:E; [now apply Hnil | apply Hmerge].
    + destruct (channels m) eqn:E; [now apply Hnil|].
      rewrite E. apply stays_refl.
Qed.

Lemma run_stays (op : Op) (m : t) :
  stays GENERAL_CHANNEL_ID (channels m) (channels (run stringify op m)).
Proof.
  destruct op; cbn [run].
  - apply (grows_stays anything), addMemberToChannel_grows.
  - apply leaveChannel_stays.
  - apply (grows_stays anything), renameChannel_grows.
  - apply cleanupStaleChannels_stays.
  - apply deleteChannel_stays.
  - apply (grows_stays anything), createGroupChannel_grows.
  - apply (grows_stays anything), startDM_grows.
  - rewrite sendMessage_channels. apply stays_refl.
  - rewrite deleteMessage_channels. apply stays_refl.
  - apply loadChat_stays.
  - rewrite saveChat_channels. apply stays_refl.
Qed.

(** X24: the General channel is never removed.  If the manager holds a
    channel under the id [general], it holds one after every call of an
    operation (add member, leave, rename, cleanup, delete channel, create
    group, start DM, send, delete message, [loadChat], [saveChat]), and
    all along a sequence of such calls. *)
Theorem general_is_never_removed (ops : list Op) (m : t) :
  getChannel GENERAL_CHANNEL_ID m <> None ->
  Forall (fun m' => getChannel GENERAL_CHANNEL_ID m' <> None)
         (trace stringify ops m).
Proof.
  revert m. induction ops as [|op ops IH]; intros m Hm; cbn [trace];
    [constructor|].
  assert (H : getChannel GENERAL_CHANNEL_ID (run stringify op m) <> None)
    by (now apply run_stays).
  constructor; [exact H | now apply IH].
Qed.

End WithHost.

Lemma general_is_never_removed_witness :
  Forall (fun m' => getChannel GENERAL_CHANNEL_ID m' <> None)
    (trace sample_stringify
       [Leave 7000 (js "sys1") GENERAL_CHANNEL_ID (js "alice");
        DeleteChannel 8000 GENERAL_CHANNEL_ID;
        Cleanup 900000000;
        Load 900000001 (fun _ => Content (V2 team_doc))]
       in_team).
Proof.
  apply general_is_never_removed. discriminate.
Defined.

End GeneralFacts.

(** ** Channels: members just added *)

Module AddFacts.
Import ChatManager Ops Samples ChannelFacts LeaveFacts GeneralFacts.

Lemma get_filter {V : Type} (p : jsstring * V -> bool) (k : jsstring) (v : V)
    (d : Dict.t V) :
  Dict.get k d = Some v -> p (k, v) = true ->
  Dict.get k (filter p d) = Some v.
Proof.
  induction d as [|[k0 v0] d IH]; simpl; [discriminate|].
  destruct (str_eqb_spec k k0) as [<-|Hne].
  - intros [= ->] Hp. rewrite Hp. simpl. now rewrite str_eqb_refl.
  - intros Hg Hp. destruct (p (k0, v0)); [|now apply IH].
    simpl. destruct (str_eqb_spec k k0); [contradiction | now apply IH].
Qed.

Lemma keep_added_keeps (x : jsstring) (recentlyAdded : list jsstring) :
  forall members, In x members -> In x (keep_added recentlyAdded members).
Proof.
  unfold keep_added.
  induction recentlyAdded as [|r rs IH]; intros members Hin; cbn [fold_left];
    [assumption|].
  apply IH. destruct (includes members r); [assumption|].
  apply in_or_app. now left.
Qed.

Lemma keep_added_adds (x : jsstring) (recentlyAdded : list jsstring) :
  forall members, In x recentlyAdded -> In x (keep_added recentlyAdded members).
Proof.
  induction recentlyAdded as [|r rs IH]; intros members Hin; [contradiction|].
  destruct Hin as [->|Hin].
  - unfold keep_added. cbn [fold_left]. apply keep_added_keeps.
    destruct (includes members x) eqn:E.
    + now apply includes_In.
    + apply in_or_app. right. now left.
  - unfold keep_added. cbn [fold_left]. now apply IH.
Qed.

Lemma add_protected_ext (now : Z) (cid u : jsstring) (m m' : t) :
  recentlyAddedMembers m' = recentlyAddedMembers m ->
  add_protected now cid u m -> add_protected now cid u m'.
Proof. unfold add_protected. now intros ->. Qed.

Lemma ledgers_added (m m' : t) :
  ledgers m' = ledgers m -> recentlyAddedMembers m' = recentlyAddedMembers m.
Proof. unfold ledgers. now intros [= _ _ ->]. Qed.

(** The look-up keeps an entry within the window, and reports its user. *)
Lemma getRecentlyAddedMembers_fresh (now : Z) (cid k u : jsstring)
    (ledger : Dict.t (Dict.t Z)) (channelMembers : Dict.t Z) (addedTime : Z) :
  Dict.get cid ledger = Some channelMembers ->
  Dict.get u channelMembers = Some addedTime ->
  now - addedTime <= ADD_MEMBER_PROTECTION_DURATION ->
  (exists channelMembers',
      Dict.get cid (snd (getRecentlyAddedMembers now k ledger))
      = Some channelMembers'
      /\ Dict.get u channelMembers' = Some addedTime)
  /\ (k = cid -> In u (fst (getRecentlyAddedMembers now k ledger))).
Proof.
  intros Hc Hu Hage. unfold getRecentlyAddedMembers.
  assert (Hp : (fun kv : jsstring * Z =>
                  now - snd kv <=? ADD_MEMBER_PROTECTION_DURATION)
                 (u, addedTime) = true).
  { cbn [snd]. now apply Z.leb_le. }
  destruct (str_eqb_spec k cid) as [->|Hne].
  - rewrite Hc. cbn [fst snd]. rewrite get_set_same.
    pose proof (get_filter _ u addedTime channelMembers Hu Hp) as Hf.
    split.
    + eexists. split; [reflexivity | exact Hf].
    + intros _. unfold Dict.keys. apply in_map_iff.
      exists (u, addedTime). split; [reflexivity|].
      now apply ReactionFacts.get_In.
  - split; [|congruence].
    destruct (Dict.get k ledger); cbn [snd].
    + rewrite get_set_other by congruence. now exists channelMembers.
    + now exists channelMembers.
Qed.

Lemma merged_members_added (now : Z) (cid u : jsstring)
    (diskChannel : Channel.t) (m : t) :
  add_protected now cid u m ->
  add_protected now cid u (snd (merged_members now diskChannel m))
  /\ (Channel.id diskChannel = cid ->
      In u (fst (merged_members now diskChannel m))).
Proof.
  intros [channelMembers [addedTime [Hc [Hu Hage]]]].
  assert (H : forall members1 (m1 : t),
             recentlyAddedMembers m1 = recentlyAddedMembers m ->
             let r := getRecentlyAddedMembers now (Channel.id diskChannel)
                        (recentlyAddedMembers m1) in
             add_protected now cid u (set_recentlyAddedMembers (snd r) m1)
             /\ (Channel.id diskChannel = cid ->
                 In u (keep_added (fst r) members1))).
  { intros members1 m1 Ha r. subst r. rewrite Ha.
    destruct (getRecentlyAddedMembers_fresh now cid (Channel.id diskChannel) u
                _ _ _ Hc Hu Hage) as [[cm' [Hc' Hu']] Hin].
    split.
    - exists cm', addedTime. repeat split; assumption.
    - intros Hid. apply keep_added_adds. now apply Hin. }
  unfold merged_members, drop_if_left.
  destruct (currentUser m) as [cu|].
  - destruct (hasRecentlyLeftChannel _ _ _) as [hasLeft ledger].
    destruct hasLeft.
    + specialize (H (filter (fun x => negb (str_eqb x (VaultUser.vaultName cu)))
                            (Channel.members diskChannel))
                    (set_recentlyLeftChannels ledger m) eq_refl).
      cbv zeta in H.
      destruct (getRecentlyAddedMembers now (Channel.id diskChannel)
                  (recentlyAddedMembers (set_recentlyLeftChannels ledger m))).
      exact H.
    + specialize (H (Channel.members diskChannel)
                    (set_recentlyLeftChannels ledger m) eq_refl).
      cbv zeta in H.
      destruct (getRecentlyAddedMembers now (Channel.id diskChannel)
                  (recentlyAddedMembers (set_recentlyLeftChannels ledger m))).
      exact H.
  - specialize (H (Channel.members diskChannel) m eq_refl). cbv zeta in H.
    destruct (getRecentlyAddedMembers now (Channel.id diskChannel)
                (recentlyAddedMembers m)).
    exact H.
Qed.

Lemma merge_disk_channel_keeps_in (now : Z) (cid u : jsstring)
    (ours0 : list Channel.t) (m : t) (diskChannel : Channel.t) :
  add_invariant now cid u ours0 m ->
  add_invariant now cid u ours0 (merge_disk_channel now ours0 m diskChannel).
Proof.
  intros [Hprot [Hin Hgrows]].
  split; [|split]; [| |apply merge_disk_channel_grows; [exact I | assumption]].
  - unfold merge_disk_channel.
    pose proof (isRecentlyDeletedChannel_ledgers now (Channel.id diskChannel) m)
      as Hl.
    destruct (isRecentlyDeletedChannel now (Channel.id diskChannel) m)
      as [skip m1]. cbn [snd] in Hl.
    pose proof (add_protected_ext now cid u m m1 (ledgers_added _ _ Hl) Hprot)
      as Hprot1.
    destruct skip; [assumption|].
    destruct (merged_members_added now cid u diskChannel m1 Hprot1) as [Hp2 _].
    destruct (merged_members now diskChannel m1) as [members m2].
    cbn [snd] in Hp2.
    destruct (find_last_index _ ours0);
      (eapply add_protected_ext; [|exact Hp2]); reflexivity.
  - unfold merge_disk_channel.
    pose proof (isRecentlyDeletedChannel_ledgers now (Channel.id diskChannel) m)
      as Hl.
    pose proof (isRecentlyDeletedChannel_channels now (Channel.id diskChannel) m)
      as Hc.
    destruct (isRecentlyDeletedChannel now (Channel.id diskChannel) m)
      as [skip m1]. cbn [snd] in Hl, Hc.
    pose proof (add_protected_ext now cid u m m1 (ledgers_added _ _ Hl) Hprot)
      as Hprot1.
    assert (Hin1 : is_member cid u m1).
    { unfold is_member, getChannel. rewrite Hc. exact Hin. }
    destruct skip; [assumption|].
    destruct (merged_members_added now cid u diskChannel m1 Hprot1) as [_ Hm].
    pose proof (merged_members_channels now diskChannel m1) as Hc2.
    destruct (merged_members now diskChannel m1) as [members m2].
    cbn [fst snd] in Hm, Hc2.
    destruct (find_last_index _ ours0) as [i|] eqn:Hi.
    + intros ch Hget. unfold getChannel in Hget.
      change (channels (upd_channels ?f m2)) with (f (channels m2)) in Hget.
      apply find_update_cases in Hget.
      * destruct Hget as [Hold|[c [Hn [-> Hp]]]].
        -- apply Hin1. unfold getChannel. now rewrite <- Hc2.
        -- rewrite merge_name_members. cbn [Channel.members Channel.set_members].
           apply Hm.
           destruct (find_last_index_Some _ _ _ Hi) as [c0 [Hn0 Hp0]].
           destruct (grows_nth _ _ _ Hgrows i c0 Hn0) as [c' [Hn' Hid]].
           rewrite <- Hc, <- Hc2, Hn in Hn'. injection Hn' as <-.
           unfold has_channel_id in Hp, Hp0.
           apply str_eqb_eq in Hp, Hp0. congruence.
      * intros c. unfold has_channel_id. now rewrite merge_name_id.
    + intros ch Hget. unfold getChannel in Hget.
      change (channels (upd_channels ?f m2)) with (f (channels m2)) in Hget.
      cbv beta in Hget. apply find_push_cases in Hget.
      destruct Hget as [Hold|[-> Hp]].
      * apply Hin1. unfold getChannel. now rewrite <- Hc2.
      * cbn [Channel.members Channel.set_members]. apply Hm.
        unfold has_channel_id in Hp. now apply str_eqb_eq in Hp.
Qed.

Lemma merge_on_load_keeps_in (now : Z) (cid u : jsstring)
    (diskData : ChatDataV2.t) (m : t) :
  add_protected now cid u m ->
  is_member cid u m ->
  is_member cid u (merge_on_load now diskData m).
Proof.
  intros Hprot Hin.
  set (m1 := merge_tombstones now diskData m).
  set (m2 := remove_deleted_channels diskData m1).
  assert (Hp2 : add_protected now cid u m2).
  { eapply add_protected_ext; [|exact Hprot].
    apply ledgers_added. unfold m2.
    now rewrite remove_deleted_channels_ledgers. }
  assert (Hi2 : is_member cid u m2).
  { intros ch Hget. unfold getChannel, m2, remove_deleted_channels in Hget.
    rewrite find_after_removals in Hget.
    destruct (includes _ cid); [discriminate|]. now apply Hin. }
  assert (H : add_invariant now cid u (channels m2)
                (merge_channels now (ChatDataV2.channels diskData) m2)).
  { unfold merge_channels.
    apply (fold_left_invariant (add_invariant now cid u (channels m2))).
    - intros m' diskChannel _. apply merge_disk_channel_keeps_in.
    - repeat split; try assumption. apply grows_refl. }
  destruct H as [_ [H3 _]].
  intros ch Hget. unfold getChannel in Hget.
  rewrite merge_on_load_channels in Hget. now apply H3.
Qed.

Section WithHost.
Variable stringify : ChatDataV2.t -> jsstring.

(** None of the channels the merge of [loadChat] removes is listed by the
    document. *)
Lemma removed_not_listed (diskData : ChatDataV2.t) (m : t) (cid : jsstring) :
  In cid (map Channel.id (ChatDataV2.channels diskData)) ->
  ~ In cid (map Channel.id (filter (to_remove diskData m) (channels m))).
Proof.
  intros Hlisted Hin. apply in_map_iff in Hin. destruct Hin as [c [Hc Hin]].
  apply filter_In in Hin. destruct Hin as [_ Hrm]. unfold to_remove in Hrm.
  apply andb_prop in Hrm. destruct Hrm as [Hrm _].
  apply andb_prop in Hrm. destruct Hrm as [_ Hrm].
  apply negb_true_iff, includes_not_In in Hrm. apply Hrm. now rewrite Hc.
Qed.

Lemma merge_on_load_listed_stays (now : Z) (diskData : ChatDataV2.t) (m : t)
    (cid : jsstring) :
  In cid (map Channel.id (ChatDataV2.channels diskData)) ->
  stays cid (channels m) (channels (merge_on_load now diskData m)).
Proof.
  intros Hlisted. rewrite merge_on_load_channels.
  set (m1 := merge_tombstones now diskData m).
  eapply stays_trans;
    [|apply (grows_stays _ _ _ _ (merge_channels_grows now _ _))].
  change (channels m) with (channels m1).
  unfold remove_deleted_channels.
  now apply removals_stay, removed_not_listed.
Qed.

(** X25: a member added within the last 300 seconds is not dropped by a
    load.  When the ledger of additions holds the user for a channel,
    memory holds the channel with the user in its member list, [chat.json]
    exists and the document the load reads, if it reads one, lists the
    channel, then the channel is held after [loadChat] and the member list
    held for it still has the user, even when the document lists the
    channel without that member. *)
Theorem added_member_is_kept (now : Z) (cid u : jsstring)
    (reads : nat -> File ChatData) (m : t) (ch : Channel.t) :
  add_protected now cid u m ->
  getChannel cid m = Some ch ->
  In u (Channel.members ch) ->
  chatFile m <> Absent ->
  (forall rawData,
      fst (read_with_retry stringify reads) = Some rawData ->
      In cid (map Channel.id
                (ChatDataV2.channels
                   match rawData with
                   | V2 d => d
                   | V1 d => migrateV1ToV2 now d
                   end))) ->
  exists ch',
    getChannel cid (loadChat stringify now reads m) = Some ch'
    /\ In u (Channel.members ch').
Proof.
  intros Hprot Hget Hin Hfile Hlisted.
  assert (Hmember : is_member cid u m).
  { intros ch0 H0. rewrite Hget in H0. now injection H0 as <-. }
  assert (Hne : channels m <> []).
  { intros E. unfold getChannel in Hget. rewrite E in Hget. discriminate. }
  assert (Hmerge : forall rawData,
             fst (read_with_retry stringify reads) = Some rawData ->
             exists ch',
               getChannel cid
                 (ensureRecentMessagesExist now
                    (merge_on_load now
                       match rawData with
                       | V2 d => d
                       | V1 d => migrateV1ToV2 now d
                       end m)) = Some ch'
               /\ In u (Channel.members ch')).
  { intros rawData Hread.
    set (diskData := match rawData with
                     | V2 d => d
                     | V1 d => migrateV1ToV2 now d
                     end) in *.
    pose proof (merge_on_load_listed_stays now diskData m cid
                  (Hlisted rawData Hread)) as Hstays.
    pose proof (merge_on_load_keeps_in now cid u diskData m Hprot Hmember)
      as Hkept.
    unfold getChannel in *.
    rewrite ensureRecentMessagesExist_channels.
    destruct (find (has_channel_id cid) (channels (merge_on_load now diskData m)))
      as [ch'|] eqn:E.
    - exists ch'. split; [reflexivity | now apply Hkept].
    - elim Hstays; [now rewrite Hget | exact E]. }
  unfold loadChat.
  destruct (chatFile m) as [| |c]; [now elim Hfile| |];
    (destruct (fst (read_with_retry stringify reads)) as [rawData|] eqn:Hread;
     [specialize (Hmerge rawData eq_refl);
      destruct (channels m) eqn:E; [now elim Hne|]; exact Hmerge
     |destruct (channels m) eqn:E; [now elim Hne|];
      exists ch; now split]).
Qed.

End WithHost.

Lemma added_member_is_kept_witness :
  exists ch',
    getChannel (js "team")
      (loadChat sample_stringify 7100000 reads_team with_dave) = Some ch'
    /\ In (js "dave") (Channel.members ch').
Proof.
  eapply (added_member_is_kept sample_stringify 7100000 (js "team") (js "dave")
            reads_team with_dave).
  - exists [(js "dave", 7000000)], 7000000.
    split; [reflexivity | split; [reflexivity | vm_compute; discriminate]].
  - vm_compute. reflexivity.
  - simpl. intuition.
  - discriminate.
  - intros rawData H. vm_compute in H. injection H as <-.
    right. left. reflexivity.
Defined.

End AddFacts.

(** ** Channels: deletions *)

Module TombstoneFacts.
Import ChatManager Ops Samples ChannelFacts LeaveFacts DurabilityFacts.



(** A look-up of another channel leaves the cache entry alone. *)
Lemma isRecentlyDeletedChannel_other (now : Z) (cid k : jsstring) (m : t) :
  k <> cid ->
  Dict.get cid (recentlyDeletedChannels (snd (isRecentlyDeletedChannel now k m)))
  = Dict.get cid (recentlyDeletedChannels m).
Proof.
  intros Hne.
  assert (Hpersisted : forall m1 : t,
             Dict.get cid (recentlyDeletedChannels m1)
             = Dict.get cid (recentlyDeletedChannels m) ->
             Dict.get cid
               (recentlyDeletedChannels
                  (snd (match ChatDataV2.deletedChannels (chatData m1) with
                        | Some l =>
                            match find (fun d => str_eqb (DeletedChannel.id d) k) l
                            with
                            | Some persistedDeletion =>
                                if now - DeletedChannel.deletedAt persistedDeletion
                                   <=? DELETED_CHANNEL_RETENTION_MS
                                then (true,
                                      set_recentlyDeletedChannels
                                        (Dict.set k
                                           (DeletedChannel.deletedAt persistedDeletion)
                                           (recentlyDeletedChannels m1)) m1)
                                else (false, m1)
                            | None => (false, m1)
                            end
                        | None => (false, m1)
                        end)))
             = Dict.get cid (recentlyDeletedChannels m)).
  { intros m1 H1.
    destruct (ChatDataV2.deletedChannels (chatData m1)) as [l|]; [|exact H1].
    destruct (find _ l); [|exact H1].
    destruct (_ <=? _); [|exact H1].
    cbn [snd recentlyDeletedChannels set_recentlyDeletedChannels].
    rewrite get_set_other by congruence. exact H1. }
  unfold isRecentlyDeletedChannel.
  destruct (Dict.get k (recentlyDeletedChannels m)) as [deletedTime|].
  - destruct (deletedTime =? 0); [now apply Hpersisted|].
    destruct (_ <=? _); [reflexivity|].
    apply Hpersisted.
    cbn [recentlyDeletedChannels set_recentlyDeletedChannels].
    apply get_delete_other. congruence.
  - now apply Hpersisted.
Qed.

Lemma merged_members_cache (now : Z) (diskChannel : Channel.t) (m : t) :
  recentlyDeletedChannels (snd (merged_members now diskChannel m))
  = recentlyDeletedChannels m.
Proof.
  unfold merged_members, drop_if_left.
  destruct (currentUser m) as [cu|].
  - destruct (hasRecentlyLeftChannel _ _ _) as [hasLeft ledger].
    destruct hasLeft; destruct (getRecentlyAddedMembers _ _ _); reflexivity.
  - destruct (getRecentlyAddedMembers _ _ _). reflexivity.
Qed.




Section WithHost.
Variable stringify : ChatDataV2.t -> jsstring.









End WithHost.


End TombstoneFacts.

(** ** Unread totals *)

Module UnreadFacts.
Import ChatManager Ops Samples ChannelFacts LeaveFacts.

Lemma fold_left_same {A B : Type} (f g : A -> B -> A) (l : list B) :
  (forall a b, In b l -> f a b = g a b) ->
  forall a, fold_left f l a = fold_left g l a.
Proof.
  induction l as [|b l IH]; intros H a; cbn [fold_left]; [reflexivity|].
  rewrite H by now left. apply IH. intros a' b' Hin. apply H. now right.
Qed.

(** The count of a channel reads its messages and its read state only. *)
Lemma getUnreadCount_frame (k u : jsstring) (m m' : t) :
  readState m' = readState m ->
  Dict.get k (channelMessages m') = Dict.get k (channelMessages m) ->
  getUnreadCount k u m' = getUnreadCount k u m.
Proof.
  intros Hr Hk. unfold getUnreadCount, unread_messages, last_read_time.
  now rewrite Hr, Hk.
Qed.

(** X27: what happens in a channel the user is not in never changes the
    user's total of unread messages.  Two managers with the same channels
    and read state, whose messages differ in channel [cid] only, give [u]
    the same [getTotalUnreadCount] when no channel listed under [cid] is
    the general one or has [u] as a member. *)
Theorem total_unread_ignores_foreign_channel (cid u : jsstring) (m m' : t) :
  channels m' = channels m ->
  readState m' = readState m ->
  (forall k, k <> cid ->
     Dict.get k (channelMessages m') = Dict.get k (channelMessages m)) ->
  (forall ch, In ch (channels m) -> Channel.id ch = cid ->
     Channel.type ch <> general /\ ~ In u (Channel.members ch)) ->
  getTotalUnreadCount u m' = getTotalUnreadCount u m.
Proof.
  intros Hc Hr Hmsgs Hforeign.
  unfold getTotalUnreadCount, getChannelsForUser. rewrite Hc.
  apply fold_left_same. intros total ch Hin. f_equal.
  apply filter_In in Hin. destruct Hin as [Hin Hvisible].
  apply getUnreadCount_frame; [assumption|].
  apply Hmsgs. intros Hid.
  destruct (Hforeign ch Hin Hid) as [Htype Hmember].
  apply orb_prop in Hvisible. destruct Hvisible as [Hg|Hm].
  - apply Htype. destruct (Channel.type ch); try discriminate. reflexivity.
  - apply Hmember. now apply includes_In.
Qed.

Lemma total_unread_ignores_foreign_channel_witness :
  getTotalUnreadCount (js "dave") team_has_news
  = getTotalUnreadCount (js "dave") in_team.
Proof.
  apply (total_unread_ignores_foreign_channel (js "team")).
  - reflexivity.
  - reflexivity.
  - intros k Hk.
    change (channelMessages team_has_news)
      with (Dict.set (js "team") [sent_message] (channelMessages in_team)).
    now apply get_set_other.
  - intros ch [<-|[<-|[]]] Hid.
    + discriminate.
    + split; [discriminate|].
      intros [H|[H|[H|[]]]]; discriminate.
Defined.

End UnreadFacts.

(** ** Direct messages *)

Module DirectFacts.
Import ChatManager Ops Samples ChannelFacts.

(** The test [startDM] looks an existing conversation up with. *)
Lemma find_app_none {A : Type} (p : A -> bool) (l l' : list A) :
  find p l = None -> find p (l ++ l') = find p l'.
Proof.
  induction l as [|x l IH]; cbn [find app]; [reflexivity|].
  destruct (p x); [discriminate | exact IH].
Qed.

Lemma find_same {A : Type} (p q : A -> bool) (l : list A) :
  (forall x, p x = q x) -> find p l = find q l.
Proof.
  intros H. induction l as [|x l IH]; cbn [find]; [reflexivity|].
  now rewrite H, IH.
Qed.

Lemma includes_head (x : jsstring) (l : list jsstring) :
  includes (x :: l) x = true.
Proof. apply includes_In. now left. Qed.

Lemma includes_second (x y : jsstring) (l : list jsstring) :
  includes (x :: y :: l) y = true.
Proof. apply includes_In. right. now left. Qed.

Section WithHost.
Variable stringify : ChatDataV2.t -> jsstring.

Lemma startDM_found (now : Z) (newId a b : jsstring) (m : t) :
  let r := startDM stringify now newId a b m in
  find (fun ch => ChannelType_eqb (Channel.type ch) dm
                  && Nat.eqb (length (Channel.members ch)) 2
                  && includes (Channel.members ch) a
                  && includes (Channel.members ch) b)
       (channels (snd r))
  = Some (fst r).
Proof.
  cbv zeta. unfold startDM.
  destruct (find _ (channels m)) as [existingDM|] eqn:E; cbn [fst snd].
  - exact E.
  - rewrite saveChat_channels.
    do 2 change (channels (trackMemberAdded ?t ?c ?u ?x)) with (channels x).
    change (channels (upd_readState ?f ?x)) with (channels x).
    change (channels (upd_channelMessages ?f ?x)) with (channels x).
    change (channels (upd_channels ?f m)) with (f (channels m)). cbv beta.
    rewrite (find_app_none _ _ _ E). cbn [find Channel.type Channel.members].
    rewrite includes_head, includes_second. reflexivity.
Qed.

(** X28: [startDM] never opens a second conversation for the same two
    users.  Called again after a first call, by either of the two and at
    any later time, it returns the channel the first call returned and
    leaves the manager as the first call left it. *)
Theorem startDM_again (now now' : Z) (newId newId' a b : jsstring) (m : t) :
  let r := startDM stringify now newId a b m in
  startDM stringify now' newId' a b (snd r) = r
  /\ startDM stringify now' newId' b a (snd r) = r.
Proof.
  cbv zeta. pose proof (startDM_found now newId a b m) as Hfound.
  cbv zeta in Hfound.
  destruct (startDM stringify now newId a b m) as [channel m1] eqn:Hr.
  cbn [fst snd] in *. split.
  - unfold startDM at 1. now rewrite Hfound.
  - unfold startDM at 1.
    rewrite (find_same _ (fun ch => ChannelType_eqb (Channel.type ch) dm
                           && Nat.eqb (length (Channel.members ch)) 2
                           && includes (Channel.members ch) a
                           && includes (Channel.members ch) b)).
    + now rewrite Hfound.
    + intros ch. rewrite <- !andb_assoc. f_equal. f_equal. apply andb_comm.
Qed.

End WithHost.

End DirectFacts.

(** ** Channels: no way back after a leave *)

Module RejoinFacts.
Import ChatManager Ops Samples ChannelFacts LeaveFacts DurabilityFacts.
Import TombstoneFacts.

Lemma find_last_index_none {A : Type} (p : A -> bool) (l : list A) :
  find p l = None -> find_last_index p l = None.
Proof.
  induction l as [|x l IH]; cbn [find find_last_index]; [reflexivity|].
  destruct (p x); [discriminate|]. intros H. now rewrite IH.
Qed.

Lemma find_first {A : Type} (p : A -> bool) (l : list A) (x : A) :
  find p l = Some x ->
  exists pre post,
    l = pre ++ x :: post /\ (forall y, In y pre -> p y = false).
Proof.
  induction l as [|y l IH]; cbn [find]; [discriminate|].
  destruct (p y) eqn:Hy.
  - intros [= ->]. exists [], l. split; [reflexivity | intros ? []].
  - intros H. destruct (IH H) as [pre [post [-> Hpre]]].
    exists (y :: pre), post. split; [reflexivity|].
    intros z [<-|Hz]; [assumption | now apply Hpre].
Qed.

(** *** A channel that nothing says was deleted *)

Lemma isRecentlyDeletedChannel_miss (now : Z) (cid : jsstring) (m : t) :
  no_tombstone cid m -> isRecentlyDeletedChannel now cid m = (false, m).
Proof.
  intros [Hcache Hours]. unfold isRecentlyDeletedChannel. rewrite Hcache.
  unfold default_tombstones in Hours.
  destruct (ChatDataV2.deletedChannels (chatData m)) as [l|]; [|reflexivity].
  destruct (find _ l) as [d|] eqn:E; [|reflexivity].
  exfalso. apply Hours. apply find_some in E. destruct E as [Hin Hid].
  apply str_eqb_eq in Hid. unfold tombstone_ids. apply in_map_iff.
  now exists d.
Qed.

Lemma isRecentlyDeletedChannel_tombstones (now : Z) (cid : jsstring) (m : t) :
  default_tombstones (snd (isRecentlyDeletedChannel now cid m))
  = default_tombstones m.
Proof.
  unfold isRecentlyDeletedChannel.
  destruct (Dict.get cid (recentlyDeletedChannels m)) as [deletedTime|].
  - destruct (deletedTime =? 0).
    + destruct (ChatDataV2.deletedChannels (chatData m)) as [l|]; [|reflexivity].
      destruct (find _ l); [|reflexivity].
      destruct (_ <=? _); reflexivity.
    + destruct (_ <=? _); [reflexivity|].
      cbn [chatData set_recentlyDeletedChannels].
      destruct (ChatDataV2.deletedChannels (chatData m)) as [l|]; [|reflexivity].
      destruct (find _ l); [|reflexivity].
      destruct (_ <=? _); reflexivity.
  - destruct (ChatDataV2.deletedChannels (chatData m)) as [l|]; [|reflexivity].
    destruct (find _ l); [|reflexivity].
    destruct (_ <=? _); reflexivity.
Qed.

Lemma merged_members_tombstones (now : Z) (diskChannel : Channel.t) (m : t) :
  default_tombstones (snd (merged_members now diskChannel m))
  = default_tombstones m.
Proof.
  unfold merged_members, drop_if_left.
  destruct (currentUser m) as [cu|].
  - destruct (hasRecentlyLeftChannel _ _ _) as [hasLeft ledger].
    destruct hasLeft; destruct (getRecentlyAddedMembers _ _ _); reflexivity.
  - destruct (getRecentlyAddedMembers _ _ _). reflexivity.
Qed.

(** A turn of the channel merge for another channel leaves it so, and
    adopts nothing under [cid]. *)
Lemma merge_disk_channel_elsewhere (now : Z) (cid : jsstring)
    (ours0 : list Channel.t) (m : t) (diskChannel : Channel.t) :
  Channel.id diskChannel <> cid ->
  no_tombstone cid m /\ getChannel cid m = None ->
  no_tombstone cid (merge_disk_channel now ours0 m diskChannel)
  /\ getChannel cid (merge_disk_channel now ours0 m diskChannel) = None.
Proof.
  intros Hid [[Hcache Hours] Hnone]. unfold merge_disk_channel.
  pose proof (isRecentlyDeletedChannel_other now cid _ m Hid) as Hc.
  pose proof (isRecentlyDeletedChannel_tombstones now (Channel.id diskChannel) m)
    as Ht.
  pose proof (isRecentlyDeletedChannel_channels now (Channel.id diskChannel) m)
    as Hl.
  destruct (isRecentlyDeletedChannel now (Channel.id diskChannel) m)
    as [skip m1]. cbn [snd] in Hc, Ht, Hl.
  assert (H1 : no_tombstone cid m1).
  { split; [now rewrite Hc | now rewrite Ht]. }
  assert (Hnone1 : getChannel cid m1 = None).
  { unfold getChannel. now rewrite Hl. }
  destruct skip; [now split|].
  pose proof (merged_members_cache now diskChannel m1) as Hc2.
  pose proof (merged_members_tombstones now diskChannel m1) as Ht2.
  pose proof (merged_members_channels now diskChannel m1) as Hl2.
  destruct (merged_members now diskChannel m1) as [members m2].
  cbn [snd] in Hc2, Ht2, Hl2.
  assert (H2 : no_tombstone cid m2).
  { destruct H1 as [Ha Hb]. split; [now rewrite Hc2 | now rewrite Ht2]. }
  assert (Hnone2 : find (has_channel_id cid) (channels m2) = None).
  { rewrite Hl2. exact Hnone1. }
  destruct (find_last_index _ ours0) as [i|].
  - split; [exact H2|].
    unfold getChannel.
    change (channels (upd_channels ?f m2)) with (f (channels m2)).
    destruct (find _ (update_nth i _ (channels m2))) as [ch|] eqn:Hf;
      [|reflexivity].
    apply find_update_cases in Hf.
    + destruct Hf as [Hold|[c [Hn [-> Hp]]]]; [congruence|].
      apply nth_error_In in Hn.
      pose proof (find_none _ _ Hnone2 c Hn) as Hc'. congruence.
    + intros c. unfold has_channel_id. now rewrite merge_name_id.
  - split; [exact H2|].
    unfold getChannel.
    change (channels (upd_channels ?f m2)) with (f (channels m2)).
    cbv beta.
    destruct (find _ (channels m2 ++ _)) as [ch|] eqn:Hf; [|reflexivity].
    apply find_push_cases in Hf.
    destruct Hf as [Hold|[-> Hp]]; [congruence|].
    unfold has_channel_id in Hp. apply str_eqb_eq in Hp.
    cbn [Channel.id Channel.set_members] in Hp. contradiction.
Qed.

(** The turn for the channel itself adopts it. *)
Lemma merge_disk_channel_adopts (now : Z) (cid : jsstring)
    (ours0 : list Channel.t) (m : t) (diskChannel : Channel.t) :
  Channel.id diskChannel = cid ->
  no_tombstone cid m ->
  getChannel cid m = None ->
  find (has_channel_id cid) ours0 = None ->
  getChannel cid (merge_disk_channel now ours0 m diskChannel) <> None.
Proof.
  intros Hid Hno Hnone Hours0. unfold merge_disk_channel.
  rewrite Hid, (isRecentlyDeletedChannel_miss now cid m Hno).
  pose proof (merged_members_channels now diskChannel m) as Hl.
  destruct (merged_members now diskChannel m) as [members m2]. cbn [snd] in Hl.
  rewrite (find_last_index_none _ _ Hours0).
  unfold getChannel.
  change (channels (upd_channels ?f m2)) with (f (channels m2)). cbv beta.
  rewrite Hl, (DirectFacts.find_app_none _ _ _ Hnone). cbn [find].
  unfold has_channel_id. cbn [Channel.id Channel.set_members].
  rewrite Hid, str_eqb_refl. discriminate.
Qed.

Lemma merge_tombstones_no_tombstone (now : Z) (cid : jsstring)
    (diskData : ChatDataV2.t) (m : t) :
  no_tombstone cid m ->
  ~ In cid (tombstone_ids (disk_tombstones diskData)) ->
  no_tombstone cid (merge_tombstones now diskData m).
Proof.
  intros [Hcache Hours] Hdisk. unfold merge_tombstones, no_tombstone.
  fold (disk_tombstones diskData).
  set (fresh := new_tombstones _ _).
  assert (Hfresh : forall d, In d fresh -> DeletedChannel.id d <> cid).
  { intros d Hd E. apply Hdisk. unfold fresh, new_tombstones in Hd.
    apply filter_In in Hd. destruct Hd as [Hd _].
    unfold tombstone_ids. apply in_map_iff. now exists d. }
  split.
  - cbn [recentlyDeletedChannels set_tombstones set_chatData
         set_recentlyDeletedChannels].
    rewrite <- Hcache. clear Hcache.
    generalize (recentlyDeletedChannels m). clearbody fresh.
    induction fresh as [|d fresh IH]; intros c; cbn [fold_left]; [reflexivity|].
    rewrite IH by (intros; apply Hfresh; now right).
    apply get_set_other. intros E. apply (Hfresh d); [now left | now symmetry].
  - unfold default_tombstones at 1.
    cbn [chatData set_tombstones set_chatData set_recentlyDeletedChannels
         ChatDataV2.deletedChannels ChatDataV2.set_deletedChannels].
    unfold tombstone_ids. intros Hin. apply in_map_iff in Hin.
    destruct Hin as [d [Hid Hd]]. apply filter_In in Hd. destruct Hd as [Hd _].
    apply in_app_or in Hd. destruct Hd as [Hd|Hd].
    + apply Hours. unfold tombstone_ids. apply in_map_iff. now exists d.
    + now apply (Hfresh d).
Qed.

(** *** Adoption *)

(** A channel that memory does not hold, that the document lists and that
    nothing says was deleted is held after the merge. *)
Lemma merge_on_load_adopts (now : Z) (cid : jsstring)
    (diskData : ChatDataV2.t) (diskChannel : Channel.t) (m : t) :
  getChannel cid m = None ->
  find (has_channel_id cid) (ChatDataV2.channels diskData) = Some diskChannel ->
  no_tombstone cid m ->
  ~ In cid (tombstone_ids (disk_tombstones diskData)) ->
  getChannel cid (merge_on_load now diskData m) <> None.
Proof.
  intros Hnone Hdisk Hno Hnodisk. unfold getChannel.
  rewrite merge_on_load_channels.
  set (m1 := merge_tombstones now diskData m).
  set (m2 := remove_deleted_channels diskData m1).
  assert (H2 : no_tombstone cid m2 /\ getChannel cid m2 = None).
  { pose proof (merge_tombstones_no_tombstone now cid diskData m Hno Hnodisk)
      as [Hc1 Ht1].
    split; [split|].
    - unfold m2, remove_deleted_channels.
      now rewrite (fold_left_field recentlyDeletedChannels) by reflexivity.
    - unfold m2, remove_deleted_channels.
      now rewrite (fold_left_field default_tombstones) by reflexivity.
    - unfold getChannel, m2, remove_deleted_channels.
      rewrite find_after_removals. now destruct (includes _ cid). }
  pose proof (find_some _ _ Hdisk) as [_ Hid].
  unfold has_channel_id in Hid. apply str_eqb_eq in Hid.
  destruct (find_first _ _ _ Hdisk) as [pre [post [Hsplit Hpre]]].
  unfold merge_channels. rewrite Hsplit, fold_left_app. cbn [fold_left].
  set (ma := fold_left (merge_disk_channel now (channels m2)) pre m2).
  assert (Ha : no_tombstone cid ma /\ getChannel cid ma = None).
  { unfold ma.
    apply (fold_left_invariant
             (fun x => no_tombstone cid x /\ getChannel cid x = None));
      [|exact H2].
    intros x c Hin. apply merge_disk_channel_elsewhere.
    intros E. specialize (Hpre c Hin). unfold has_channel_id in Hpre.
    rewrite E, str_eqb_refl in Hpre. discriminate. }
  destruct Ha as [Hna Hnonea].
  pose proof (merge_disk_channel_adopts now cid (channels m2) ma diskChannel
                Hid Hna Hnonea (proj2 H2)) as Hadopted.
  set (mb := merge_disk_channel now (channels m2) ma diskChannel) in *.
  assert (Hg : grows anything (channels mb)
                 (channels (fold_left (merge_disk_channel now (channels m2))
                              post mb))).
  { apply (fold_left_invariant (fun x => grows anything (channels mb) (channels x))).
    - intros x c _ Hx. apply merge_disk_channel_grows; [exact I | exact Hx].
    - apply grows_refl. }
  unfold getChannel in Hadopted.
  destruct (find (has_channel_id cid) (channels mb)) as [ch|] eqn:E;
    [|now elim Hadopted].
  destruct (grows_find _ _ _ _ _ Hg E) as [ch' [Hf _]].
  rewrite Hf. discriminate.
Qed.

Section WithHost.
Variable stringify : ChatDataV2.t -> jsstring.

(** C5.  The current user left a channel within the leave protection: the
    ledger of leaves holds the channel with a time not more than 300000 ms
    before [now], the ledger of additions does not hold the user for it,
    and the member list memory holds for the channel, if any, is without
    the user.  Then the merge of [loadChat] with any document leaves the
    user out of the member list held for the channel, be the channel
    already known or adopted by this merge; a channel that memory does not
    hold, that the document lists and that nothing says was deleted is
    adopted, and is held without the user; so it is after the whole of
    [loadChat], whatever its reads return, when the manager holds a channel
    at all.  And [leaveChannel] leaves the manager in such a state. *)
Theorem leave_no_rejoin (now : Z) (cid u : jsstring) (m : t) :
  left_protected now cid u m ->
  not_member cid u m ->
  (forall diskData ch,
      getChannel cid (merge_on_load now diskData m) = Some ch ->
      ~ In u (Channel.members ch))
  /\ (forall diskData diskChannel,
        getChannel cid m = None ->
        find (has_channel_id cid) (ChatDataV2.channels diskData)
        = Some diskChannel ->
        no_tombstone cid m ->
        ~ In cid (tombstone_ids (disk_tombstones diskData)) ->
        exists ch,
          getChannel cid (merge_on_load now diskData m) = Some ch
          /\ ~ In u (Channel.members ch))
  /\ (channels m <> [] ->
      forall reads ch,
        getChannel cid (loadChat stringify now reads m) = Some ch ->
        ~ In u (Channel.members ch))
  /\ (forall leftAt newId cu m0,
        currentUser m0 = Some cu ->
        fst (leaveChannel stringify leftAt newId cid (VaultUser.vaultName cu) m0)
        <> Returns NotLeft ->
        leftAt <> 0 ->
        now - leftAt <= LEAVE_PROTECTION_DURATION ->
        let m' := snd (leaveChannel stringify leftAt newId cid
                         (VaultUser.vaultName cu) m0) in
        left_protected now cid (VaultUser.vaultName cu) m'
        /\ not_member cid (VaultUser.vaultName cu) m').
Proof.
  intros Hprot Hout.
  pose proof (fun diskData =>
                merge_on_load_keeps_out now cid u diskData m Hprot Hout)
    as Hmerge.
  split; [exact Hmerge|]. split; [|split].
  - intros diskData diskChannel Hnone Hdisk Hno Hnodisk.
    pose proof (merge_on_load_adopts now cid diskData diskChannel m
                  Hnone Hdisk Hno Hnodisk) as Hheld.
    destruct (getChannel cid (merge_on_load now diskData m)) as [ch|] eqn:E;
      [|now elim Hheld].
    exists ch. split; [reflexivity | now apply (Hmerge diskData)].
  - intros Hne reads.
    now apply (loadChat_keeps_out stringify now cid u reads m).
  - intros leftAt newId cu m0.
    apply (leaveChannel_records stringify leftAt now newId cid cu m0).
Qed.

End WithHost.

Lemma leave_no_rejoin_witness :
  exists ch,
    getChannel (js "team") (merge_on_load 7200000 team_doc left_elsewhere)
    = Some ch
    /\ ~ In (js "alice") (Channel.members ch).
Proof.
  apply (proj1 (proj2 (leave_no_rejoin sample_stringify 7200000 (js "team")
                         (js "alice") left_elsewhere
                         ltac:(split; [exists alice; split; reflexivity|];
                               split; [exists 7000000;
                                       split; [reflexivity|];
                                       split; [discriminate
                                              | vm_compute; discriminate]
                                      | intros channelMembers H;
                                        discriminate])
                         ltac:(intros ch H; discriminate)))
           team_doc team).
  - reflexivity.
  - reflexivity.
  - split; [reflexivity | intros []].
  - intros [].
Defined.

End RejoinFacts.
